(** * Shapelet experiment drivers: a shallow embedding of
    [experiments/common.py] and [experiments/uea.py]

    The embedding follows the Python sources function by function.  Python
    integers are [Z], list and tensor lengths are [nat], dictionaries are
    stdpp finite maps, exceptions are the [Raise] results of a small error
    monad.  Floating-point numbers are idealised as exact rationals [Q];
    calls into torch, sklearn and the operating system whose results the
    scripts do not determine (random permutations, gradient steps, metric
    values, the text produced by [json.dump]) are Section variables. *)

From Stdlib Require Import ZArith QArith String Ascii List Lia.
From stdpp Require Import gmap strings list fin_maps sorting.

Local Open Scope Z_scope.

(** ** Python values, exceptions and builtins *)

Module Py.

Inductive exn :=
| IndexError
| KeyError (key : string)
| TypeError
| ValueError
| RuntimeError
| AssertionError.

Inductive result (A : Type) :=
| Ok (a : A)
| Raise (e : exn).
Arguments Ok {A} a.
Arguments Raise {A} e.

#[global] Instance result_ret : MRet result := fun A a => Ok a.
#[global] Instance result_bind : MBind result := fun A B f m =>
  match m with Ok a => f a | Raise e => Raise e end.

(** Values stored in keyword dictionaries and result records.  [VObj] is a
    reference to an object the scripts treat as opaque (a model, a data
    loader, a tensor). *)
Inductive pyval :=
| VNone
| VBool (b : bool)
| VInt (z : Z)
| VStr (s : string)
| VObj (ref : positive).

#[global] Instance pyval_eq_dec : EqDecision pyval.
Proof. solve_decision. Defined.

(** The integer a value compares as; [bool] is a subclass of [int]. *)
Definition as_int (v : pyval) : option Z :=
  match v with
  | VInt z => Some z
  | VBool b => Some (if b then 1 else 0)
  | _ => None
  end.

(** [min(a, len(dataset))] with an integer second argument: Python keeps
    the first argument unless the second is strictly smaller, and raises
    [TypeError] when the two do not compare. *)
Definition min_with_int (a : pyval) (n : Z) : result pyval :=
  match as_int a with
  | Some z => Ok (if n <? z then VInt n else a)
  | None => Raise TypeError
  end.

(** [xs[i]] on a sequence: negative indices count from the end. *)
Definition getitem {A} (xs : list A) (i : Z) : result A :=
  let n := Z.of_nat (length xs) in
  let j := if i <? 0 then n + i else i in
  if (0 <=? j) && (j <? n) then
    match xs !! Z.to_nat j with Some x => Ok x | None => Raise IndexError end
  else Raise IndexError.

(** [xs[i] = v] on a sequence. *)
Definition setitem {A} (xs : list A) (i : Z) (v : A) : result (list A) :=
  let n := Z.of_nat (length xs) in
  let j := if i <? 0 then n + i else i in
  if (0 <=? j) && (j <? n) then Ok (<[Z.to_nat j := v]> xs)
  else Raise IndexError.

(** [xs[:k]] *)
Definition slice_to {A} (k : Z) (xs : list A) : list A :=
  take (Z.to_nat (if k <? 0 then Z.of_nat (length xs) + k else k)) xs.

(** [int(x)] for a float: truncation towards zero. *)
Definition int_of_float (x : Q) : Z := Z.quot (Qnum x) (Z.pos (Qden x)).

(** [a < b] on the rationals that stand for Python floats. *)
Definition Qltb (a b : Q) : bool := negb (Qle_bool b a).

(** A tensor of shape (batch, length, channel) and its sizes. *)
Definition size1 (all_X : list (list (list Q))) : nat :=
  match all_X with
  | sample :: _ => length sample
  | [] => 0
  end.

Definition size2 (all_X : list (list (list Q))) : nat :=
  match all_X with
  | (row :: _) :: _ => length row
  | _ => 0
  end.

(** *** [int(s)] and [str(n)] on ASCII strings *)

(** The character's code point. *)
Definition code (c : ascii) : Z := Z.of_N (N_of_ascii c).

(** The ASCII characters [str.isspace] accepts. *)
Definition is_space (c : ascii) : bool :=
  let n := code c in
  (n =? 32) || ((9 <=? n) && (n <=? 13)) || ((28 <=? n) && (n <=? 31)).

Definition digit_val (c : ascii) : option Z :=
  let n := code c in
  if (48 <=? n) && (n <=? 57) then Some (n - 48) else None.

Fixpoint lstrip (s : list ascii) : list ascii :=
  match s with
  | c :: s' => if is_space c then lstrip s' else s
  | [] => []
  end.

Definition strip (s : list ascii) : list ascii :=
  reverse (lstrip (reverse (lstrip s))).

(** Decimal digits, with single underscores allowed between two digits. *)
Fixpoint int_digits (acc : Z) (s : list ascii) : option Z :=
  match s with
  | [] => Some acc
  | c :: s' =>
      match digit_val c with
      | Some d => int_digits (10 * acc + d) s'
      | None =>
          if code c =? 95 then
            match s' with
            | c' :: _ => if is_Some_dec (digit_val c') then int_digits acc s'
                         else None
            | [] => None
            end
          else None
      end
  end.

Definition int_unsigned (s : list ascii) : option Z :=
  match s with
  | c :: _ => if is_Some_dec (digit_val c) then int_digits 0 s else None
  | [] => None
  end.

(** [int(s)] for a string [s]: surrounding whitespace is dropped, a sign may
    precede the digits; anything else raises [ValueError]. *)
Definition int_of_str (s : string) : result Z :=
  let t := strip (list_ascii_of_string s) in
  let parsed :=
    match t with
    | c :: t' =>
        if code c =? 45 then Z.opp <$> int_unsigned t'
        else if code c =? 43 then int_unsigned t'
        else int_unsigned t
    | [] => None
    end in
  match parsed with Some n => Ok n | None => Raise ValueError end.

Definition digit_char (d : Z) : ascii := ascii_of_N (Z.to_N (48 + d)).

Fixpoint digits_acc (fuel : nat) (n : Z) (acc : list ascii) : list ascii :=
  match fuel with
  | O => acc
  | S fuel' =>
      let acc' := digit_char (n mod 10) :: acc in
      if n <? 10 then acc' else digits_acc fuel' (n / 10) acc'
  end.

Definition str_of_nonneg (n : Z) : list ascii :=
  digits_acc (S (Z.to_nat (Z.log2 n))) n [].

(** [str(n)] for an integer [n]. *)
Definition str_of_int (n : Z) : string :=
  string_of_list_ascii
    (if n <? 0 then ascii_of_N 45 :: str_of_nonneg (- n) else str_of_nonneg n).

Example int_of_str_examples :
  int_of_str "12" = Ok 12 ∧ int_of_str " 007 " = Ok 7 ∧
  int_of_str "-3" = Ok (-3) ∧ int_of_str "1_000" = Ok 1000 ∧
  int_of_str "1__0" = Raise ValueError ∧ int_of_str "0.json" = Raise ValueError ∧
  int_of_str "" = Raise ValueError ∧ int_of_str "_1" = Raise ValueError ∧
  int_of_str "1_" = Raise ValueError ∧ int_of_str "+" = Raise ValueError.
Proof. repeat split; reflexivity. Qed.

Example str_of_int_examples :
  str_of_int 0 = "0"%string ∧ str_of_int 10 = "10"%string ∧
  str_of_int 4096 = "4096"%string ∧ str_of_int (-25) = "-25"%string.
Proof. repeat split; reflexivity. Qed.

Definition digits_value (a : Z) (ds : list ascii) : Z :=
  foldl (λ a c, 10 * a + (code c - 48)) a ds.

Definition is_digit (c : ascii) : Prop := 48 ≤ code c ≤ 57.

Lemma digit_val_digit c : is_digit c → digit_val c = Some (code c - 48).
Proof.
  unfold is_digit, digit_val. intros H.
  replace (48 <=? code c) with true by lia.
  replace (code c <=? 57) with true by lia. done.
Qed.

Lemma digit_not_space c : is_digit c → is_space c = false.
Proof. unfold is_digit, is_space. intros H. lia. Qed.

Lemma digit_char_code d : 0 ≤ d ≤ 9 → code (digit_char d) = 48 + d.
Proof.
  intros H. unfold code, digit_char. rewrite N_ascii_embedding; lia.
Qed.

Lemma int_digits_app ds : ∀ a rest,
  Forall is_digit ds →
  int_digits a (ds ++ rest) = int_digits (digits_value a ds) rest.
Proof.
  induction ds as [|c ds IH]; intros a rest Hd; [done|].
  inversion Hd as [|? ? Hc Hds]; subst. simpl.
  rewrite (digit_val_digit c Hc). by apply IH.
Qed.

Lemma digits_acc_spec fuel : ∀ n acc,
  (0 < fuel)%nat → 0 ≤ n < 2 ^ Z.of_nat fuel →
  ∃ ds, digits_acc fuel n acc = ds ++ acc ∧ ds ≠ [] ∧ Forall is_digit ds ∧
        ∀ a, digits_value a ds = a * 10 ^ Z.of_nat (length ds) + n.
Proof.
  induction fuel as [|fuel IH]; intros n acc Hf Hn; [lia|].
  simpl digits_acc.
  assert (Hm : 0 ≤ n mod 10 ≤ 9) by (pose proof (Z.mod_pos_bound n 10); lia).
  assert (Hc : is_digit (digit_char (n mod 10))).
  { unfold is_digit. rewrite digit_char_code by done. lia. }
  destruct (Z.ltb_spec n 10) as [Hlt|Hge].
  - exists [digit_char (n mod 10)]. repeat split; [done | by constructor |].
    intros a. unfold digits_value. simpl. rewrite digit_char_code by done.
    rewrite Z.mod_small by lia. lia.
  - assert (Hdiv : 1 ≤ n / 10) by (apply Z.div_le_lower_bound; lia).
    assert (Hfuel : (0 < fuel)%nat).
    { destruct fuel; [|lia]. simpl in Hn. lia. }
    assert (Hb : 0 ≤ n / 10 < 2 ^ Z.of_nat fuel).
    { split; [lia|]. apply Z.div_lt_upper_bound; [lia|].
      rewrite Nat2Z.inj_succ, Z.pow_succ_r in Hn by lia. lia. }
    destruct (IH (n / 10) (digit_char (n mod 10) :: acc) Hfuel Hb)
      as (ds & Heq & Hne & Hds & Hval).
    exists (ds ++ [digit_char (n mod 10)]). split; [|split; [|split]].
    + by rewrite Heq, <- app_assoc.
    + by destruct ds.
    + apply Forall_app. split; [done | by constructor].
    + intros a. unfold digits_value in *. rewrite foldl_snoc, Hval.
      rewrite digit_char_code by done. rewrite length_app. simpl.
      rewrite Nat2Z.inj_add, Z.pow_add_r by lia.
      pose proof (Z.div_mod n 10). lia.
Qed.

Lemma str_of_nonneg_spec n :
  0 ≤ n →
  str_of_nonneg n ≠ [] ∧ Forall is_digit (str_of_nonneg n) ∧
  int_unsigned (str_of_nonneg n) = Some n.
Proof.
  intros Hn. unfold str_of_nonneg.
  destruct (digits_acc_spec (S (Z.to_nat (Z.log2 n))) n []) as
    (ds & Heq & Hne & Hds & Hval); [lia | |].
  { split; [done|]. destruct (Z.eq_dec n 0) as [->|]; [done|].
    pose proof (Z.log2_spec n). pose proof (Z.log2_nonneg n).
    rewrite Nat2Z.inj_succ, Z2Nat.id by done. lia. }
  rewrite Heq, app_nil_r. repeat split; [done..|].
  destruct ds as [|c ds]; [done|]. unfold int_unsigned.
  inversion Hds as [|? ? Hc _]; subst.
  rewrite (digit_val_digit c Hc). simpl is_Some_dec. cbv iota.
  rewrite <- (app_nil_r (c :: ds)), int_digits_app by done.
  cbn [int_digits]. rewrite Hval. f_equal.
Qed.

Lemma lstrip_no_space s : Forall (λ c, is_space c = false) s → lstrip s = s.
Proof. destruct 1 as [|c s Hc _]; [done|]. simpl. by rewrite Hc. Qed.

Lemma strip_no_space s : Forall (λ c, is_space c = false) s → strip s = s.
Proof.
  intros Hs. unfold strip. rewrite (lstrip_no_space s Hs).
  rewrite lstrip_no_space by (by apply Forall_reverse).
  apply reverse_involutive.
Qed.

(** Reading back a printed integer gives the integer. *)
Lemma int_of_str_of_int n : int_of_str (str_of_int n) = Ok n.
Proof.
  unfold int_of_str, str_of_int.
  rewrite list_ascii_of_string_of_list_ascii.
  destruct (Z.ltb_spec n 0) as [Hneg|Hpos].
  - destruct (str_of_nonneg_spec (- n)) as (Hne & Hds & Hval); [lia|].
    rewrite strip_no_space.
    2:{ constructor; [done|]. eapply Forall_impl; [exact Hds|].
        apply digit_not_space. }
    replace (code (ascii_of_N 45) =? 45) with true by done.
    rewrite Hval. simpl. f_equal. lia.
  - destruct (str_of_nonneg_spec n) as (Hne & Hds & Hval); [lia|].
    rewrite strip_no_space
      by (eapply Forall_impl; [exact Hds | apply digit_not_space]).
    destruct (str_of_nonneg n) as [|c ds] eqn:Hs; [done|].
    inversion Hds as [|? ? Hc _]; subst. unfold is_digit in Hc.
    replace (code c =? 45) with false by lia.
    replace (code c =? 43) with false by lia.
    by rewrite Hval.
Qed.

Lemma str_of_int_inj m n : str_of_int m = str_of_int n → m = n.
Proof.
  intros H. pose proof (int_of_str_of_int m) as Hm.
  rewrite H, int_of_str_of_int in Hm. by inversion Hm.
Qed.

(** [xs[-1]] is the last element of a non-empty sequence. *)
Lemma getitem_last {A} (channel : list A) :
  channel ≠ [] → ∃ x, last channel = Some x ∧ getitem channel (-1) = Ok x.
Proof.
  intros Hne. destruct (last channel) as [x|] eqn:Hl.
  - exists x. split; [done|]. unfold getitem. simpl.
    assert (0 < length channel)%nat by (destruct channel; [done | simpl; lia]).
    rewrite last_lookup in Hl.
    replace (Z.of_nat (length channel) + -1 <? Z.of_nat (length channel))
      with true by lia.
    replace (0 <=? Z.of_nat (length channel) + -1) with true by lia.
    simpl. replace (Z.to_nat (Z.of_nat (length channel) + -1))
      with (pred (length channel)) by lia.
    by rewrite Hl.
  - apply last_None in Hl. done.
Qed.

End Py.
Import Py.

(** ** [experiments/common.py] *)

Module Common.

(** *** [normalise_data], common.py lines 16-23 *)

Section Normalise.

(** [t.mean()] and [t.std()] of the entries of a tensor. *)
Variable tensor_mean tensor_std : list Q → Q.

(** The entries of [X.unbind(dim=-1)[c]]. *)
Definition channel_entries (X : list (list (list Q))) (c : nat) : list Q :=
  concat ((λ sample : list (list Q),
             (λ row : list Q, default 0%Q (row !! c)) <$> sample) <$> X).

(** Each channel is centred and scaled by the mean and the standard
    deviation of that channel of [train_X]; [zip] stops at the fewer
    channels, and [torch.stack] refuses an empty list.  Tensors are nested
    lists, so a tensor without entries has no channel here. *)
Definition normalise_data (X train_X : list (list (list Q)))
  : result (list (list (list Q))) :=
  let channels := Nat.min (size2 X) (size2 train_X) in
  if (channels =? 0)%nat then Raise RuntimeError
  else
    Ok ((λ sample : list (list Q),
           (λ row : list Q,
              imap (λ c Xi,
                      let mean := tensor_mean (channel_entries train_X c) in
                      let std := tensor_std (channel_entries train_X c) in
                      ((Xi - mean) / (0.00001 + std))%Q)
                   (take channels row)) <$> sample) <$> X).

End Normalise.

(** *** [dataloader], common.py lines 26-34 *)

(** What [torch.utils.data.DataLoader(dataset, **kwargs)] is built from. *)
Record DataLoader (S : Type) := mkDataLoader {
  dl_dataset : list S;
  dl_kwargs : gmap string pyval
}.
Arguments mkDataLoader {S} _ _.
Arguments dl_dataset {S} _.
Arguments dl_kwargs {S} _.

(** [if key not in kwargs: kwargs[key] = value] *)
Definition setdefault (key : string) (value : pyval)
    (kwargs : gmap string pyval) : gmap string pyval :=
  match kwargs !! key with
  | Some _ => kwargs
  | None => <[key := value]> kwargs
  end.

Definition dataloader {S} (dataset : list S) (kwargs : gmap string pyval)
  : result (DataLoader S) :=
  let kwargs := setdefault "shuffle" (VBool true) kwargs in
  let kwargs := setdefault "drop_last" (VBool true) kwargs in
  let kwargs := setdefault "batch_size" (VInt 32) kwargs in
  match kwargs !! "batch_size" with
  | None => Raise (KeyError "batch_size")
  | Some requested =>
      b ← min_with_int requested (Z.of_nat (length dataset));
      Ok (mkDataLoader dataset (<["batch_size" := b]> kwargs))
  end.

(** The batch size a caller asks for: the keyword when given, else 32. *)
Definition requested_batch_size (given : option Z) : Z := default 32 given.

Lemma setdefault_lookup key value kwargs k :
  setdefault key value kwargs !! k =
    if decide (k = key) then Some (default value (kwargs !! key))
    else kwargs !! k.
Proof.
  unfold setdefault. destruct (kwargs !! key) as [v|] eqn:Hk.
  - case_decide; subst; simpl; done.
  - case_decide; subst; simpl.
    + by rewrite lookup_insert_eq.
    + by rewrite lookup_insert_ne.
Qed.

Ltac kwargs_lookup := repeat (rewrite setdefault_lookup; simpl).



(** *** [save_results], common.py lines 301-322 *)

(** The interpreter state [save_results] works on: the dictionaries on the
    heap, by reference, and the directory tree below [here / 'results']
    (result folder, then result subfolder, then file name to file text). *)
Record world := mkWorld {
  heap : gmap positive (gmap string pyval);
  results_dir : gmap string (gmap string (gmap string string))
}.

(** [if not os.path.exists(p): os.mkdir(p)] *)
Definition mkdir_if_missing {V} `{Empty V} (name : string)
    (parent : gmap string V) : gmap string V :=
  match parent !! name with
  | Some _ => parent
  | None => <[name := ∅]> parent
  end.

(** [os.listdir(loc)] *)
Definition listdir (loc : gmap string string) : list string :=
  elements (dom loc).

(** The loop of lines 308-313, one file name at a time:
    [num = max(num, int(filename))], a [ValueError] being passed over. *)
Definition largest_step (num : Z) (filename : string) : Z :=
  match int_of_str filename with
  | Ok n => Z.max num n
  | Raise _ => num
  end.

Definition largest_number (filenames : list string) : Z :=
  foldl largest_step (-1) filenames.

(** [d.copy()]: a new dictionary object holding the same entries. *)
Definition dict_copy (ref : positive) (h : gmap positive (gmap string pyval))
  : result (positive * gmap positive (gmap string pyval)) :=
  match h !! ref with
  | Some d => let r := fresh (dom h) in Ok (r, <[r := d]> h)
  | None => Raise RuntimeError
  end.

(** [del d[key]] *)
Definition dict_del (ref : positive) (key : string)
    (h : gmap positive (gmap string pyval))
  : result (gmap positive (gmap string pyval)) :=
  match h !! ref with
  | Some d =>
      match d !! key with
      | Some _ => Ok (<[ref := delete key d]> h)
      | None => Raise (KeyError key)
      end
  | None => Raise RuntimeError
  end.

(** [d[key]] *)
Definition dict_get (ref : positive) (key : string)
    (h : gmap positive (gmap string pyval)) : result pyval :=
  match h !! ref with
  | Some d =>
      match d !! key with
      | Some v => Ok v
      | None => Raise (KeyError key)
      end
  | None => Raise RuntimeError
  end.

(** [d[key] = v] *)
Definition dict_set (ref : positive) (key : string) (v : pyval)
    (h : gmap positive (gmap string pyval))
  : result (gmap positive (gmap string pyval)) :=
  match h !! ref with
  | Some d => Ok (<[ref := <[key := v]> d]> h)
  | None => Raise RuntimeError
  end.

(** The files of [here / 'results' / result_folder / result_subfolder];
    none when the directory does not exist. *)
Definition files_of (w : world) (result_folder result_subfolder : string)
  : gmap string string :=
  default ∅ (default ∅ (results_dir w !! result_folder) !! result_subfolder).

Section SaveResults.

(** The text [json.dump(result_to_save, f, cls=_TensorEncoder)] writes for a
    dictionary, and [str(model)]. *)
Variable json_dump : gmap string pyval → string.
Variable py_str : pyval → string.

Definition save_results (result_folder result_subfolder : string)
    (results : positive) (w : world) : result world :=
  let tree := mkdir_if_missing result_folder (results_dir w) in
  let base_loc :=
    mkdir_if_missing result_subfolder (default ∅ (tree !! result_folder)) in
  let loc := default ∅ (base_loc !! result_subfolder) in
  let num := largest_number (listdir loc) in
  '(result_to_save, h) ← dict_copy results (heap w);
  h ← dict_del result_to_save "train_dataloader" h;
  h ← dict_del result_to_save "val_dataloader" h;
  h ← dict_del result_to_save "test_dataloader" h;
  model ← dict_get result_to_save "model" h;
  h ← dict_set result_to_save "model" (VStr (py_str model)) h;
  let num := num + 1 in
  match h !! result_to_save with
  | Some saved =>
      let loc := <[str_of_int num := json_dump saved]> loc in
      Ok (mkWorld h (<[result_folder := <[result_subfolder := loc]> base_loc]>
                       tree))
  | None => Raise RuntimeError
  end.

(** Successive runs saving into the same subfolder, one call per record. *)
Fixpoint save_results_runs (result_folder result_subfolder : string)
    (records : list positive) (w : world) : result world :=
  match records with
  | [] => Ok w
  | results :: records' =>
      w' ← save_results result_folder result_subfolder results w;
      save_results_runs result_folder result_subfolder records' w'
  end.

(** The record [save_results] hands to [json.dump], written in one piece. *)
Definition record_to_save (d : gmap string pyval) (model : pyval)
  : gmap string pyval :=
  <["model" := VStr (py_str model)]>
    (delete "test_dataloader"
       (delete "val_dataloader" (delete "train_dataloader" d))).

End SaveResults.

Lemma elem_of_listdir loc name : name ∈ listdir loc ↔ is_Some (loc !! name).
Proof. unfold listdir. by rewrite elem_of_elements, elem_of_dom. Qed.

Lemma mkdir_if_missing_lookup {V} `{Empty V} name (parent : gmap string V) :
  default ∅ (mkdir_if_missing name parent !! name)
  = default ∅ (parent !! name).
Proof.
  unfold mkdir_if_missing. destruct (parent !! name) as [v|] eqn:Hp.
  - by rewrite Hp.
  - by rewrite lookup_insert_eq.
Qed.

Lemma mkdir_if_missing_other {V} `{Empty V} name other (parent : gmap string V) :
  other ≠ name → mkdir_if_missing name parent !! other = parent !! other.
Proof.
  intros Hne. unfold mkdir_if_missing. destruct (parent !! name); [done|].
  by rewrite lookup_insert_ne.
Qed.

(** [largest_number] is the maximum of -1 and the names that read as
    integers; names that do not are passed over. *)
Lemma largest_number_from (names : list string) : ∀ start,
  let N := foldl largest_step start names in
  start ≤ N ∧
  (∀ name n, name ∈ names → int_of_str name = Ok n → n ≤ N) ∧
  (N = start ∨ ∃ name, name ∈ names ∧ int_of_str name = Ok N).
Proof.
  induction names as [|x names IH]; intros start; simpl.
  - split; [lia|]. split; [|by left]. intros name n Hin. by inversion Hin.
  - assert (Hstep : start ≤ largest_step start x ∧
                    (∀ n, int_of_str x = Ok n → n ≤ largest_step start x) ∧
                    (largest_step start x = start ∨
                     int_of_str x = Ok (largest_step start x))).
    { unfold largest_step. destruct (int_of_str x) as [n|].
      - split; [lia|]. split; [intros ? [= ->]; lia|].
        destruct (Z.max_spec start n) as [[? ->]|[? ->]]; [by right | by left].
      - split; [lia|]. split; [done | by left]. }
    destruct Hstep as (Hs1 & Hs2 & Hs3).
    destruct (IH (largest_step start x)) as (Hge & Hall & Hatt).
    split; [lia|]. split.
    + intros name n Hin Hp. apply elem_of_cons in Hin as [->|Hin].
      * specialize (Hs2 n Hp). lia.
      * by apply (Hall name).
    + destruct Hatt as [Heq|(name & Hin & Hp)].
      * destruct Hs3 as [Hs3|Hs3].
        -- left. by rewrite Heq.
        -- right. exists x. split; [by left|]. by rewrite Heq.
      * right. exists name. split; [by right | done].
Qed.

Lemma largest_number_spec (loc : gmap string string) :
  let N := largest_number (listdir loc) in
  -1 ≤ N ∧
  (∀ name n, is_Some (loc !! name) → int_of_str name = Ok n → n ≤ N) ∧
  (N = -1 ∨ ∃ name, is_Some (loc !! name) ∧ int_of_str name = Ok N).
Proof.
  destruct (largest_number_from (listdir loc) (-1)) as (Hge & Hall & Hatt).
  split; [done|]. split.
  - intros name n Hin. apply Hall. by apply elem_of_listdir.
  - destruct Hatt as [?|(name & Hin & Hp)]; [by left|].
    right. exists name. split; [by apply elem_of_listdir | done].
Qed.

(** The next file name is not taken. *)
Lemma next_name_free (loc : gmap string string) :
  loc !! str_of_int (largest_number (listdir loc) + 1) = None.
Proof.
  destruct (largest_number_spec loc) as (_ & Hall & _).
  destruct (loc !! str_of_int _) as [text|] eqn:Hl; [|done].
  specialize (Hall _ _ (mk_is_Some _ _ Hl) (int_of_str_of_int _)). lia.
Qed.

(** Writing the next file moves the largest number up by one. *)
Lemma largest_number_next (loc : gmap string string) text :
  largest_number
    (listdir (<[str_of_int (largest_number (listdir loc) + 1) := text]> loc))
  = largest_number (listdir loc) + 1.
Proof.
  set (N := largest_number (listdir loc)).
  destruct (largest_number_spec loc) as (HN & Hall & _). fold N in HN, Hall.
  destruct (largest_number_spec (<[str_of_int (N + 1) := text]> loc))
    as (_ & Hall' & Hatt').
  set (N' := largest_number (listdir (<[str_of_int (N + 1) := text]> loc)))
    in *.
  assert (N + 1 ≤ N').
  { apply (Hall' (str_of_int (N + 1))); [|apply int_of_str_of_int].
    rewrite lookup_insert_eq. by eexists. }
  destruct Hatt' as [?|(name & Hin & Hp)]; [lia|].
  destruct (decide (name = str_of_int (N + 1))) as [->|Hne].
  - rewrite int_of_str_of_int in Hp. by inversion Hp.
  - rewrite lookup_insert_ne in Hin by done.
    specialize (Hall _ _ Hin Hp). lia.
Qed.

Section SaveResultsProofs.
Variable json_dump : gmap string pyval → string.
Variable py_str : pyval → string.

(** What one call does when the record holds the four entries it drops or
    rewrites. *)
Lemma save_results_run folder sub results w d tl vl tsl m :
  heap w !! results = Some d →
  d !! "train_dataloader" = Some tl →
  d !! "val_dataloader" = Some vl →
  d !! "test_dataloader" = Some tsl →
  d !! "model" = Some m →
  ∃ w',
    save_results json_dump py_str folder sub results w = Ok w' ∧
    heap w' = <[fresh (dom (heap w)) := record_to_save py_str d m]> (heap w) ∧
    files_of w' folder sub
    = <[str_of_int (largest_number (listdir (files_of w folder sub)) + 1)
        := json_dump (record_to_save py_str d m)]> (files_of w folder sub) ∧
    (∀ folder' sub', (folder', sub') ≠ (folder, sub) →
       files_of w' folder' sub' = files_of w folder' sub').
Proof.
  intros Hd Htl Hvl Htsl Hm. unfold save_results, dict_copy. rewrite Hd.
  simpl. set (r := fresh (dom (heap w))).
  unfold dict_del at 3. rewrite lookup_insert_eq, Htl. simpl.
  unfold dict_del at 2. rewrite lookup_insert_eq, insert_insert_eq.
  rewrite lookup_delete_ne, Hvl by done. simpl.
  unfold dict_del. rewrite lookup_insert_eq, insert_insert_eq.
  rewrite !lookup_delete_ne, Htsl by done. simpl.
  unfold dict_get. rewrite lookup_insert_eq, !lookup_delete_ne, Hm by done.
  simpl. unfold dict_set. rewrite lookup_insert_eq, insert_insert_eq. simpl.
  rewrite lookup_insert_eq. eexists. split; [reflexivity|]. simpl.
  split; [by rewrite ?insert_insert_eq|].
  rewrite !mkdir_if_missing_lookup. split.
  - unfold files_of. cbn [results_dir]. rewrite lookup_insert_eq.
    cbn [default from_option id]. by rewrite lookup_insert_eq.
  - intros folder' sub' Hne. unfold files_of. cbn [results_dir].
    destruct (decide (folder' = folder)) as [->|Hf].
    + rewrite lookup_insert_eq. cbn [default from_option id].
      assert (sub' ≠ sub) by congruence.
      rewrite lookup_insert_ne by done.
      by rewrite mkdir_if_missing_other.
    + rewrite lookup_insert_ne by done.
      by rewrite mkdir_if_missing_other.
Qed.

(** A call that succeeds was given a record with the four entries. *)
Lemma save_results_ok_inv folder sub results w w' :
  save_results json_dump py_str folder sub results w = Ok w' →
  ∃ d tl vl tsl m,
    heap w !! results = Some d ∧
    d !! "train_dataloader" = Some tl ∧
    d !! "val_dataloader" = Some vl ∧
    d !! "test_dataloader" = Some tsl ∧
    d !! "model" = Some m.
Proof.
  unfold save_results, dict_copy.
  destruct (heap w !! results) as [d|] eqn:Hd; [|done]. simpl.
  unfold dict_del at 3. rewrite lookup_insert_eq.
  destruct (d !! "train_dataloader") as [tl|] eqn:Htl; [|done]. simpl.
  unfold dict_del at 2. rewrite lookup_insert_eq, insert_insert_eq.
  rewrite lookup_delete_ne by done.
  destruct (d !! "val_dataloader") as [vl|] eqn:Hvl; [|done]. simpl.
  unfold dict_del. rewrite lookup_insert_eq, insert_insert_eq.
  rewrite !lookup_delete_ne by done.
  destruct (d !! "test_dataloader") as [tsl|] eqn:Htsl; [|done]. simpl.
  unfold dict_get. rewrite lookup_insert_eq, !lookup_delete_ne by done.
  destruct (d !! "model") as [m|] eqn:Hm; [|done]. intros _.
  by exists d, tl, vl, tsl, m.
Qed.

(** C4.  For a results record (a dictionary holding the three data loaders
    and the model), the record [save_results] saves is the input record
    with the [train_dataloader], [val_dataloader] and [test_dataloader]
    entries removed and the [model] entry replaced by the model's string
    representation, every other entry unchanged; the caller's dictionary,
    and every other object on the heap, is left as it was: only the copy is
    modified. *)
Theorem save_results_record folder sub results w d m :
  heap w !! results = Some d →
  is_Some (d !! "train_dataloader") →
  is_Some (d !! "val_dataloader") →
  is_Some (d !! "test_dataloader") →
  d !! "model" = Some m →
  ∃ w' name saved,
    save_results json_dump py_str folder sub results w = Ok w' ∧
    files_of w folder sub !! name = None ∧
    files_of w' folder sub !! name = Some (json_dump saved) ∧
    saved !! "train_dataloader" = None ∧
    saved !! "val_dataloader" = None ∧
    saved !! "test_dataloader" = None ∧
    saved !! "model" = Some (VStr (py_str m)) ∧
    (∀ k, k ≠ "train_dataloader" → k ≠ "val_dataloader" →
          k ≠ "test_dataloader" → k ≠ "model" → saved !! k = d !! k) ∧
    heap w' !! results = Some d ∧
    (∀ r o, heap w !! r = Some o → heap w' !! r = Some o).
Proof.
  intros Hd [tl Htl] [vl Hvl] [tsl Htsl] Hm.
  destruct (save_results_run folder sub results w d tl vl tsl m)
    as (w' & Hrun & Hheap & Hfiles & _); [done..|].
  exists w', (str_of_int (largest_number (listdir (files_of w folder sub)) + 1)),
    (record_to_save py_str d m).
  assert (Hkeep : ∀ r o, heap w !! r = Some o → heap w' !! r = Some o).
  { intros r o Hr. rewrite Hheap, lookup_insert_ne; [done|].
    intros <-. pose proof (is_fresh (dom (heap w))) as Hfresh.
    apply Hfresh, elem_of_dom. by eexists. }
  split; [done|]. split; [apply next_name_free|].
  split; [by rewrite Hfiles, lookup_insert_eq|].
  unfold record_to_save.
  split.
  { rewrite lookup_insert_ne by done. rewrite 2!lookup_delete_ne by done.
    apply lookup_delete_eq. }
  split.
  { rewrite lookup_insert_ne by done. rewrite lookup_delete_ne by done.
    apply lookup_delete_eq. }
  split; [rewrite lookup_insert_ne by done; apply lookup_delete_eq|].
  split; [by rewrite lookup_insert_eq|].
  split; [|split; [by apply Hkeep | done]].
  intros k H1 H2 H3 H4. rewrite lookup_insert_ne by done.
  by rewrite !lookup_delete_ne by done.
Qed.


End SaveResultsProofs.

(** A model object, three loaders and a history in a record; an existing
    subfolder holding the files [0], [3] and [notes.txt]. *)
Definition demo_record : gmap string pyval :=
  {[ "model" := VObj 7; "train_dataloader" := VObj 8;
     "val_dataloader" := VObj 9; "test_dataloader" := VObj 10;
     "num_classes" := VInt 4; "old_shapelets" := VBool false ]}.

Definition demo_world : world :=
  mkWorld {[ 1%positive := demo_record ]}
          {[ "uea" := {[ "ERing-L2" :=
                {[ "0" := "a"; "3" := "b"; "notes.txt" := "c" ]} ]} ]}.

(** A stand-in for the JSON text: the keys of the saved dictionary. *)
Definition demo_json (d : gmap string pyval) : string :=
  foldr (λ kv acc, String.append kv.1 (String.append ";" acc)) ""
        (map_to_list d).

Definition demo_str (v : pyval) : string := "_LinearShapeletTransform(...)".

Lemma save_results_record_witness :
  ∃ w' name saved,
    save_results demo_json demo_str "uea" "ERing-L2" 1%positive demo_world
      = Ok w' ∧
    files_of demo_world "uea" "ERing-L2" !! name = None ∧
    files_of w' "uea" "ERing-L2" !! name = Some (demo_json saved) ∧
    saved !! "train_dataloader" = None ∧
    saved !! "val_dataloader" = None ∧
    saved !! "test_dataloader" = None ∧
    saved !! "model" = Some (VStr (demo_str (VObj 7))) ∧
    (∀ k, k ≠ "train_dataloader" → k ≠ "val_dataloader" →
          k ≠ "test_dataloader" → k ≠ "model" →
          saved !! k = demo_record !! k) ∧
    heap w' !! 1%positive = Some demo_record ∧
    (∀ r o, heap demo_world !! r = Some o → heap w' !! r = Some o).
Proof.
  apply (save_results_record demo_json demo_str "uea" "ERing-L2" 1%positive
           demo_world demo_record (VObj 7)).
  - reflexivity.
  - exists (VObj 8). reflexivity.
  - exists (VObj 9). reflexivity.
  - exists (VObj 10). reflexivity.
  - reflexivity.
Defined.


(** *** [_train_loop], common.py lines 197-271 *)

(** The result of [_evaluate_metrics]. *)
Record metrics := mkMetrics {
  loss : Q;
  accuracy : Q
}.

(** One entry of [history]. *)
Record history_entry := mkEntry {
  epoch : Z;
  train_loss : Q;
  train_accuracy : Q;
  val_loss : Q;
  val_accuracy : Q
}.

(** [train_metrics.loss * 1.0001 < best_train_loss]; [None] is
    [math.inf]. *)
Definition loss_improves (l : Q) (best_train_loss : option Q) : bool :=
  match best_train_loss with
  | None => true
  | Some best => Qltb (l * 1.0001) best
  end.

Definition epoch_per_metric : Z := 10.
Definition plateau_terminate : Z := 50.

Section TrainLoop.

(** The model's parameters; the optimizer together with its scheduler; a
    batch of the training loader. *)
Variable Model : Type.
Variable Optim : Type.
Variable Batch : Type.
(** The batches the training loader yields during an epoch, the body of the
    inner loop (lines 228-238), [_evaluate_metrics] on the training and on
    the validation loader after an epoch, and [scheduler.step]. *)
Variable train_dataloader : Z → list Batch.
Variable train_step : Batch → Model * Optim → Model * Optim.
Variable evaluate_train : Z → Model → metrics.
Variable evaluate_val : Z → Model → metrics.
Variable scheduler_step : Q → Optim → Optim.

(** The variables of the loop.  [best_model] is [None] as long as it is
    the very object [model] (line 207), and [Some] of a deep copy after
    line 253.  [evaluated] and [epochs_run] are ghost fields the loop never
    reads: the parameters the model had at each metric evaluation, in the
    order of [history], and the number of epochs whose body ran. *)
Record loop_state := mkLoop {
  model : Model;
  optim : Optim;
  best_model : option Model;
  best_train_loss : option Q;
  best_val_accuracy : Q;
  best_epoch : Z;
  history : list history_entry;
  breaking : bool;
  evaluated : list Model;
  epochs_run : nat
}.

Definition initial_state (m : Model) (o : Optim) : loop_state :=
  {| model := m; optim := o; best_model := None; best_train_loss := None;
     best_val_accuracy := 0; best_epoch := 0; history := []; breaking := false;
     evaluated := []; epochs_run := 0 |}.

(** Lines 225-238: one pass over the training loader. *)
Definition train_epoch (epoch : Z) (s : loop_state) : Model * Optim :=
  foldl (λ mo batch, if breaking s then mo else train_step batch mo)
        (model s, optim s) (train_dataloader epoch).

(** Lines 225-267: the body of the loop over epochs, after the test of
    [breaking]. *)
Definition epoch_body (epochs epoch : Z) (s : loop_state) : loop_state :=
  let '(m, o) := train_epoch epoch s in
  if (epoch mod epoch_per_metric =? 0) || (epoch =? epochs - 1) then
    let train_metrics := evaluate_train epoch m in
    let val_metrics := evaluate_val epoch m in
    let improved := loss_improves (loss train_metrics) (best_train_loss s) in
    let better := Qltb (best_val_accuracy s) (accuracy val_metrics) in
    let best_epoch' := if improved then epoch else best_epoch s in
    {| model := m;
       optim := scheduler_step (accuracy val_metrics) o;
       best_model := if better then Some m else best_model s;
       best_train_loss :=
         if improved then Some (loss train_metrics) else best_train_loss s;
       best_val_accuracy :=
         if better then accuracy val_metrics else best_val_accuracy s;
       best_epoch := best_epoch';
       history :=
         history s ++
           [ {| epoch := epoch;
                train_loss := loss train_metrics;
                train_accuracy := accuracy train_metrics;
                val_loss := loss val_metrics;
                val_accuracy := accuracy val_metrics |} ];
       breaking :=
         if epoch >? best_epoch' + plateau_terminate then true
         else breaking s;
       evaluated := evaluated s ++ [m];
       epochs_run := S (epochs_run s) |}
  else
    {| model := m; optim := o; best_model := best_model s;
       best_train_loss := best_train_loss s;
       best_val_accuracy := best_val_accuracy s;
       best_epoch := best_epoch s; history := history s;
       breaking := breaking s; evaluated := evaluated s;
       epochs_run := S (epochs_run s) |}.

(** [for epoch in range: if breaking: break; body]. *)
Fixpoint for_epochs (epochs : Z) (range : list Z) (s : loop_state)
  : loop_state :=
  match range with
  | [] => s
  | epoch :: range' =>
      if breaking s then s
      else for_epochs epochs range' (epoch_body epochs epoch s)
  end.

(** The state when the loop over [range(epochs)] is left. *)
Definition train_loop_state (m : Model) (o : Optim) (epochs : Z)
  : loop_state :=
  for_epochs epochs (seqZ 0 epochs) (initial_state m o).

(** Lines 269-270: the parameters of [best_model] are put into [model];
    nothing changes when [best_model] is [model] itself. *)
Definition returned_model (s : loop_state) : Model :=
  match best_model s with
  | Some best => best
  | None => model s
  end.

(** [_train_loop]: the returned history, and the parameters the model is
    left with. *)
Definition _train_loop (m : Model) (o : Optim) (epochs : Z)
  : list history_entry * Model :=
  let s := train_loop_state m o epochs in
  (history s, returned_model s).

End TrainLoop.

Arguments model {Model Optim} _.
Arguments optim {Model Optim} _.
Arguments best_model {Model Optim} _.
Arguments best_train_loss {Model Optim} _.
Arguments best_val_accuracy {Model Optim} _.
Arguments best_epoch {Model Optim} _.
Arguments history {Model Optim} _.
Arguments breaking {Model Optim} _.
Arguments evaluated {Model Optim} _.
Arguments epochs_run {Model Optim} _.
Arguments returned_model {Model Optim} _.

(** The plateau bookkeeping of lines 246-248 read off a history: the pair
    of [best_train_loss] and [best_epoch] after the evaluations in [h]. *)
Definition plateau_of (h : list history_entry) : option Q * Z :=
  foldl (λ st entry,
           if loss_improves (train_loss entry) st.1
           then (Some (train_loss entry), epoch entry)
           else st) (None, 0) h.

(** The test of line 264 at the last evaluation of [h]. *)
Definition stops_after (h : list history_entry) : bool :=
  match last h with
  | Some entry => epoch entry >? (plateau_of h).2 + plateau_terminate
  | None => false
  end.

Lemma Qltb_lt a b : Qltb a b = true → (a < b)%Q.
Proof.
  unfold Qltb. intros H. apply Qnot_le_lt. intros Hle.
  apply Qle_bool_iff in Hle. by rewrite Hle in H.
Qed.

Lemma Qltb_ge a b : Qltb a b = false → (b <= a)%Q.
Proof.
  unfold Qltb. intros H. apply Qle_bool_iff.
  by destruct (Qle_bool b a).
Qed.

Lemma plateau_of_snoc h entry :
  plateau_of (h ++ [entry]) =
    if loss_improves (train_loss entry) (plateau_of h).1
    then (Some (train_loss entry), epoch entry)
    else plateau_of h.
Proof. unfold plateau_of. by rewrite foldl_snoc. Qed.

Section TrainLoopProofs.
Variable Model : Type.
Variable Optim : Type.
Variable Batch : Type.
Variable train_dataloader : Z → list Batch.
Variable train_step : Batch → Model * Optim → Model * Optim.
Variable evaluate_train : Z → Model → metrics.
Variable evaluate_val : Z → Model → metrics.
Variable scheduler_step : Q → Optim → Optim.

#[local] Abbreviation state := (loop_state Model Optim).
#[local] Abbreviation body := (epoch_body Model Optim Batch train_dataloader train_step
                    evaluate_train evaluate_val scheduler_step).
#[local] Abbreviation loop := (for_epochs Model Optim Batch train_dataloader train_step
                    evaluate_train evaluate_val scheduler_step).
#[local] Abbreviation final_state := (train_loop_state Model Optim Batch train_dataloader
                    train_step evaluate_train evaluate_val scheduler_step).

Lemma epoch_body_epochs_run epochs e (s : state) :
  epochs_run (body epochs e s) = S (epochs_run s).
Proof.
  unfold epoch_body. destruct (train_epoch _ _ _ _ _ _ _) as [m o].
  by destruct (_ || _).
Qed.

(** An invariant of the body, at the epoch the loop has reached, holds when
    the loop is left; the loop is left at the end of the range, or earlier
    with [breaking] set. *)
Lemma for_epochs_invariant (J : state → Prop) epochs :
  (∀ s, J s → breaking s = false →
        J (body epochs (Z.of_nat (epochs_run s)) s)) →
  ∀ len (s : state),
    J s →
    let s' := loop epochs (seqZ (Z.of_nat (epochs_run s)) (Z.of_nat len)) s in
    J s' ∧
    (epochs_run s ≤ epochs_run s' ≤ epochs_run s + len)%nat ∧
    ((epochs_run s' < epochs_run s + len)%nat → breaking s' = true).
Proof.
  intros Hbody. induction len as [|len IH]; intros s HJ.
  - simpl. split; [done|]. split; lia.
  - rewrite seqZ_cons by lia. cbn [for_epochs].
    destruct (breaking s) eqn:Hb.
    + split; [done|]. split; [lia | done].
    + specialize (IH (body epochs (Z.of_nat (epochs_run s)) s)
                    (Hbody s HJ Hb)).
      rewrite epoch_body_epochs_run in IH.
      replace (Z.succ (Z.of_nat (epochs_run s)))
        with (Z.of_nat (S (epochs_run s))) by lia.
      replace (Z.pred (Z.of_nat (S len))) with (Z.of_nat len) by lia.
      destruct IH as (HJ' & Hrange & Hbreak).
      split; [done|]. split; [lia|]. intros Hlt. apply Hbreak. lia.
Qed.

(** **** Best-checkpoint retention *)

Definition keeps_best (s : state) : Prop :=
  length (evaluated s) = length (history s) ∧
  (∀ i entry m, history s !! i = Some entry → evaluated s !! i = Some m →
     val_accuracy entry = accuracy (evaluate_val (epoch entry) m)) ∧
  (∀ entry, entry ∈ history s →
     (val_accuracy entry <= best_val_accuracy s)%Q) ∧
  match best_model s with
  | None => best_val_accuracy s = 0%Q
  | Some best =>
      ∃ i entry,
        history s !! i = Some entry ∧
        evaluated s !! i = Some best ∧
        val_accuracy entry = best_val_accuracy s ∧
        (0 < val_accuracy entry)%Q ∧
        (∀ j earlier, (j < i)%nat → history s !! j = Some earlier →
           (val_accuracy earlier < val_accuracy entry)%Q)
  end.

Lemma keeps_best_nonneg (s : state) :
  keeps_best s → (0 <= best_val_accuracy s)%Q.
Proof.
  intros (_ & _ & _ & Hbest). destruct (best_model s).
  - destruct Hbest as (i & entry & _ & _ & <- & Hpos & _).
    by apply Qlt_le_weak.
  - rewrite Hbest. apply Qle_refl.
Qed.

Lemma keeps_best_body epochs e (s : state) :
  keeps_best s → keeps_best (body epochs e s).
Proof.
  intros HK. pose proof (keeps_best_nonneg s HK) as Hnn.
  destruct HK as (Hlen & Hval & Hle & Hbest).
  unfold epoch_body. destruct (train_epoch _ _ _ _ _ _ _) as [m o].
  destruct (_ || _); [|done].
  set (acc := accuracy (evaluate_val e m)).
  set (entry := {| epoch := e; train_loss := loss (evaluate_train e m);
                   train_accuracy := accuracy (evaluate_train e m);
                   val_loss := loss (evaluate_val e m);
                   val_accuracy := acc |}).
  unfold keeps_best. cbn [evaluated history best_val_accuracy best_model].
  split; [rewrite !length_app; simpl; lia|]. split; [|split].
  - intros i entry' m' Hh He.
    destruct (decide (i < length (history s))%nat) as [Hi|Hi].
    + rewrite lookup_app_l in Hh by done.
      rewrite lookup_app_l in He by lia. by eapply Hval.
    + rewrite lookup_app_r in Hh by lia. rewrite lookup_app_r in He by lia.
      rewrite Hlen in He.
      destruct (i - length (history s))%nat; [|done].
      simpl in Hh, He. by inversion Hh; inversion He; subst.
  - intros entry' Hin. apply elem_of_app in Hin as [Hin|Hin].
    + specialize (Hle _ Hin).
      destruct (Qltb (best_val_accuracy s) acc) eqn:Hb; [|done].
      apply Qltb_lt in Hb. apply Qlt_le_weak. by eapply Qle_lt_trans.
    + apply list_elem_of_singleton in Hin as ->. cbn [val_accuracy].
      destruct (Qltb (best_val_accuracy s) acc) eqn:Hb; [apply Qle_refl|].
      by apply Qltb_ge.
  - destruct (Qltb (best_val_accuracy s) acc) eqn:Hb.
    + apply Qltb_lt in Hb. exists (length (history s)), entry.
      split; [by rewrite lookup_app_r, Nat.sub_diag by lia|].
      split; [by rewrite <- Hlen, lookup_app_r, Nat.sub_diag by lia|].
      split; [done|]. split; [by eapply Qle_lt_trans|].
      intros j earlier Hj Hh. rewrite lookup_app_l in Hh by done.
      cbn [val_accuracy]. eapply Qle_lt_trans; [|exact Hb].
      apply Hle. by eapply list_elem_of_lookup_2.
    + destruct (best_model s) as [best|]; [|done].
      destruct Hbest as (i & entry' & Hh & He & Heq & Hpos & Hfirst).
      pose proof (lookup_lt_Some _ _ _ Hh) as Hi.
      exists i, entry'. split; [by rewrite lookup_app_l|].
      split; [by rewrite lookup_app_l by lia|]. split; [done|].
      split; [done|]. intros j earlier Hj Hhj.
      rewrite lookup_app_l in Hhj by lia. by eapply Hfirst.
Qed.

(** **** Stopping on a plateau of the training loss *)

Definition is_metric_epoch (epochs e : Z) : Prop :=
  e mod epoch_per_metric = 0 ∨ e = epochs - 1.

Definition plateau_inv (epochs : Z) (s : state) : Prop :=
  best_train_loss s = (plateau_of (history s)).1 ∧
  best_epoch s = (plateau_of (history s)).2 ∧
  breaking s = stops_after (history s) ∧
  (∀ h1 h2, history s = h1 ++ h2 → h2 ≠ [] → stops_after h1 = false) ∧
  (breaking s = true →
   ∃ h entry, history s = h ++ [entry] ∧
              epoch entry = Z.of_nat (epochs_run s) - 1) ∧
  (∀ entry, entry ∈ history s →
     0 ≤ epoch entry < Z.of_nat (epochs_run s) ∧
     is_metric_epoch epochs (epoch entry)) ∧
  (∀ e, 0 ≤ e < Z.of_nat (epochs_run s) → is_metric_epoch epochs e →
     ∃ entry, entry ∈ history s ∧ epoch entry = e).

Lemma plateau_inv_body epochs (s : state) :
  plateau_inv epochs s → breaking s = false →
  plateau_inv epochs (body epochs (Z.of_nat (epochs_run s)) s).
Proof.
  intros (Hloss & Hepoch & Hbreak & Hprefix & _ & Hentries & Hall) Hb.
  set (e := Z.of_nat (epochs_run s)).
  unfold epoch_body. destruct (train_epoch _ _ _ _ _ _ _) as [m o].
  fold e. destruct ((e mod epoch_per_metric =? 0) || (e =? epochs - 1))
    eqn:Hmetric.
  - assert (He : is_metric_epoch epochs e).
    { unfold is_metric_epoch.
      apply orb_true_iff in Hmetric as [H|H]; [left|right]; lia. }
    set (entry := {| epoch := e; train_loss := loss (evaluate_train e m);
                     train_accuracy := accuracy (evaluate_train e m);
                     val_loss := loss (evaluate_val e m);
                     val_accuracy := accuracy (evaluate_val e m) |}).
    unfold plateau_inv.
    cbn [best_train_loss best_epoch breaking history epochs_run].
    rewrite plateau_of_snoc. cbn [train_loss epoch entry].
    destruct (plateau_of (history s)) as [bl be] eqn:Hp.
    cbn [fst snd] in Hloss, Hepoch. rewrite Hloss, Hepoch.
    split; [by destruct (loss_improves _ _)|].
    split; [by destruct (loss_improves _ _)|].
    split; [|split; [|split; [|split]]].
    + unfold stops_after. rewrite last_snoc, plateau_of_snoc, Hp.
      cbn [train_loss epoch entry fst]. rewrite Hb.
      by destruct (loss_improves _ _); cbn [snd]; destruct (_ >? _).
    + intros h1 h2 Heq Hne.
      destruct h2 as [|x h2 _] using rev_ind; [done|].
      rewrite app_assoc in Heq. apply app_inj_tail in Heq as [Heq _].
      destruct (decide (h2 = [])) as [->|Hne2].
      * rewrite app_nil_r in Heq. subst h1. by rewrite <- Hbreak.
      * by eapply Hprefix.
    + intros _. exists (history s), {| epoch := e;
        train_loss := loss (evaluate_train e m);
        train_accuracy := accuracy (evaluate_train e m);
        val_loss := loss (evaluate_val e m);
        val_accuracy := accuracy (evaluate_val e m) |}.
      split; [done|]. cbn [epoch]. lia.
    + intros entry' Hin. apply elem_of_app in Hin as [Hin|Hin].
      * destruct (Hentries _ Hin). split; [lia | done].
      * apply list_elem_of_singleton in Hin as ->. unfold entry.
        cbn [epoch]. split; [lia | done].
    + intros e' He' Hm'. destruct (decide (e' = e)) as [->|Hne].
      * eexists. split; [apply elem_of_app; right; by left | done].
      * destruct (Hall e') as (entry' & Hin & Heq); [lia | done |].
        exists entry'. split; [apply elem_of_app; by left | done].
  - unfold plateau_inv.
    cbn [best_train_loss best_epoch breaking history epochs_run].
    split; [done|]. split; [done|]. split; [done|]. split; [done|].
    split; [by rewrite Hb|]. split.
    + intros entry' Hin. destruct (Hentries _ Hin). split; [lia | done].
    + intros e' He' Hm'. apply Hall; [|done].
      destruct (decide (e' = e)) as [->|Hne]; [|lia].
      exfalso. apply orb_false_iff in Hmetric as [H1 H2].
      destruct Hm'; lia.
Qed.

Lemma initial_state_inv epochs m0 o0 :
  keeps_best (initial_state Model Optim m0 o0) ∧
  plateau_inv epochs (initial_state Model Optim m0 o0).
Proof.
  split.
  - split; [done|]. split; [by intros i entry m H; inversion H|].
    split; [by intros entry H; inversion H | done].
  - split; [done|]. split; [done|]. split; [done|]. split.
    { intros h1 h2 Heq Hne. simpl in Heq. symmetry in Heq.
      apply app_eq_nil in Heq as [-> _]. done. }
    split; [done|]. split; [by intros entry H; inversion H|].
    intros e He. simpl in He. lia.
Qed.

Lemma final_state_inv m0 o0 epochs :
  let s := final_state m0 o0 epochs in
  keeps_best s ∧ plateau_inv epochs s ∧
  (epochs_run s ≤ Z.to_nat epochs)%nat ∧
  ((epochs_run s < Z.to_nat epochs)%nat → breaking s = true).
Proof.
  destruct (initial_state_inv epochs m0 o0) as [HK HP].
  pose proof (for_epochs_invariant
                (λ s, keeps_best s ∧ plateau_inv epochs s) epochs) as Hinv.
  specialize (Hinv (λ s '(conj HK' HP') Hb,
     conj (keeps_best_body epochs _ s HK') (plateau_inv_body epochs s HP' Hb))).
  specialize (Hinv (Z.to_nat epochs) (initial_state Model Optim m0 o0)
                (conj HK HP)).
  cbn [epochs_run initial_state] in Hinv.
  replace (seqZ (Z.of_nat 0) (Z.of_nat (Z.to_nat epochs)))
    with (seqZ 0 epochs) in Hinv
    by (unfold seqZ; by rewrite Nat2Z.id).
  destruct Hinv as ((HK' & HP') & Hrange & Hbreak).
  unfold train_loop_state. cbn zeta. split; [done|]. split; [done|].
  split; [lia | done].
Qed.



End TrainLoopProofs.

(** A training run on which the training loss stays at 1 and the validation
    accuracy peaks at the evaluation of epoch 10: the model counts its
    gradient steps, one batch an epoch. *)
Definition demo_train_metrics (e m : Z) : metrics :=
  {| loss := 1; accuracy := 0.5 |}.

Definition demo_val_metrics (e m : Z) : metrics :=
  {| loss := 1; accuracy := if e =? 10 then 0.9 else 0.5 |}.

Definition demo_training (epochs : Z) : loop_state Z unit :=
  train_loop_state Z unit unit (λ _, [tt]) (λ _ mo, (mo.1 + 1, mo.2))
    demo_train_metrics demo_val_metrics (λ _ o, o) 0 tt epochs.

(** The run stops after epoch 60 and hands back the parameters of epoch 10,
    not those of the last epoch. *)
Example demo_training_best_model :
  epochs_run (demo_training 100) = 61%nat ∧
  model (demo_training 100) = 61 ∧
  returned_model (demo_training 100) = 11 ∧
  evaluated (demo_training 100) = [1; 11; 21; 31; 41; 51; 61].
Proof. vm_compute. by repeat split. Qed.

(** When the test of line 264 first holds at the last epoch, no epoch is
    skipped. *)
Example demo_training_last_epoch :
  epochs_run (demo_training 56) = 56%nat ∧
  breaking (demo_training 56) = true ∧
  epoch <$> history (demo_training 56) = [0; 10; 20; 30; 40; 50; 55].
Proof. vm_compute. by repeat split. Qed.

(** The plateau bookkeeping in the words of the specification: an
    evaluation counts when the training loss is below 1.0001 times the best
    (smallest) training loss seen so far. *)
Definition claimed_plateau_of (h : list history_entry) : option Q * Z :=
  foldl (λ st entry,
           let l := train_loss entry in
           let improved :=
             match st.1 with
             | None => true
             | Some best => Qltb l (1.0001 * best)
             end in
           let best' :=
             match st.1 with
             | None => l
             | Some best => if Qltb l best then l else best
             end in
           (Some best', if improved then epoch entry else st.2))
        (None, 0) h.

Definition claimed_stops_after (h : list history_entry) : bool :=
  match last h with
  | Some entry => epoch entry >? (claimed_plateau_of h).2 + plateau_terminate
  | None => false
  end.


(** *** [_get_sample_batch], common.py lines 45-64 *)

(** How a loop body is left: by falling through, or by [return]. *)
Inductive control (R S : Type) :=
| Continue (s : S)
| Return (r : R).
Arguments Continue {R S} s.
Arguments Return {R S} r.

Section SampleBatch.

(** A series [Xi]; a stacked batch; [torch.stack(batch_elems, dim=0)]; and
    [out + 0.001 * torch.randn_like(out)]. *)
Variable Sample : Type.
Variable Tensor : Type.
Variable stack : list Sample → Tensor.
Variable add_noise : Tensor → Tensor.

Record sample_state := mkSampleState {
  batch_elems : list Sample;
  y_seen : gmap Z Z
}.

(** Lines 51-58, for one pair of [zip(X, y)].  Reading [y_seen[yi]] on a
    [defaultdict(int)] creates a missing key with the value 0. *)
Definition sample_step (num_shapelets_per_class num_shapelets : Z)
    (st : sample_state) (Xi : Sample) (yi : Z)
  : control Tensor sample_state :=
  let count := default 0 (y_seen st !! yi) in
  let seen := <[yi := count]> (y_seen st) in
  let st' :=
    if count <? num_shapelets_per_class
    then {| batch_elems := batch_elems st ++ [Xi];
            y_seen := <[yi := count + 1]> seen |}
    else {| batch_elems := batch_elems st; y_seen := seen |} in
  if Z.of_nat (length (batch_elems st')) =? num_shapelets
  then Return (add_noise (stack (batch_elems st')))
  else Continue st'.

(** Line 50: [for Xi, yi in zip(X, y)]. *)
Fixpoint for_samples (num_shapelets_per_class num_shapelets : Z)
    (pairs : list (Sample * Z)) (st : sample_state)
  : control Tensor sample_state :=
  match pairs with
  | [] => Continue st
  | (Xi, yi) :: pairs' =>
      match sample_step num_shapelets_per_class num_shapelets st Xi yi with
      | Return out => Return out
      | Continue st' =>
          for_samples num_shapelets_per_class num_shapelets pairs' st'
      end
  end.

(** Line 49: [for X, y in dataloader], one pass over the loader. *)
Fixpoint for_batches (num_shapelets_per_class num_shapelets : Z)
    (batches : list (list Sample * list Z)) (st : sample_state)
  : control Tensor sample_state :=
  match batches with
  | [] => Continue st
  | (X, y) :: batches' =>
      match for_samples num_shapelets_per_class num_shapelets (zip X y) st
      with
      | Return out => Return out
      | Continue st' =>
          for_batches num_shapelets_per_class num_shapelets batches' st'
      end
  end.

(** Lines 48-64: [while True].  [dataloader p] is what iterating the loader
    for the [p]-th time yields (a shuffling loader yields another order
    each time).  [None] stands for a loop that has not ended within
    [fuel] passes. *)
Fixpoint while_true (fuel : nat)
    (dataloader : nat → list (list Sample * list Z)) (pass : nat)
    (num_shapelets_per_class num_shapelets : Z) (st : sample_state)
  : option (result Tensor) :=
  match fuel with
  | O => None
  | S fuel' =>
      match for_batches num_shapelets_per_class num_shapelets
              (dataloader pass) st with
      | Return out => Some (Ok out)
      | Continue st' =>
          if negb (Z.of_nat (size (y_seen st')) * num_shapelets_per_class
                   =? num_shapelets)
          then Some (Raise RuntimeError)
          else while_true fuel' dataloader (S pass)
                 num_shapelets_per_class num_shapelets st'
      end
  end.

Definition _get_sample_batch (fuel : nat)
    (dataloader : nat → list (list Sample * list Z))
    (num_shapelets_per_class num_shapelets : Z) : option (result Tensor) :=
  while_true fuel dataloader 0 num_shapelets_per_class num_shapelets
    {| batch_elems := []; y_seen := ∅ |}.

(** The state after [n] passes over the loader during none of which the
    batch was completed, whatever the test of line 60 says. *)
Fixpoint after_passes (dataloader : nat → list (list Sample * list Z))
    (num_shapelets_per_class num_shapelets : Z) (n : nat)
  : control Tensor sample_state :=
  match n with
  | O => Continue {| batch_elems := []; y_seen := ∅ |}
  | S n' =>
      match after_passes dataloader num_shapelets_per_class num_shapelets n'
      with
      | Return out => Return out
      | Continue st =>
          for_batches num_shapelets_per_class num_shapelets (dataloader n') st
      end
  end.

End SampleBatch.

Arguments batch_elems {Sample} _.
Arguments y_seen {Sample} _.
Arguments mkSampleState {Sample} _ _.

(** The pairs a pass visits, and the class labels among them. *)
Definition pairs_of {Sample} (batches : list (list Sample * list Z))
  : list (Sample * Z) :=
  concat ((λ b, zip b.1 b.2) <$> batches).

Definition labels_of {Sample} (batches : list (list Sample * list Z))
  : list Z :=
  (pairs_of batches).*2.

(** The number of distinct class labels in the first [n] passes. *)
Definition distinct_labels {Sample}
    (dataloader : nat → list (list Sample * list Z)) (n : nat) : Z :=
  Z.of_nat (size (list_to_set
     (concat ((λ p, labels_of (dataloader p)) <$> seq 0 n)) : gset Z)).

(** The number of samples of class [c] among the labels [ys]. *)
Definition class_count (c : Z) (ys : list Z) : nat :=
  length (filter (λ y, y = c) ys).

Lemma class_count_snoc c ys y :
  class_count c (ys ++ [y])
  = (class_count c ys + if decide (y = c) then 1 else 0)%nat.
Proof.
  unfold class_count. rewrite filter_app, length_app. f_equal.
  rewrite filter_cons, filter_nil. by destruct (decide (y = c)).
Qed.

Lemma class_count_elem_of c ys : c ∈ ys ↔ (0 < class_count c ys)%nat.
Proof.
  unfold class_count. split.
  - intros Hin. assert (Hf : c ∈ filter (λ y, y = c) ys)
      by (by apply list_elem_of_filter).
    destruct (filter (λ y, y = c) ys); [by inversion Hf | simpl; lia].
  - intros Hpos. destruct (filter (λ y, y = c) ys) as [|y l] eqn:Hf;
      [simpl in Hpos; lia|].
    assert (Hy : y ∈ filter (λ y, y = c) ys) by (rewrite Hf; by left).
    apply list_elem_of_filter in Hy as [-> Hy]. done.
Qed.

Lemma class_count_filter_ne c c' ys :
  c' ≠ c → class_count c' (filter (λ y, y ≠ c) ys) = class_count c' ys.
Proof.
  intros Hne. unfold class_count. induction ys as [|y ys IH]; [done|].
  rewrite !filter_cons. destruct (decide (y ≠ c)) as [Hy|Hy].
  - rewrite filter_cons. destruct (decide (y = c')); simpl; by rewrite IH.
  - apply dec_stable in Hy. subst y.
    rewrite decide_False by done. exact IH.
Qed.

Lemma length_filter_class c (ys : list Z) :
  length ys = (class_count c ys + length (filter (λ y, y ≠ c) ys))%nat.
Proof.
  unfold class_count. induction ys as [|y ys IH]; [done|].
  rewrite !filter_cons. destruct (decide (y = c)) as [->|Hy].
  - rewrite decide_False by (intros H; by apply H). simpl. lia.
  - rewrite decide_True by done. simpl. lia.
Qed.

(** A list in which each of the classes [cs] occurs [k] times, and nothing
    else occurs, has [k] times the number of classes elements. *)
Lemma length_by_classes (cs : list Z) : ∀ (ys : list Z) (k : nat),
  NoDup cs →
  (∀ y, y ∈ ys → y ∈ cs) →
  (∀ c, c ∈ cs → class_count c ys = k) →
  length ys = (k * length cs)%nat.
Proof.
  induction cs as [|c cs IH]; intros ys k Hnd Hin Hcount.
  - destruct ys as [|y ys]; [simpl; lia|].
    specialize (Hin y (list_elem_of_here _ _)). by inversion Hin.
  - apply NoDup_cons in Hnd as [Hc Hnd].
    rewrite (length_filter_class c ys), (Hcount c) by by left.
    rewrite (IH (filter (λ y, y ≠ c) ys) k Hnd); [simpl; lia | |].
    + intros y Hy. apply list_elem_of_filter in Hy as [Hne Hy].
      specialize (Hin y Hy). apply elem_of_cons in Hin as [?|?]; done.
    + intros c' Hc'. rewrite class_count_filter_ne by (by intros ->).
      apply Hcount. by right.
Qed.

Section SampleBatchProofs.
Variable Sample : Type.
Variable Tensor : Type.
Variable stack : list Sample → Tensor.
Variable add_noise : Tensor → Tensor.
Variable num_shapelets_per_class num_shapelets : Z.

#[local] Abbreviation step := (sample_step Sample Tensor stack add_noise
  num_shapelets_per_class num_shapelets).
#[local] Abbreviation samples := (for_samples Sample Tensor stack add_noise
  num_shapelets_per_class num_shapelets).
#[local] Abbreviation batches_loop := (for_batches Sample Tensor stack
  add_noise num_shapelets_per_class num_shapelets).

(** What the state means, given the pairs visited so far: [ys] are the
    class labels of the collected samples, in order. *)
Definition labelled (visited : list (Sample * Z)) (st : sample_state Sample)
    (ys : list Z) : Prop :=
  length ys = length (batch_elems st) ∧
  (∀ c, default 0 (y_seen st !! c) = Z.of_nat (class_count c ys)) ∧
  (∀ c, c ∈ ys → Z.of_nat (class_count c ys) ≤ num_shapelets_per_class) ∧
  (∀ i x y, batch_elems st !! i = Some x → ys !! i = Some y →
            (x, y) ∈ visited) ∧
  dom (y_seen st) = list_to_set (visited.*2) ∧
  (0 ≤ num_shapelets_per_class → ∀ c,
     Z.of_nat (class_count c ys)
     = Z.min num_shapelets_per_class (Z.of_nat (class_count c visited.*2))).

(** The state line 52-54 leave behind, before the test of line 55. *)
Definition stepped (st : sample_state Sample) (Xi : Sample) (yi : Z)
  : sample_state Sample :=
  let count := default 0 (y_seen st !! yi) in
  if count <? num_shapelets_per_class
  then {| batch_elems := batch_elems st ++ [Xi];
          y_seen := <[yi := count + 1]> (<[yi := count]> (y_seen st)) |}
  else {| batch_elems := batch_elems st;
          y_seen := <[yi := count]> (y_seen st) |}.

Lemma sample_step_stepped st Xi yi :
  step st Xi yi =
    if Z.of_nat (length (batch_elems (stepped st Xi yi))) =? num_shapelets
    then Return (add_noise (stack (batch_elems (stepped st Xi yi))))
    else Continue (stepped st Xi yi).
Proof.
  unfold sample_step, stepped.
  by destruct (default 0 (y_seen st !! yi) <? num_shapelets_per_class).
Qed.

Lemma stepped_labelled visited st ys Xi yi :
  labelled visited st ys →
  ∃ ys', labelled (visited ++ [(Xi, yi)]) (stepped st Xi yi) ys'.
Proof.
  intros (Hlen & Hseen & Hbound & Hfrom & Hdom & Hmin).
  unfold stepped. pose proof (Hseen yi) as Hyi.
  set (count := default 0 (y_seen st !! yi)) in *.
  assert (Hdom' : ∀ v : Z, dom (<[yi := v]> (y_seen st))
                    = list_to_set ((visited ++ [(Xi, yi)]).*2)).
  { intros v. rewrite dom_insert_L, Hdom, fmap_app, list_to_set_app_L.
    change ([(Xi, yi)].*2) with [yi]. apply set_eq. intros c.
    rewrite !elem_of_union, !elem_of_list_to_set, list_elem_of_singleton.
    rewrite elem_of_singleton. tauto. }
  assert (Hvis : ∀ c, class_count c (visited ++ [(Xi, yi)]).*2
                 = (class_count c visited.*2
                    + if decide (yi = c) then 1 else 0)%nat).
  { intros c. rewrite fmap_app. change ([(Xi, yi)].*2) with [yi].
    apply class_count_snoc. }
  destruct (Z.ltb_spec count num_shapelets_per_class) as [Hlt|Hge].
  - exists (ys ++ [yi]). unfold labelled. cbn [batch_elems y_seen].
    split; [rewrite !length_app; simpl; lia|].
    split; [|split; [|split; [|split]]].
    + intros c. rewrite class_count_snoc.
      destruct (decide (yi = c)) as [->|Hne].
      * rewrite lookup_insert_eq. simpl. lia.
      * rewrite !lookup_insert_ne by done. rewrite Hseen. lia.
    + intros c Hc. rewrite class_count_snoc.
      destruct (decide (yi = c)) as [->|Hne]; [lia|].
      apply elem_of_app in Hc as [Hc|Hc].
      * specialize (Hbound c Hc). lia.
      * apply list_elem_of_singleton in Hc. congruence.
    + intros i x y Hx Hy.
      destruct (decide (i < length (batch_elems st))%nat) as [Hi|Hi].
      * rewrite lookup_app_l in Hx by done.
        rewrite lookup_app_l in Hy by lia.
        apply elem_of_app. left. by eapply Hfrom.
      * rewrite lookup_app_r in Hx by lia.
        rewrite lookup_app_r in Hy by lia. rewrite Hlen in Hy.
        destruct (i - length (batch_elems st))%nat; [|done].
        simpl in Hx, Hy. inversion Hx; inversion Hy; subst.
        apply elem_of_app. right. by left.
    + rewrite insert_insert_eq. apply Hdom'.
    + intros Hnn c. rewrite Hvis, class_count_snoc.
      specialize (Hmin Hnn c).
      destruct (decide (yi = c)) as [->|Hne]; lia.
  - exists ys. unfold labelled. cbn [batch_elems y_seen].
    split; [done|]. split; [|split; [done|split; [|split]]].
    + intros c. destruct (decide (yi = c)) as [->|Hne].
      * by rewrite lookup_insert_eq.
      * by rewrite lookup_insert_ne.
    + intros i x y Hx Hy. apply elem_of_app. left. by eapply Hfrom.
    + apply Hdom'.
    + intros Hnn c. rewrite Hvis. specialize (Hmin Hnn c).
      destruct (decide (yi = c)) as [->|Hne]; lia.
Qed.

(** The outcome of visiting pairs: [upto] are all pairs visited when the
    loop falls through; a batch is returned at the pair that completes
    it. *)
Definition good_outcome (upto : list (Sample * Z))
    (c : control Tensor (sample_state Sample)) : Prop :=
  match c with
  | Continue st' =>
      ∃ ys', labelled upto st' ys' ∧
             (upto ≠ [] → Z.of_nat (length (batch_elems st')) ≠ num_shapelets)
  | Return out =>
      ∃ visited rest st' ys',
        upto = visited ++ rest ∧ labelled visited st' ys' ∧
        out = add_noise (stack (batch_elems st')) ∧
        Z.of_nat (length (batch_elems st')) = num_shapelets
  end.

Lemma for_samples_outcome pairs : ∀ visited st ys,
  labelled visited st ys →
  (visited ≠ [] → Z.of_nat (length (batch_elems st)) ≠ num_shapelets) →
  good_outcome (visited ++ pairs) (samples pairs st).
Proof.
  induction pairs as [|[Xi yi] pairs IH]; intros visited st ys Hl Hne.
  - simpl. rewrite app_nil_r. by exists ys.
  - cbn [for_samples]. rewrite sample_step_stepped.
    destruct (stepped_labelled visited st ys Xi yi Hl) as [ys' Hl'].
    destruct (Z.eqb_spec (Z.of_nat (length (batch_elems (stepped st Xi yi))))
                num_shapelets) as [Heq|Hneq].
    + exists (visited ++ [(Xi, yi)]), pairs, (stepped st Xi yi), ys'.
      split; [by rewrite <- app_assoc|]. done.
    + specialize (IH (visited ++ [(Xi, yi)]) (stepped st Xi yi) ys' Hl'
                     (λ _, Hneq)).
      by rewrite <- app_assoc in IH.
Qed.

Lemma for_samples_app pairs1 pairs2 st :
  samples (pairs1 ++ pairs2) st =
    match samples pairs1 st with
    | Return out => Return out
    | Continue st' => samples pairs2 st'
    end.
Proof.
  revert st. induction pairs1 as [|[Xi yi] pairs1 IH]; intros st; [done|].
  cbn [app for_samples]. by destruct (step st Xi yi).
Qed.

Lemma for_batches_pairs batches st :
  batches_loop batches st = samples (pairs_of batches) st.
Proof.
  revert st. induction batches as [|[X y] batches IH]; intros st; [done|].
  cbn [for_batches]. unfold pairs_of. rewrite fmap_cons, concat_cons.
  rewrite for_samples_app. cbn [fst snd].
  destruct (samples (zip X y) st); [apply IH | done].
Qed.

Variable dataloader : nat → list (list Sample * list Z).

#[local] Abbreviation passes := (after_passes Sample Tensor stack add_noise
  dataloader num_shapelets_per_class num_shapelets).

(** The pairs visited by the first [n] passes. *)
Definition pairs_upto (n : nat) : list (Sample * Z) :=
  concat ((λ p, pairs_of (dataloader p)) <$> seq 0 n).

Lemma pairs_upto_S n :
  pairs_upto (S n) = pairs_upto n ++ pairs_of (dataloader n).
Proof.
  unfold pairs_upto. rewrite seq_S, fmap_app, concat_app. simpl.
  by rewrite app_nil_r.
Qed.

Lemma pairs_upto_labels n :
  (pairs_upto n).*2 = concat ((λ p, labels_of (dataloader p)) <$> seq 0 n).
Proof.
  induction n as [|n IH]; [done|].
  rewrite pairs_upto_S, fmap_app, IH, seq_S, fmap_app, concat_app. simpl.
  by rewrite app_nil_r.
Qed.

Lemma after_passes_samples n :
  passes n = samples (pairs_upto n) {| batch_elems := []; y_seen := ∅ |}.
Proof.
  induction n as [|n IH]; [done|].
  cbn [after_passes]. rewrite IH, pairs_upto_S, for_samples_app.
  destruct (samples (pairs_upto n) _); [|done]. apply for_batches_pairs.
Qed.

Lemma initial_labelled :
  labelled [] {| batch_elems := []; y_seen := ∅ |} [].
Proof.
  split; [done|]. split; [intros c; cbn [y_seen]; by rewrite lookup_empty|].
  split; [by intros c Hc; inversion Hc|].
  split; [by intros i x y Hx; inversion Hx|].
  split; [cbn [y_seen]; by rewrite dom_empty_L|]. intros Hnn c.
  unfold class_count. rewrite fmap_nil, filter_nil. simpl. lia.
Qed.

Lemma after_passes_outcome n : good_outcome (pairs_upto n) (passes n).
Proof.
  rewrite after_passes_samples.
  apply (for_samples_outcome (pairs_upto n) [] _ [] initial_labelled).
  done.
Qed.

(** After full passes the keys of [y_seen] are the class labels seen. *)
Lemma after_passes_classes n st :
  passes n = Continue st →
  Z.of_nat (size (y_seen st)) = distinct_labels dataloader n.
Proof.
  intros Hp. pose proof (after_passes_outcome n) as Hout.
  rewrite Hp in Hout. destruct Hout as (ys & Hl & _).
  destruct Hl as (_ & _ & _ & _ & Hdom & _).
  unfold distinct_labels. rewrite <- pairs_upto_labels, <- Hdom.
  by rewrite size_dom.
Qed.

Lemma after_passes_prefix n m st :
  (m ≤ n)%nat → passes n = Continue st → ∃ st', passes m = Continue st'.
Proof.
  intros Hle. revert st. induction Hle as [|n Hle IH]; intros st Hp.
  - by exists st.
  - cbn [after_passes] in Hp.
    destruct (passes n) as [st'|] eqn:Hn; [by eapply IH | done].
Qed.

#[local] Abbreviation run := (while_true Sample Tensor stack add_noise).

(** The loop ends in the first pass that completes the batch or fails the
    test of line 60, and with what. *)
Lemma while_true_spec fuel : ∀ pass st r,
  passes pass = Continue st →
  run fuel dataloader pass num_shapelets_per_class num_shapelets st = Some r ↔
  ∃ p, (pass ≤ p < pass + fuel)%nat ∧
       (∀ q, (pass ≤ q < p)%nat →
             distinct_labels dataloader (S q) * num_shapelets_per_class
             = num_shapelets ∧ ∃ st', passes (S q) = Continue st') ∧
       match passes (S p) with
       | Return out => r = Ok out
       | Continue _ =>
           distinct_labels dataloader (S p) * num_shapelets_per_class
           ≠ num_shapelets ∧ r = Raise RuntimeError
       end.
Proof.
  induction fuel as [|fuel IH]; intros pass st r Hpass.
  - simpl. split; [done|]. intros (p & Hp & _). lia.
  - cbn [while_true].
    assert (Hnext : passes (S pass) = batches_loop (dataloader pass) st)
      by (cbn [after_passes]; by rewrite Hpass).
    rewrite <- Hnext.
    destruct (passes (S pass)) as [st'|out] eqn:Hs.
    + rewrite (after_passes_classes (S pass) st' Hs).
      destruct (Z.eqb_spec (distinct_labels dataloader (S pass)
                            * num_shapelets_per_class) num_shapelets)
        as [Heq|Hneq]; cbn [negb].
      * rewrite (IH (S pass) st' r Hs). split.
        -- intros (p & Hp & Hq & Hr). exists p. split; [lia|].
           split; [|done]. intros q Hqr.
           destruct (decide (q = pass)) as [->|Hne]; [by eauto|].
           apply Hq. lia.
        -- intros (p & Hp & Hq & Hr).
           destruct (decide (p = pass)) as [->|Hne].
           { rewrite Hs in Hr. by destruct Hr. }
           exists p. split; [lia|]. split; [|done].
           intros q Hqr. apply Hq. lia.
      * split.
        -- intros [= <-]. exists pass. split; [lia|].
           split; [intros q Hq; lia|]. by rewrite Hs.
        -- intros (p & Hp & Hq & Hr).
           destruct (decide (p = pass)) as [->|Hne].
           { rewrite Hs in Hr. by destruct Hr as [_ ->]. }
           destruct (Hq pass) as [Hc _]; [lia | done].
    + split.
      * intros [= <-]. exists pass. split; [lia|].
        split; [intros q Hq; lia|]. by rewrite Hs.
      * intros (p & Hp & Hq & Hr).
        destruct (decide (p = pass)) as [->|Hne].
        { rewrite Hs in Hr. by rewrite Hr. }
        destruct (Hq pass) as [_ [st' Hc]]; [lia|]. congruence.
Qed.

Lemma elem_of_pairs_upto n xy :
  xy ∈ pairs_upto n → ∃ p, xy ∈ pairs_of (dataloader p).
Proof.
  induction n as [|n IH]; [by intros Hin; inversion Hin|].
  rewrite pairs_upto_S. intros Hin.
  apply elem_of_app in Hin as [Hin|Hin]; [by apply IH | by exists n].
Qed.


End SampleBatchProofs.

(** Two classes, two samples wanted of each.  A loader with two samples of
    each class gives the batch in the first pass; with a single sample of
    class 1 the loader is passed over twice and that sample is taken
    twice; with a third class the explicit error is raised. *)
Definition demo_loader (labels : list Z) (pass : nat)
  : list (list Z * list Z) :=
  [(seqZ 100 (Z.of_nat (length labels)), labels)].

Example get_sample_batch_examples :
  _get_sample_batch Z (list Z) id id 5 (demo_loader [0; 1; 0; 0; 1]) 2 4
  = Some (Ok [100; 101; 102; 104]) ∧
  _get_sample_batch Z (list Z) id id 5 (demo_loader [0; 1; 0; 0]) 2 4
  = Some (Ok [100; 101; 102; 101]) ∧
  _get_sample_batch Z (list Z) id id 5 (demo_loader [0; 1; 2]) 2 4
  = Some (Raise RuntimeError) ∧
  _get_sample_batch Z (list Z) id id 5 (demo_loader []) 0 0 = None.
Proof. vm_compute. by repeat split. Qed.

(** *** [_get_discrepancy_fn] and the configuration of [main],
    common.py lines 107-138 and 325-394 *)

(** [sub in s] *)
Fixpoint contains (sub s : string) : bool :=
  String.prefix sub s ||
  match s with
  | String _ s' => contains sub s'
  | EmptyString => false
  end.

(** [s.split(sep)] for a separator of one character. *)
Fixpoint split_on (sep : ascii) (s : string) : list string :=
  match s with
  | EmptyString => [EmptyString]
  | String c s' =>
      let parts := split_on sep s' in
      if Ascii.eqb c sep then EmptyString :: parts
      else match parts with
           | part :: parts' => String c part :: parts'
           | [] => [String c EmptyString]
           end
  end.

(** What [_get_discrepancy_fn] returns: an object of the shapelet library,
    one of the two functions defined in place (the piecewise-constant
    squared L2 discrepancy [((path - shapelet) ** 2).sum(dim=(-1, -2))] and
    dynamic time warping), or the string it was given when no branch
    applies. *)
Inductive discrepancy :=
| L2Discrepancy (in_channels : Z) (pseudometric : bool)
| L2DiscrepancySquared (in_channels : Z) (pseudometric : bool)
| PiecewiseConstantL2Squared
| DynamicTimeWarping
| LogsignatureDiscrepancy (in_channels depth : Z) (pseudometric : bool)
| NotResolved (name : string).

Definition _get_discrepancy_fn (discrepancy_fn : string) (input_channels : Z)
    (ablation_pseudometric : bool) : result discrepancy :=
  if String.eqb discrepancy_fn "L2" then
    Ok (L2Discrepancy input_channels ablation_pseudometric)
  else if String.eqb discrepancy_fn "L2_squared" then
    Ok (L2DiscrepancySquared input_channels ablation_pseudometric)
  else if String.eqb discrepancy_fn "piecewise_constant_L2_squared" then
    Ok PiecewiseConstantL2Squared
  else if String.eqb discrepancy_fn "DTW" then
    Ok DynamicTimeWarping
  else if contains "logsig" discrepancy_fn then
    match split_on "-" discrepancy_fn with
    | [name; depth] =>
        if String.eqb name "logsig" then
          depth ← int_of_str depth;
          Ok (LogsignatureDiscrepancy input_channels depth
                ablation_pseudometric)
        else Raise AssertionError
    | _ => Raise AssertionError
    end
  else Ok (NotResolved discrepancy_fn).

(** The [lengths] tensor of the shapelet transform: its entries, whether it
    is registered as a parameter (and so handed to the optimizer by
    [model.parameters()]) or as a buffer, and its [requires_grad] flag. *)
Inductive registration := AsParameter | AsBuffer.

Record lengths_tensor := mkLengths {
  entries : list (list Q);
  registered : registration;
  requires_grad : bool
}.

(** What [main] has fixed when training starts. *)
Record setup := mkSetup {
  setup_discrepancy_name : string;
  setup_discrepancy_fn : discrepancy;
  setup_max_shapelet_length_proportion : Q;
  setup_max_shapelet_length : Q;
  setup_num_shapelet_samples : Z;
  setup_num_continuous_samples : Z;
  setup_ablation_pseudometric : bool;
  setup_ablation_learntlengths : bool;
  setup_ablation_similarreg : bool;
  setup_log : bool;
  setup_num_shapelets : Z;
  setup_out_channels : Z;
  setup_lengths : lengths_tensor
}.

(** [torch.full_like(t, v)] on a matrix. *)
Definition full_like (t : list (list Q)) (v : Q) : list (list Q) :=
  (λ row : list Q, (λ _ : Q, v) <$> row) <$> t.

Section MainSetup.

(** [min((10 / timespan).sqrt(), 1)] of line 359; the entries the
    constructor of the shapelet transform gives [lengths], from the number
    of shapelets, the lengths per shapelet and the maximum length; and what
    [set_shapelets] (line 391) makes of the [lengths] tensor. *)
Variable default_proportion : Q → Q.
Variable initial_lengths : Z → Z → Q → list (list Q).
Variable set_shapelets : lengths_tensor → lengths_tensor.

(** Lines 345-394 of [main]. *)
Definition main_setup (times : list Q) (num_classes input_channels : Z)
    (num_shapelets_per_class : Z) (num_shapelet_samples : option Z)
    (discrepancy_fn : string) (max_shapelet_length_proportion : option Q)
    (lengths_per_shapelet : Z) (num_continuous_samples : option Z)
    (ablation_pseudometric ablation_learntlengths ablation_similarreg : bool)
    (old_shapelets : bool) : result setup :=
  let discrepancy_fn :=
    if old_shapelets then "piecewise_constant_L2_squared"
    else discrepancy_fn in
  let max_shapelet_length_proportion :=
    if old_shapelets then Some 0.3%Q else max_shapelet_length_proportion in
  let ablation_pseudometric :=
    if old_shapelets then false else ablation_pseudometric in
  let ablation_learntlengths :=
    if old_shapelets then false else ablation_learntlengths in
  let ablation_similarreg :=
    if old_shapelets then false else ablation_similarreg in
  let num_continuous_samples :=
    if old_shapelets then None else num_continuous_samples in
  let log := if old_shapelets then false else true in
  last_time ← getitem times (-1);
  first_time ← getitem times 0;
  let timespan := (last_time - first_time)%Q in
  let max_shapelet_length_proportion :=
    match max_shapelet_length_proportion with
    | None => default_proportion timespan
    | Some proportion => proportion
    end in
  let max_shapelet_length := (timespan * max_shapelet_length_proportion)%Q in
  let num_shapelet_samples :=
    match num_shapelet_samples with
    | None => int_of_float (max_shapelet_length_proportion
                            * inject_Z (Z.of_nat (length times)))
    | Some n => n
    end in
  let num_continuous_samples :=
    match num_continuous_samples with
    | None => Z.of_nat (length times)
    | Some n => n
    end in
  discrepancy ←
    _get_discrepancy_fn discrepancy_fn input_channels ablation_pseudometric;
  let num_shapelets := num_shapelets_per_class * num_classes in
  let out_channels := if num_classes =? 2 then 1 else num_classes in
  let model_lengths :=
    {| entries := initial_lengths num_shapelets lengths_per_shapelet
                    max_shapelet_length;
       registered := AsParameter; requires_grad := true |} in
  let model_lengths :=
    if old_shapelets
    then {| entries := full_like (entries model_lengths) max_shapelet_length;
            registered := AsBuffer; requires_grad := false |}
    else model_lengths in
  let model_lengths := set_shapelets model_lengths in
  let model_lengths :=
    if negb ablation_learntlengths
    then {| entries := entries model_lengths;
            registered := registered model_lengths;
            requires_grad := false |}
    else model_lengths in
  Ok {| setup_discrepancy_name := discrepancy_fn;
        setup_discrepancy_fn := discrepancy;
        setup_max_shapelet_length_proportion := max_shapelet_length_proportion;
        setup_max_shapelet_length := max_shapelet_length;
        setup_num_shapelet_samples := num_shapelet_samples;
        setup_num_continuous_samples := num_continuous_samples;
        setup_ablation_pseudometric := ablation_pseudometric;
        setup_ablation_learntlengths := ablation_learntlengths;
        setup_ablation_similarreg := ablation_similarreg;
        setup_log := log;
        setup_num_shapelets := num_shapelets;
        setup_out_channels := out_channels;
        setup_lengths := model_lengths |}.

End MainSetup.

Lemma full_like_entries t v row x : row ∈ full_like t v → x ∈ row → x = v.
Proof.
  unfold full_like. intros Hrow Hx.
  apply list_elem_of_fmap in Hrow as (row' & -> & _).
  by apply list_elem_of_fmap in Hx as (? & -> & _).
Qed.

Lemma getitem_ends (times : list Q) :
  times ≠ [] →
  ∃ last_time first_time,
    getitem times (-1) = Ok last_time ∧ getitem times 0 = Ok first_time.
Proof.
  intros Hne. destruct times as [|t0 times']; [done|].
  destruct (getitem_last (t0 :: times') Hne) as (x & _ & Hx).
  exists x, t0. split; [done|]. unfold getitem. cbn [length].
  destruct (Z.ltb_spec 0 (Z.of_nat (S (length times')))); [done | lia].
Qed.

Section MainSetupProofs.
Variable default_proportion : Q → Q.
Variable initial_lengths : Z → Z → Q → list (list Q).
Variable set_shapelets : lengths_tensor → lengths_tensor.


End MainSetupProofs.


(** *** [save_results]: a record that lacks an entry, and the other
    folders *)

(** The four entries [save_results] deletes or reads, in the order of
    lines 315-318. *)
Definition record_keys : list string :=
  ["train_dataloader"; "val_dataloader"; "test_dataloader"; "model"].

Section SaveResultsErrors.
Variable json_dump : gmap string pyval → string.
Variable py_str : pyval → string.

(** A record that lacks one of the four entries makes [save_results] stop
    with a [KeyError] for the first entry that is missing, in the order
    [train_dataloader], [val_dataloader], [test_dataloader], [model]. *)
Theorem save_results_missing_key folder sub results w d key :
  heap w !! results = Some d →
  head (filter (λ k, d !! k = None) record_keys) = Some key →
  save_results json_dump py_str folder sub results w = Raise (KeyError key).
Proof.
  intros Hd Hkey. unfold save_results, dict_copy. rewrite Hd.
  cbn [mbind result_bind]. cbn zeta.
  unfold record_keys in Hkey. rewrite !filter_cons, filter_nil in Hkey.
  unfold dict_del at 3. rewrite lookup_insert_eq.
  destruct (d !! "train_dataloader") as [tl|] eqn:Htl.
  2:{ rewrite decide_True in Hkey by done. by injection Hkey as <-. }
  rewrite decide_False in Hkey by done. cbn [mbind result_bind].
  unfold dict_del at 2. rewrite lookup_insert_eq, insert_insert_eq.
  rewrite lookup_delete_ne by done.
  destruct (d !! "val_dataloader") as [vl|] eqn:Hvl.
  2:{ rewrite decide_True in Hkey by done. by injection Hkey as <-. }
  rewrite decide_False in Hkey by done. cbn [mbind result_bind].
  unfold dict_del. rewrite lookup_insert_eq, insert_insert_eq.
  rewrite !lookup_delete_ne by done.
  destruct (d !! "test_dataloader") as [tsl|] eqn:Htsl.
  2:{ rewrite decide_True in Hkey by done. by injection Hkey as <-. }
  rewrite decide_False in Hkey by done. cbn [mbind result_bind].
  unfold dict_get. rewrite lookup_insert_eq, !lookup_delete_ne by done.
  destruct (d !! "model") as [m|] eqn:Hm.
  2:{ rewrite decide_True in Hkey by done. by injection Hkey as <-. }
  rewrite decide_False in Hkey by done. done.
Qed.


End SaveResultsErrors.

(** A record without validation loader and without model: the error names
    the validation loader. *)
Lemma save_results_missing_key_witness :
  save_results demo_json demo_str "uea" "ERing-L2" 1%positive
    (mkWorld {[ 1%positive := delete "model"
                                (delete "val_dataloader" demo_record) ]} ∅)
  = Raise (KeyError "val_dataloader").
Proof.
  apply (save_results_missing_key demo_json demo_str "uea" "ERing-L2"
           1%positive _ (delete "model" (delete "val_dataloader" demo_record))).
  - reflexivity.
  - by vm_compute.
Defined.


(** *** [_get_discrepancy_fn]: the names it reads as a logsignature
    discrepancy, and the failures of the configuration of [main] *)

(** The characters of a string. *)
Definition chars (s : string) : list ascii := list_ascii_of_string s.

Lemma append_nil s : "" +:+ s = s.
Proof. reflexivity. Qed.

Lemma append_cons c s1 s2 : String c s1 +:+ s2 = String c (s1 +:+ s2).
Proof. reflexivity. Qed.

Lemma split_on_no_sep sep s : sep ∉ chars s → split_on sep s = [s].
Proof.
  induction s as [|c s IH]; [done|]. intros Hsep. cbn [split_on].
  destruct (Ascii.eqb_spec c sep) as [->|Hne].
  - exfalso. apply Hsep. by left.
  - rewrite IH; [done|]. intros Hin. apply Hsep. by right.
Qed.

Lemma split_on_app sep s1 s2 :
  sep ∉ chars s1 →
  split_on sep (s1 +:+ String sep s2) = s1 :: split_on sep s2.
Proof.
  induction s1 as [|c s1 IH]; intros Hsep.
  - rewrite append_nil. cbn [split_on]. by rewrite Ascii.eqb_refl.
  - rewrite append_cons. cbn [split_on].
    destruct (Ascii.eqb_spec c sep) as [->|Hne].
    + exfalso. apply Hsep. by left.
    + rewrite IH; [done|]. intros Hin. apply Hsep. by right.
Qed.

Lemma split_on_not_nil sep s : split_on sep s ≠ [].
Proof.
  destruct s as [|c s]; [done|]. cbn [split_on].
  destruct (Ascii.eqb c sep); [done|]. by destruct (split_on sep s).
Qed.

Lemma split_on_one sep s b :
  split_on sep s = [b] → s = b ∧ sep ∉ chars b.
Proof.
  revert b. induction s as [|c s IH]; intros b; cbn [split_on].
  - intros [= <-]. split; [done|]. intros H. inversion H.
  - destruct (Ascii.eqb_spec c sep) as [->|Hne].
    + intros [= _ Hs]. by destruct (split_on_not_nil _ _ Hs).
    + destruct (split_on sep s) as [|part [|? ?]] eqn:Hp;
        [by destruct (split_on_not_nil _ _ Hp)| |done].
      intros [= <-]. destruct (IH part eq_refl) as [-> Hpart].
      split; [done|]. intros Hin.
      apply elem_of_cons in Hin as [->|Hin]; done.
Qed.

(** A string that splits in two at [sep] is its two parts around one
    occurrence of [sep]. *)
Lemma split_on_two sep s a b :
  split_on sep s = [a; b] →
  s = a +:+ String sep b ∧ (sep ∉ chars a) ∧ (sep ∉ chars b).
Proof.
  revert a. induction s as [|c s IH]; intros a; [done|]. cbn [split_on].
  destruct (Ascii.eqb_spec c sep) as [->|Hne].
  - intros [= <- Hs]. apply split_on_one in Hs as [-> Hb].
    split; [done|]. split; [|done]. intros H. inversion H.
  - destruct (split_on sep s) as [|part parts] eqn:Hp.
    + by destruct (split_on_not_nil sep s).
    + intros [= <- ->]. destruct (IH part eq_refl) as (-> & Ha & Hb).
      split; [by rewrite append_cons|]. split; [|done].
      intros Hin. apply elem_of_cons in Hin as [->|Hin]; done.
Qed.

Lemma chars_str_of_nonneg d :
  0 ≤ d → ascii_of_N 45 ∉ chars (string_of_list_ascii (str_of_nonneg d)).
Proof.
  intros Hd. unfold chars. rewrite list_ascii_of_string_of_list_ascii.
  destruct (str_of_nonneg_spec d Hd) as (_ & Hds & _).
  intros Hin. rewrite Forall_forall in Hds. by apply Hds in Hin as [? ?].
Qed.

(** What the tests of lines 108-132 make of a name that starts with
    ['logsig-']. *)
Lemma logsig_name text (input_channels : Z) (pseudometric : bool) :
  (if String.eqb ("logsig-" +:+ text) "L2" then
     Ok (L2Discrepancy input_channels pseudometric)
   else if String.eqb ("logsig-" +:+ text) "L2_squared" then
     Ok (L2DiscrepancySquared input_channels pseudometric)
   else if String.eqb ("logsig-" +:+ text) "piecewise_constant_L2_squared" then
     Ok PiecewiseConstantL2Squared
   else if String.eqb ("logsig-" +:+ text) "DTW" then
     Ok DynamicTimeWarping
   else if contains "logsig" ("logsig-" +:+ text) then
     match split_on "-" ("logsig-" +:+ text) with
     | [name; depth] =>
         if String.eqb name "logsig" then
           depth ← int_of_str depth;
           Ok (LogsignatureDiscrepancy input_channels depth pseudometric)
         else Raise AssertionError
     | _ => Raise AssertionError
     end
   else Ok (NotResolved ("logsig-" +:+ text)))
  = match split_on "-" text with
    | [depth] =>
        depth ← int_of_str depth;
        Ok (LogsignatureDiscrepancy input_channels depth pseudometric)
    | _ => Raise AssertionError
    end.
Proof.
  assert (Hsplit : split_on "-" ("logsig-" +:+ text)
                   = "logsig"%string :: split_on "-" text).
  { apply (split_on_app "-" "logsig" text). intros H.
    repeat (apply elem_of_cons in H as [H|H]; [discriminate H|]).
    inversion H. }
  rewrite Hsplit. rewrite !append_cons, append_nil.
  cbn [String.eqb Ascii.eqb Bool.eqb andb contains String.prefix orb].
  by destruct (split_on "-" text) as [|depth [|? ?]].
Qed.

(** The name [main] is given for a logsignature discrepancy of depth [d],
    ['logsig-' + str(d)], is read back as that depth when [d] is not
    negative; for a negative [d] the name has two hyphens and the first
    assertion fails. *)
Theorem get_discrepancy_fn_logsig (d input_channels : Z) (pseudometric : bool) :
  _get_discrepancy_fn ("logsig-" +:+ str_of_int d) input_channels pseudometric
  = if d <? 0 then Raise AssertionError
    else Ok (LogsignatureDiscrepancy input_channels d pseudometric).
Proof.
  unfold _get_discrepancy_fn. rewrite logsig_name.
  pose proof (int_of_str_of_int d) as Hint. unfold str_of_int in *.
  destruct (Z.ltb_spec d 0) as [Hneg|Hpos].
  - cbn [string_of_list_ascii split_on].
    change (Ascii.eqb (ascii_of_N 45) "-") with true. cbv iota.
    by destruct (split_on "-" _) eqn:Hs; [destruct (split_on_not_nil _ _ Hs)|].
  - rewrite split_on_no_sep by (by apply chars_str_of_nonneg).
    by rewrite Hint.
Qed.


(** *** [_get_sample_batch]: an empty loader, the end of the loop, and the
    classes of the batch *)

(** A list in which each of the classes [cs] occurs at most [k] times, and
    nothing else occurs, has at most [k] times the number of classes
    elements; when it has that many, each class occurs [k] times. *)
Lemma length_by_classes_le (cs : list Z) : ∀ (ys : list Z) (k : nat),
  NoDup cs →
  (∀ y, y ∈ ys → y ∈ cs) →
  (∀ c, c ∈ cs → (class_count c ys ≤ k)%nat) →
  (length ys ≤ k * length cs)%nat.
Proof.
  induction cs as [|c cs IH]; intros ys k Hnd Hin Hcount.
  - destruct ys as [|y ys]; [simpl; lia|].
    specialize (Hin y (list_elem_of_here _ _)). by inversion Hin.
  - apply NoDup_cons in Hnd as [Hc Hnd].
    rewrite (length_filter_class c ys).
    pose proof (Hcount c (list_elem_of_here _ _)) as Hck.
    assert (length (filter (λ y, y ≠ c) ys) ≤ k * length cs)%nat; [|simpl; lia].
    apply IH; [done | |].
    + intros y Hy. apply list_elem_of_filter in Hy as [Hne Hy].
      specialize (Hin y Hy). apply elem_of_cons in Hin as [?|?]; done.
    + intros c' Hc'. rewrite class_count_filter_ne by (by intros ->).
      apply Hcount. by right.
Qed.

Lemma length_by_classes_full (cs : list Z) : ∀ (ys : list Z) (k : nat),
  NoDup cs →
  (∀ y, y ∈ ys → y ∈ cs) →
  (∀ c, c ∈ cs → (class_count c ys ≤ k)%nat) →
  length ys = (k * length cs)%nat →
  ∀ c, c ∈ cs → class_count c ys = k.
Proof.
  induction cs as [|c cs IH]; intros ys k Hnd Hin Hcount Hlen c' Hc'.
  - inversion Hc'.
  - apply NoDup_cons in Hnd as [Hc Hnd].
    rewrite (length_filter_class c ys) in Hlen.
    pose proof (Hcount c (list_elem_of_here _ _)) as Hck.
    assert (Hin' : ∀ y, y ∈ filter (λ y, y ≠ c) ys → y ∈ cs).
    { intros y Hy. apply list_elem_of_filter in Hy as [Hne Hy].
      specialize (Hin y Hy). apply elem_of_cons in Hin as [?|?]; done. }
    assert (Hcount' : ∀ c', c' ∈ cs →
              (class_count c' (filter (λ y, y ≠ c) ys) ≤ k)%nat).
    { intros c'' Hc''. rewrite class_count_filter_ne by (by intros ->).
      apply Hcount. by right. }
    pose proof (length_by_classes_le cs _ k Hnd Hin' Hcount') as Hle.
    simpl in Hlen.
    apply elem_of_cons in Hc' as [->|Hc']; [lia|].
    rewrite <- (class_count_filter_ne c c' ys) by (by intros ->).
    apply (IH _ k Hnd Hin' Hcount'); [lia | done].
Qed.

Lemma class_count_app c ys1 ys2 :
  class_count c (ys1 ++ ys2) = (class_count c ys1 + class_count c ys2)%nat.
Proof. unfold class_count. by rewrite filter_app, length_app. Qed.

Lemma class_count_Permutation c ys1 ys2 :
  ys1 ≡ₚ ys2 → class_count c ys1 = class_count c ys2.
Proof. intros Hp. unfold class_count. by rewrite Hp. Qed.

Section SampleBatchRuns.
Variable Sample : Type.
Variable Tensor : Type.
Variable stack : list Sample → Tensor.
Variable add_noise : Tensor → Tensor.
Variable num_shapelets_per_class num_shapelets : Z.
Variable dataloader : nat → list (list Sample * list Z).

#[local] Abbreviation passes_of := (after_passes Sample Tensor stack add_noise
  dataloader num_shapelets_per_class num_shapelets).
#[local] Abbreviation get_sample_batch := (λ fuel,
  _get_sample_batch Sample Tensor stack add_noise fuel dataloader
    num_shapelets_per_class num_shapelets).

(** The loop goes on after pass number [p]: the pass was left without a
    batch and the test of line 60 found nothing wrong. *)
Definition goes_on (p : nat) : Prop :=
  (∃ st, passes_of (S p) = Continue st) ∧
  distinct_labels dataloader (S p) * num_shapelets_per_class = num_shapelets.

Lemma while_true_ends fuel : ∀ pass st,
  passes_of pass = Continue st →
  (∃ p, (pass ≤ p < pass + fuel)%nat ∧ ¬ goes_on p) →
  ∃ r, while_true Sample Tensor stack add_noise fuel dataloader pass
         num_shapelets_per_class num_shapelets st = Some r.
Proof.
  induction fuel as [|fuel IH]; intros pass st Hpass (p & Hp & Hstop); [lia|].
  cbn [while_true].
  assert (Hnext : passes_of (S pass)
                  = for_batches Sample Tensor stack add_noise
                      num_shapelets_per_class num_shapelets
                      (dataloader pass) st)
    by (cbn [after_passes]; by rewrite Hpass).
  rewrite <- Hnext. destruct (passes_of (S pass)) as [st'|out] eqn:Hs;
    [|by eexists].
  rewrite (after_passes_classes _ _ _ _ _ _ _ (S pass) st' Hs).
  destruct (Z.eqb_spec (distinct_labels dataloader (S pass)
                        * num_shapelets_per_class) num_shapelets)
    as [Heq|Hneq]; cbn [negb]; [|by eexists].
  apply (IH (S pass) st' Hs). exists p. split; [|done].
  destruct (decide (p = pass)) as [->|Hne]; [|lia].
  exfalso. apply Hstop. split; [by exists st' | done].
Qed.

(** The labels a class-balanced batch is made of, when [n] passes were
    left without a batch and every class seen has at least
    [num_shapelets_per_class] samples among those visited. *)
Lemma after_passes_full n st :
  0 ≤ num_shapelets_per_class →
  passes_of n = Continue st →
  (∀ c, c ∈ (pairs_upto Sample dataloader n).*2 →
        num_shapelets_per_class
        ≤ Z.of_nat (class_count c (pairs_upto Sample dataloader n).*2)) →
  Z.of_nat (length (batch_elems st))
  = num_shapelets_per_class * distinct_labels dataloader n.
Proof.
  intros Hnn Hpass Henough.
  pose proof (after_passes_outcome Sample Tensor stack add_noise
                num_shapelets_per_class num_shapelets dataloader n) as Hgood.
  rewrite Hpass in Hgood. destruct Hgood as (ys & Hl & _).
  destruct Hl as (Hlen & _ & _ & _ & _ & Hmin). specialize (Hmin Hnn).
  set (labels := (pairs_upto Sample dataloader n).*2) in *.
  set (classes := list_to_set labels : gset Z).
  assert (Hys : length ys = (Z.to_nat num_shapelets_per_class
                             * length (elements classes))%nat).
  { apply length_by_classes; [apply NoDup_elements | |].
    - intros y Hy. apply elem_of_elements, elem_of_list_to_set.
      apply class_count_elem_of. apply class_count_elem_of in Hy.
      specialize (Hmin y). lia.
    - intros c Hc. apply elem_of_elements, elem_of_list_to_set in Hc.
      specialize (Henough c Hc). specialize (Hmin c). lia. }
  unfold distinct_labels. rewrite <- pairs_upto_labels. fold labels.
  fold classes. rewrite <- Hlen, Hys. unfold size, set_size. simpl. lia.
Qed.

Lemma class_count_pairs_upto n c :
  (∀ p, labels_of (dataloader p) ≡ₚ labels_of (dataloader 0)) →
  class_count c (pairs_upto Sample dataloader n).*2
  = (n * class_count c (labels_of (dataloader 0)))%nat.
Proof.
  intros Hperm. induction n as [|n IH]; [done|].
  rewrite pairs_upto_S, fmap_app, class_count_app, IH.
  change ((pairs_of (dataloader n)).*2) with (labels_of (dataloader n)).
  rewrite (class_count_Permutation c _ _ (Hperm n)). lia.
Qed.

(** A loader that yields no sample.  When [num_shapelets] is not 0 the
    first pass ends with the [RuntimeError]; when it is 0 the test of line
    60 finds nothing wrong and the loop never ends. *)
Theorem get_sample_batch_empty_loader fuel :
  (∀ p, pairs_of (dataloader p) = []) →
  get_sample_batch fuel =
    if num_shapelets =? 0 then None
    else match fuel with
         | O => None
         | S _ => Some (Raise RuntimeError)
         end.
Proof.
  intros Hempty. unfold _get_sample_batch. generalize 0%nat as pass.
  induction fuel as [|fuel IH]; intros pass.
  - by destruct (num_shapelets =? 0).
  - cbn [while_true]. rewrite for_batches_pairs, Hempty. cbn [for_samples].
    cbn [y_seen]. rewrite map_size_empty, Z.mul_0_l.
    destruct (Z.eqb_spec 0 num_shapelets) as [<-|Hne]; cbn [negb].
    + rewrite IH. done.
    + by destruct (Z.eqb_spec num_shapelets 0) as [->|_].
Qed.

(** The loop ends.  For a loader that yields the same labels in every pass
    (in any order) and at least one sample, [_get_sample_batch] returns or
    raises within [max(1, num_shapelets_per_class)] passes. *)
Theorem get_sample_batch_ends fuel :
  0 ≤ num_shapelets_per_class →
  labels_of (dataloader 0) ≠ [] →
  (∀ p, labels_of (dataloader p) ≡ₚ labels_of (dataloader 0)) →
  (1 ≤ fuel)%nat → (Z.to_nat num_shapelets_per_class ≤ fuel)%nat →
  ∃ r, get_sample_batch fuel = Some r.
Proof.
  intros Hnn Hne Hperm Hfuel1 Hfuel. unfold _get_sample_batch.
  apply while_true_ends; [done|].
  set (N := (Nat.max 1 (Z.to_nat num_shapelets_per_class))).
  exists (N - 1)%nat. split; [lia|]. intros [[st Hpass] Htest].
  replace (S (N - 1)) with N in Hpass, Htest by lia.
  assert (Hlen : Z.of_nat (length (batch_elems st))
                 = num_shapelets_per_class * distinct_labels dataloader N).
  { apply after_passes_full; [done..|]. intros c Hc.
    rewrite class_count_pairs_upto by done.
    assert (Hc0 : c ∈ labels_of (dataloader 0)).
    { apply list_elem_of_fmap in Hc as ([x y] & -> & Hxy).
      apply elem_of_pairs_upto in Hxy as [p Hxy]. rewrite <- (Hperm p).
      unfold labels_of. apply list_elem_of_fmap. by exists (x, y). }
    apply class_count_elem_of in Hc0. nia. }
  pose proof (after_passes_outcome Sample Tensor stack add_noise
                num_shapelets_per_class num_shapelets dataloader N) as Hgood.
  rewrite Hpass in Hgood. destruct Hgood as (ys & _ & Hneq).
  apply Hneq; [|lia]. intros Hnil. apply Hne.
  assert (HN : N = S (N - 1)) by lia. rewrite HN in Hnil.
  clear -Hnil. induction (N - 1)%nat as [|n IH].
  - rewrite pairs_upto_S in Hnil. apply app_eq_nil in Hnil as [_ Hnil].
    unfold labels_of. by rewrite Hnil.
  - rewrite pairs_upto_S in Hnil. apply app_eq_nil in Hnil as [Hnil _].
    by apply IH.
Qed.

(** A class-balanced batch.  As [main] calls it, with [num_shapelets] the
    product of [num_shapelets_per_class] and [num_classes] (and not 0), and
    on a loader whose labels are among [0], ..., [num_classes - 1], a
    returned batch holds exactly [num_shapelets_per_class] samples of every
    class. *)
Theorem get_sample_batch_balanced fuel num_classes out :
  0 < num_shapelets →
  num_shapelets = num_shapelets_per_class * num_classes →
  (∀ p y, y ∈ labels_of (dataloader p) → 0 ≤ y < num_classes) →
  get_sample_batch fuel = Some (Ok out) →
  ∃ elems ys,
    out = add_noise (stack elems) ∧
    length ys = length elems ∧
    (∀ i x y, elems !! i = Some x → ys !! i = Some y →
              ∃ p, (x, y) ∈ pairs_of (dataloader p)) ∧
    ∀ c, 0 ≤ c < num_classes →
         Z.of_nat (class_count c ys) = num_shapelets_per_class.
Proof.
  intros Hsome Hns Hrange Hout. unfold _get_sample_batch in Hout.
  apply (while_true_spec _ _ _ _ _ _ _ _ 0%nat _ _ eq_refl) in Hout
    as (p & _ & _ & Hr).
  pose proof (after_passes_outcome Sample Tensor stack add_noise
                num_shapelets_per_class num_shapelets dataloader (S p))
    as Hgood.
  destruct (passes_of (S p)) as [st|out'] eqn:Hs; [by destruct Hr|].
  injection Hr as <-.
  destruct Hgood as (visited & rest & st' & ys & Hupto & Hl & -> & Hlen).
  destruct Hl as (Hlen' & _ & Hbound & Hfrom & _).
  assert (Hfrom' : ∀ i x y, batch_elems st' !! i = Some x → ys !! i = Some y →
                     ∃ p, (x, y) ∈ pairs_of (dataloader p)).
  { intros i x y Hx Hy. apply (elem_of_pairs_upto _ _ (S p)).
    rewrite Hupto. apply elem_of_app. left. by eapply Hfrom. }
  assert (Hys : ∀ y, y ∈ ys → 0 ≤ y < num_classes).
  { intros y Hy. apply list_elem_of_lookup in Hy as [i Hi].
    destruct (lookup_lt_is_Some_2 (batch_elems st') i) as [x Hx].
    { rewrite <- Hlen'. by eapply lookup_lt_Some. }
    destruct (Hfrom' i x y Hx Hi) as [q Hq]. apply (Hrange q).
    unfold labels_of. apply list_elem_of_fmap. by exists (x, y). }
  exists (batch_elems st'), ys. split; [done|]. split; [done|].
  split; [done|]. intros c Hc.
  assert (Hpos : 0 < num_shapelets_per_class).
  { destruct ys as [|y0 ys']; [simpl in Hlen'; lia|].
    assert (Hy0 : y0 ∈ y0 :: ys') by by left.
    pose proof (Hbound y0 Hy0). apply class_count_elem_of in Hy0. lia. }
  assert (Hfull : ∀ c, c ∈ seqZ 0 num_classes →
            class_count c ys = Z.to_nat num_shapelets_per_class).
  { apply length_by_classes_full.
    - apply NoDup_seqZ.
    - intros y Hy. apply elem_of_seqZ. specialize (Hys y Hy). lia.
    - intros c' Hc'. destruct (decide (c' ∈ ys)) as [Hin|Hnin].
      + specialize (Hbound c' Hin). lia.
      + assert (class_count c' ys = 0)%nat; [|lia].
        destruct (class_count c' ys) eqn:Hcount; [done|].
        exfalso. apply Hnin, class_count_elem_of. lia.
    - rewrite length_seqZ. nia. }
  rewrite Hfull by (apply elem_of_seqZ; lia). lia.
Qed.

End SampleBatchRuns.

Lemma get_sample_batch_empty_loader_witness :
  _get_sample_batch Z (list Z) id id 3 (λ _, []) 2 4
  = Some (Raise RuntimeError) ∧
  _get_sample_batch Z (list Z) id id 3 (λ _, []) 2 0 = None.
Proof.
  split.
  - apply (get_sample_batch_empty_loader Z (list Z) id id 2 4 (λ _, []) 3).
    reflexivity.
  - apply (get_sample_batch_empty_loader Z (list Z) id id 2 0 (λ _, []) 3).
    reflexivity.
Defined.

(** One sample of class 1 only: the loader is passed over twice. *)
Lemma get_sample_batch_ends_witness :
  ∃ r, _get_sample_batch Z (list Z) id id 2 (demo_loader [0; 1; 0; 0]) 2 4
       = Some r.
Proof.
  apply (get_sample_batch_ends Z (list Z) id id 2 4
           (demo_loader [0; 1; 0; 0]) 2).
  - lia.
  - discriminate.
  - reflexivity.
  - lia.
  - simpl. lia.
Defined.

Lemma get_sample_batch_balanced_witness :
  ∃ elems ys,
    [100; 101; 102; 104] = id (id elems) ∧
    length ys = length elems ∧
    (∀ i x y, elems !! i = Some x → ys !! i = Some y →
              ∃ p, (x, y) ∈ pairs_of (demo_loader [0; 1; 0; 0; 1] p)) ∧
    ∀ c, 0 ≤ c < 2 → Z.of_nat (class_count c ys) = 2.
Proof.
  apply (get_sample_batch_balanced Z (list Z) id id 2 4
           (demo_loader [0; 1; 0; 0; 1]) 5 2 [100; 101; 102; 104]).
  - lia.
  - reflexivity.
  - intros p y Hy. vm_compute in Hy.
    repeat (apply elem_of_cons in Hy as [->|Hy]; [lia|]). inversion Hy.
  - reflexivity.
Defined.

(** *** [_train_loop]: the epochs of the history, and when the loop is cut
    short *)

(** The test of line 240. *)
Definition metric_epoch (epochs e : Z) : bool :=
  (e mod epoch_per_metric =? 0) || (e =? epochs - 1).

Lemma filter_none {A} (P : A → Prop) `{∀ x, Decision (P x)} (l : list A) :
  (∀ x, x ∈ l → ¬ P x) → filter P l = [].
Proof.
  induction l as [|x l IH]; intros Hl; [done|].
  rewrite filter_cons, decide_False by (apply Hl; by left).
  apply IH. intros y Hy. apply Hl. by right.
Qed.

Lemma seqZ_one m : seqZ m 1 = [m].
Proof. reflexivity. Qed.

Lemma seqZ_snoc (n : nat) : seqZ 0 (Z.of_nat (S n)) = seqZ 0 (Z.of_nat n) ++ [Z.of_nat n].
Proof.
  replace (Z.of_nat (S n)) with (Z.of_nat n + 1) by lia.
  rewrite seqZ_app by lia. by rewrite Z.add_0_l, seqZ_one.
Qed.

(** The epoch [best_epoch] is 0 or the epoch of an entry. *)
Lemma plateau_of_epoch h :
  (plateau_of h).2 = 0 ∨ ∃ entry, entry ∈ h ∧ epoch entry = (plateau_of h).2.
Proof.
  induction h as [|entry h IH] using rev_ind; [by left|].
  rewrite plateau_of_snoc. destruct (loss_improves _ _).
  - right. exists entry. split; [|done]. apply elem_of_app. right. by left.
  - destruct IH as [IH|(entry' & Hin & IH)]; [by left|].
    right. exists entry'. split; [|done]. apply elem_of_app. by left.
Qed.

Section TrainLoopHistory.
Variable Model : Type.
Variable Optim : Type.
Variable Batch : Type.
Variable train_dataloader : Z → list Batch.
Variable train_step : Batch → Model * Optim → Model * Optim.
Variable evaluate_train : Z → Model → metrics.
Variable evaluate_val : Z → Model → metrics.
Variable scheduler_step : Q → Optim → Optim.

#[local] Abbreviation final := (train_loop_state Model Optim Batch
  train_dataloader train_step evaluate_train evaluate_val scheduler_step).

(** The epochs of the history are the evaluation epochs among the epochs
    that ran, each once and in increasing order. *)
Definition history_epochs (epochs : Z) (s : loop_state Model Optim) : Prop :=
  epoch <$> history s
  = filter (λ e, metric_epoch epochs e = true)
      (seqZ 0 (Z.of_nat (epochs_run s))).

Lemma history_epochs_body epochs (s : loop_state Model Optim) :
  history_epochs epochs s →
  history_epochs epochs
    (epoch_body Model Optim Batch train_dataloader train_step evaluate_train
       evaluate_val scheduler_step epochs (Z.of_nat (epochs_run s)) s).
Proof.
  unfold history_epochs. intros Hs. set (e := Z.of_nat (epochs_run s)).
  pose proof (seqZ_snoc (epochs_run s)) as Hseq. fold e in Hseq.
  unfold epoch_body. destruct (train_epoch _ _ _ _ _ _ _) as [m o].
  fold (metric_epoch epochs e). destruct (metric_epoch epochs e) eqn:Hm;
    cbn [history epochs_run]; rewrite Hseq, filter_app, filter_cons, filter_nil.
  - rewrite decide_True by done. by rewrite fmap_app, Hs.
  - rewrite decide_False by (by rewrite Hm). by rewrite app_nil_r.
Qed.

Lemma final_history_epochs m0 o0 epochs :
  history_epochs epochs (final m0 o0 epochs).
Proof.
  pose proof (for_epochs_invariant Model Optim Batch train_dataloader
                train_step evaluate_train evaluate_val scheduler_step
                (history_epochs epochs) epochs
                (λ s Hs _, history_epochs_body epochs s Hs)
                (Z.to_nat epochs) (initial_state Model Optim m0 o0)) as Hinv.
  cbn [epochs_run initial_state] in Hinv.
  replace (seqZ (Z.of_nat 0) (Z.of_nat (Z.to_nat epochs)))
    with (seqZ 0 epochs) in Hinv
    by (unfold seqZ; by rewrite Nat2Z.id).
  by apply Hinv.
Qed.

(** The history [_train_loop] returns has one entry for each evaluation
    epoch (a multiple of ten, or the last epoch) among the epochs that ran,
    in increasing order; a run of at least one epoch starts its history
    with epoch 0; and with no epoch to run the history is empty and the
    model is handed back as it was. *)
Theorem train_loop_history_epochs m0 o0 epochs :
  let s :=
    train_loop_state Model Optim Batch train_dataloader train_step
      evaluate_train evaluate_val scheduler_step m0 o0 epochs in
  let h :=
    (_train_loop Model Optim Batch train_dataloader train_step
       evaluate_train evaluate_val scheduler_step m0 o0 epochs).1 in
  (epochs_run s ≤ Z.to_nat epochs)%nat ∧
  epoch <$> h
  = filter (λ e, metric_epoch epochs e = true)
      (seqZ 0 (Z.of_nat (epochs_run s))) ∧
  (0 < epochs → ∃ entry rest, h = entry :: rest ∧ epoch entry = 0) ∧
  (epochs ≤ 0 →
   _train_loop Model Optim Batch train_dataloader train_step
     evaluate_train evaluate_val scheduler_step m0 o0 epochs = ([], m0)).
Proof.
  cbn zeta. unfold _train_loop. cbn [fst].
  pose proof (final_history_epochs m0 o0 epochs) as Hh.
  destruct (final_state_inv Model Optim Batch train_dataloader train_step
              evaluate_train evaluate_val scheduler_step m0 o0 epochs)
    as (_ & _ & Hle & _).
  split; [done|]. split; [done|]. split.
  - intros Hpos. unfold history_epochs in Hh.
    assert (Hrun : (1 ≤ epochs_run (final m0 o0 epochs))%nat).
    { unfold train_loop_state. rewrite seqZ_cons by lia. cbn [for_epochs].
      cbn [breaking initial_state].
      pose proof (for_epochs_invariant Model Optim Batch train_dataloader
                    train_step evaluate_train evaluate_val scheduler_step
                    (λ _, True) epochs (λ _ _ _, I) (Z.to_nat (Z.pred epochs))
                    (epoch_body Model Optim Batch train_dataloader train_step
                       evaluate_train evaluate_val scheduler_step epochs 0
                       (initial_state Model Optim m0 o0)) I) as Hinv.
      rewrite epoch_body_epochs_run in Hinv. cbn [epochs_run initial_state] in Hinv.
      rewrite Z2Nat.id in Hinv by lia. cbn zeta in Hinv.
      change (Z.of_nat 1) with (Z.succ 0) in Hinv.
      destruct Hinv as (_ & Hrun & _). lia. }
    destruct (epochs_run (final m0 o0 epochs)) as [|n] eqn:Hn; [lia|].
    rewrite Nat2Z.inj_succ, seqZ_cons, filter_cons in Hh by lia.
    rewrite decide_True in Hh by done.
    destruct (history (final m0 o0 epochs)) as [|entry rest]; [done|].
    injection Hh as He _. by exists entry, rest.
  - intros Hnone. unfold train_loop_state.
    replace (seqZ 0 epochs) with (@nil Z); [done|].
    unfold seqZ. by replace (Z.to_nat epochs) with 0%nat by lia.
Qed.

(** When the loop is cut short, it is cut short exactly sixty epochs after
    [best_epoch], the last evaluation that improved the training loss, and
    this is a multiple of ten: no run is cut short before epoch 60 is
    over. *)
Theorem train_loop_cut_short m0 o0 epochs :
  let s :=
    train_loop_state Model Optim Batch train_dataloader train_step
      evaluate_train evaluate_val scheduler_step m0 o0 epochs in
  (epochs_run s < Z.to_nat epochs)%nat →
  0 ≤ best_epoch s ∧
  best_epoch s mod 10 = 0 ∧
  Z.of_nat (epochs_run s) = best_epoch s + 61.
Proof.
  cbn zeta. intros Hshort.
  pose proof (final_history_epochs m0 o0 epochs) as Hh.
  destruct (final_state_inv Model Optim Batch train_dataloader train_step
              evaluate_train evaluate_val scheduler_step m0 o0 epochs)
    as (_ & HP & Hle & Hstop).
  set (s := final m0 o0 epochs) in *. specialize (Hstop Hshort).
  destruct HP as (_ & Hepoch & Hbreak & Hprefix & Hlast & Hentries & _).
  destruct (Hlast Hstop) as (h & entry & Hhist & He).
  unfold history_epochs in Hh. rewrite Hhist in Hh, Hepoch, Hbreak, Hprefix, Hentries.
  rewrite Hstop in Hbreak. unfold stops_after in Hbreak.
  rewrite last_snoc in Hbreak. symmetry in Hbreak.
  apply Z.gtb_lt in Hbreak. unfold plateau_terminate in *.
  (* the last entry is an evaluation at a multiple of ten *)
  assert (Hmetric : epoch entry mod 10 = 0).
  { destruct (Hentries entry) as [_ [Hm|Hm]];
      [apply elem_of_app; right; by left | done | lia]. }
  (* it did not improve the training loss *)
  rewrite plateau_of_snoc in Hepoch, Hbreak.
  destruct (loss_improves _ _); cbn [snd] in Hepoch, Hbreak; [lia|].
  assert (Hbest : 0 ≤ best_epoch s ∧ best_epoch s mod 10 = 0).
  { rewrite Hepoch.
    destruct (plateau_of_epoch h) as [Hz|(entry' & Hin & Heq)].
    { rewrite Hz. by split. }
    assert (Hin' : entry' ∈ h ++ [entry]) by (apply elem_of_app; by left).
    destruct (Hentries entry' Hin') as [Hr Hm]. rewrite <- Heq in *.
    destruct Hm as [Hm|Hm]; [by split; [lia|]|]. lia. }
  destruct Hbest as [Hb0 Hb10]. split; [done|]. split; [done|].
  (* the evaluation ten epochs earlier is the last entry of [h] *)
  set (e := epoch entry) in *.
  assert (He10 : 10 ≤ e) by lia.
  replace (Z.of_nat (epochs_run s)) with ((e - 10) + 1 + 9 + 1) in Hh by lia.
  rewrite !seqZ_app, !filter_app in Hh by lia.
  rewrite !Z.add_0_l in Hh.
  assert (Hnone : filter (λ e0, metric_epoch epochs e0 = true)
                    (seqZ (e - 10 + 1) 9) = []).
  { apply filter_none. intros x Hx.
    apply elem_of_seqZ in Hx. unfold metric_epoch, epoch_per_metric.
    intros Hm. apply orb_true_iff in Hm as [Hm|Hm]; [|lia].
    apply Z.eqb_eq in Hm.
    assert (x = 10 * (x / 10)) by (pose proof (Z.div_mod x 10); lia).
    assert (e = 10 * (e / 10)) by (pose proof (Z.div_mod e 10); lia).
    lia. }
  rewrite Hnone, app_nil_r, !seqZ_one in Hh.
  rewrite !filter_cons, !filter_nil in Hh.
  rewrite (decide_True (P := metric_epoch epochs (e - 10) = true)) in Hh.
  2:{ unfold metric_epoch, epoch_per_metric. apply orb_true_iff. left.
      apply Z.eqb_eq. replace (e - 10) with (e + (-1) * 10) by lia.
      by rewrite Z.mod_add. }
  rewrite (decide_True (P := metric_epoch epochs (e - 10 + 1 + 9) = true))
    in Hh.
  2:{ unfold metric_epoch, epoch_per_metric. apply orb_true_iff. left.
      apply Z.eqb_eq. by replace (e - 10 + 1 + 9) with e by lia. }
  rewrite fmap_app in Hh.
  apply app_inj_tail in Hh as [Hh _].
  destruct h as [|entry' h _] using rev_ind.
  { symmetry in Hh. by apply app_eq_nil in Hh as [_ ?]. }
  rewrite fmap_app in Hh. apply app_inj_tail in Hh as [_ He'].
  specialize (Hprefix (h ++ [entry']) [entry] eq_refl ltac:(done)).
  unfold stops_after in Hprefix. rewrite last_snoc in Hprefix.
  rewrite Z.gtb_ltb in Hprefix. apply Z.ltb_ge in Hprefix.
  rewrite <- Hepoch in Hprefix, Hbreak. cbn [fmap list_fmap] in He'.
  unfold plateau_terminate in Hprefix.
  pose proof (Z.div_mod e 10). pose proof (Z.div_mod (best_epoch s) 10).
  lia.
Qed.

End TrainLoopHistory.

Lemma train_loop_cut_short_witness :
  0 ≤ best_epoch (demo_training 100) ∧
  best_epoch (demo_training 100) mod 10 = 0 ∧
  Z.of_nat (epochs_run (demo_training 100))
  = best_epoch (demo_training 100) + 61.
Proof.
  apply (train_loop_cut_short Z unit unit (λ _, [tt])
           (λ _ mo, (mo.1 + 1, mo.2)) demo_train_metrics demo_val_metrics
           (λ _ o, o) 0 tt 100).
  vm_compute. lia.
Defined.

(** *** The dynamic time warping discrepancy, common.py lines 119-128 *)

(** A cost that may be [inf]: [None] stands for [float('inf')]. *)
Definition cost_min (a b : option Q) : option Q :=
  match a, b with
  | None, _ => b
  | _, None => a
  | Some p, Some q => if Qle_bool p q then Some p else Some q
  end.

Definition cost_add (c : Q) (a : option Q) : option Q := Qplus c <$> a.

(** [memo[i][j]] and [memo[i][j] = v] on a list of lists. *)
Definition memo_get (memo : list (list (option Q))) (i j : nat)
  : result (option Q) :=
  row ← getitem memo (Z.of_nat i);
  getitem row (Z.of_nat j).

Definition memo_set (memo : list (list (option Q))) (i j : nat)
    (v : option Q) : result (list (list (option Q))) :=
  row ← getitem memo (Z.of_nat i);
  row ← setitem row (Z.of_nat j) v;
  setitem memo (Z.of_nat i) row.

Section DTW.

(** [cost i j] is [(path[..., i, :] - shapelet[j, :]).norm(dim=-1)], for
    one path; [path_size] and [shapelet_size] are [path.size(-2)] and
    [shapelet.size(-2)]. *)
Variable cost : nat → nat → Q.

(** Lines 126-127. *)
Definition dtw_step (i j : nat) (memo : list (list (option Q)))
  : result (list (list (option Q))) :=
  let cost := cost i j in
  above ← memo_get memo i (j + 1);
  left ← memo_get memo (i + 1) j;
  diagonal ← memo_get memo i j;
  memo_set memo (i + 1) (j + 1)
    (cost_add cost (cost_min (cost_min above left) diagonal)).

(** Line 125, for one [i]; and lines 124-127. *)
Definition dtw_row (shapelet_size : nat) (i : nat)
    (memo : result (list (list (option Q))))
  : result (list (list (option Q))) :=
  foldl (λ acc j, memo ← acc; dtw_step i j memo) memo (seq 0 shapelet_size).

Definition dtw_rows (path_size shapelet_size : nat)
    (memo : result (list (list (option Q))))
  : result (list (list (option Q))) :=
  foldl (λ acc i, dtw_row shapelet_size i acc) memo (seq 0 path_size).

(** The discrepancy function of lines 119-128. *)
Definition dtw (path_size shapelet_size : nat) : result (option Q) :=
  let memo :=
    replicate (shapelet_size + 1) (replicate (path_size + 1) None) in
  memo ← memo_set memo 0 0 (Some 0%Q);
  memo ← dtw_rows path_size shapelet_size (Ok memo);
  row ← getitem memo (-1);
  getitem row (-1).

(** The cost of the best warping of the first [i] points of one series
    onto the first [j] points of the other. *)
Fixpoint warping (i : nat) : nat → option Q :=
  match i with
  | O => λ j, match j with O => Some 0%Q | S _ => None end
  | S i' =>
      fix row (j : nat) : option Q :=
        match j with
        | O => None
        | S j' =>
            cost_add (cost i' j')
              (cost_min (cost_min (warping i' j) (row j')) (warping i' j'))
        end
  end.

End DTW.

Example dtw_example :
  dtw (λ i j, inject_Z (Z.abs (Z.of_nat i - Z.of_nat j))) 3 3 = Ok (Some 0%Q) ∧
  dtw (λ i j, 1%Q) 2 2 = Ok (Some 2%Q) ∧
  dtw (λ i j, 1%Q) 2 3 = Raise IndexError ∧
  dtw (λ i j, 1%Q) 3 2 = Raise IndexError ∧
  dtw (λ i j, 1%Q) 0 2 = Ok None ∧
  dtw (λ i j, 1%Q) 0 0 = Ok (Some 0%Q).
Proof. vm_compute. repeat split. Qed.

(** The entry of [memo] at a row and a column, when there is one. *)
Definition cell (memo : list (list (option Q))) (a b : nat)
  : option (option Q) :=
  memo !! a ≫= λ row, row !! b.

(** A memo of [rows] rows of [cols] entries. *)
Definition rect (rows cols : nat) (memo : list (list (option Q))) : Prop :=
  length memo = rows ∧ ∀ a row, memo !! a = Some row → length row = cols.

Lemma getitem_of_nat {A} (xs : list A) (i : nat) :
  getitem xs (Z.of_nat i)
  = match xs !! i with Some x => Ok x | None => Raise IndexError end.
Proof.
  unfold getitem. cbn zeta.
  destruct (Z.ltb_spec (Z.of_nat i) 0) as [?|_]; [lia|].
  rewrite Nat2Z.id.
  destruct (decide (i < length xs)%nat) as [Hlt|Hge].
  - replace ((0 <=? Z.of_nat i) && (Z.of_nat i <? Z.of_nat (length xs)))
      with true by lia. done.
  - replace ((0 <=? Z.of_nat i) && (Z.of_nat i <? Z.of_nat (length xs)))
      with false by lia.
    by rewrite lookup_ge_None_2 by lia.
Qed.

Lemma setitem_of_nat {A} (xs : list A) (i : nat) (v : A) :
  setitem xs (Z.of_nat i) v
  = match xs !! i with
    | Some _ => Ok (<[i := v]> xs)
    | None => Raise IndexError
    end.
Proof.
  unfold setitem. cbn zeta.
  destruct (Z.ltb_spec (Z.of_nat i) 0) as [?|_]; [lia|].
  rewrite Nat2Z.id.
  destruct (decide (i < length xs)%nat) as [Hlt|Hge].
  - replace ((0 <=? Z.of_nat i) && (Z.of_nat i <? Z.of_nat (length xs)))
      with true by lia.
    by destruct (lookup_lt_is_Some_2 xs i Hlt) as [x ->].
  - replace ((0 <=? Z.of_nat i) && (Z.of_nat i <? Z.of_nat (length xs)))
      with false by lia.
    by rewrite lookup_ge_None_2 by lia.
Qed.

Lemma memo_get_cell memo i j :
  memo_get memo i j
  = match cell memo i j with Some v => Ok v | None => Raise IndexError end.
Proof.
  unfold memo_get, cell. rewrite getitem_of_nat.
  destruct (memo !! i) as [row|]; [|done]. cbn [mbind result_bind option_bind].
  apply getitem_of_nat.
Qed.

Lemma memo_set_cell memo i j v :
  memo_set memo i j v
  = match memo !! i with
    | Some row =>
        match row !! j with
        | Some _ => Ok (<[i := <[j := v]> row]> memo)
        | None => Raise IndexError
        end
    | None => Raise IndexError
    end.
Proof.
  unfold memo_set. rewrite getitem_of_nat.
  destruct (memo !! i) as [row|] eqn:Hrow; [|done]. cbn [mbind result_bind].
  rewrite setitem_of_nat. destruct (row !! j); [|done].
  cbn [mbind result_bind]. by rewrite setitem_of_nat, Hrow.
Qed.

Lemma cell_is_Some rows cols memo a b :
  rect rows cols memo → is_Some (cell memo a b) ↔ (a < rows ∧ b < cols)%nat.
Proof.
  intros [Hrows Hcols]. unfold cell. split.
  - intros [v Hv]. destruct (memo !! a) as [row|] eqn:Hrow; [|done].
    cbn in Hv. pose proof (Hcols a row Hrow) as Hlen.
    apply lookup_lt_Some in Hrow, Hv. lia.
  - intros [Ha Hb]. rewrite <- Hrows in Ha.
    destruct (lookup_lt_is_Some_2 memo a Ha) as [row Hrow]. rewrite Hrow. cbn.
    apply lookup_lt_is_Some_2. by rewrite (Hcols a row Hrow).
Qed.

Lemma rect_set rows cols memo a b row v :
  rect rows cols memo → memo !! a = Some row →
  rect rows cols (<[a := <[b := v]> row]> memo).
Proof.
  intros [Hrows Hcols] Hrow. split; [by rewrite length_insert|].
  intros a' row' Hrow'. destruct (decide (a' = a)) as [->|Hne].
  - rewrite list_lookup_insert_eq in Hrow' by (by eapply lookup_lt_Some).
    injection Hrow' as <-. rewrite length_insert. by eapply Hcols.
  - rewrite list_lookup_insert_ne in Hrow' by done. by eapply Hcols.
Qed.

Lemma cell_set memo a b row v a' b' :
  memo !! a = Some row → (b < length row)%nat →
  cell (<[a := <[b := v]> row]> memo) a' b'
  = if decide (a' = a ∧ b' = b) then Some v else cell memo a' b'.
Proof.
  intros Hrow Hb. unfold cell. destruct (decide (a' = a)) as [->|Hne].
  - rewrite list_lookup_insert_eq by (by eapply lookup_lt_Some).
    rewrite Hrow. cbn. destruct (decide (b' = b)) as [->|Hneb].
    + rewrite decide_True by done. by rewrite list_lookup_insert_eq.
    + rewrite decide_False by (by intros [_ ?]).
      by rewrite list_lookup_insert_ne.
  - rewrite list_lookup_insert_ne by done.
    by rewrite decide_False by (by intros [? _]).
Qed.

Lemma warping_0_r cost a : warping cost (S a) 0 = None.
Proof. reflexivity. Qed.

Lemma warping_S cost i j :
  warping cost (S i) (S j)
  = cost_add (cost i j)
      (cost_min (cost_min (warping cost i (S j)) (warping cost (S i) j))
         (warping cost i j)).
Proof. reflexivity. Qed.

Section DTWProofs.
Variable cost : nat → nat → Q.
Variables rows cols : nat.

#[local] Abbreviation step := (dtw_step cost).
#[local] Abbreviation warp := (warping cost).

Lemma dtw_step_ok memo i j :
  rect rows cols memo → (i + 1 < rows)%nat → (j + 1 < cols)%nat →
  ∃ above left diagonal row,
    cell memo i (j + 1) = Some above ∧ cell memo (i + 1) j = Some left ∧
    cell memo i j = Some diagonal ∧ memo !! (i + 1)%nat = Some row ∧
    length row = cols ∧
    step i j memo
    = Ok (<[(i + 1)%nat :=
             <[(j + 1)%nat := cost_add (cost i j)
                 (cost_min (cost_min above left) diagonal)]> row]> memo).
Proof.
  intros Hrect Hi Hj.
  destruct (proj2 (cell_is_Some rows cols memo i (j + 1) Hrect)) as [a Ha];
    [lia|].
  destruct (proj2 (cell_is_Some rows cols memo (i + 1) j Hrect)) as [b Hb];
    [lia|].
  destruct (proj2 (cell_is_Some rows cols memo i j Hrect)) as [d Hd]; [lia|].
  destruct Hrect as [Hrows Hcols].
  destruct (lookup_lt_is_Some_2 memo (i + 1)) as [row Hrow]; [lia|].
  pose proof (Hcols _ _ Hrow) as Hlen.
  destruct (lookup_lt_is_Some_2 row (j + 1)) as [old Hold]; [lia|].
  exists a, b, d, row. repeat (split; [done|]).
  unfold dtw_step. rewrite !memo_get_cell, Ha, Hb, Hd.
  cbn [mbind result_bind]. by rewrite memo_set_cell, Hrow, Hold.
Qed.

Lemma dtw_step_fail memo i j :
  rect rows cols memo → ¬ (i + 1 < rows ∧ j + 1 < cols)%nat →
  step i j memo = Raise IndexError.
Proof.
  intros Hrect Hout. unfold dtw_step. rewrite !memo_get_cell.
  destruct (cell memo i (j + 1)) as [a|]; [|done].
  destruct (cell memo (i + 1) j) as [b|]; [|done].
  destruct (cell memo i j) as [d|]; [|done]. cbn [mbind result_bind].
  rewrite memo_set_cell.
  destruct (memo !! (i + 1)%nat) as [row|] eqn:Hrow; [|done].
  destruct (row !! (j + 1)%nat) as [old|] eqn:Hold; [|done].
  exfalso. apply Hout. apply (cell_is_Some rows cols memo); [done|].
  unfold cell. rewrite Hrow. cbn. by rewrite Hold.
Qed.

Lemma dtw_row_Raise count i e :
  dtw_row cost count i (Raise e) = Raise e.
Proof.
  unfold dtw_row. induction (seq 0 count) as [|j js IH] using rev_ind;
    [done|].
  by rewrite foldl_snoc, IH.
Qed.

Lemma dtw_rows_Raise count shapelet_size e :
  dtw_rows cost count shapelet_size (Raise e) = Raise e.
Proof.
  unfold dtw_rows. induction (seq 0 count) as [|j js IH] using rev_ind;
    [done|].
  by rewrite foldl_snoc, IH, dtw_row_Raise.
Qed.

Lemma dtw_row_S count i memo :
  dtw_row cost (S count) i memo
  = (memo ← dtw_row cost count i memo; step i count memo).
Proof. unfold dtw_row. by rewrite seq_S, foldl_snoc. Qed.

Lemma dtw_rows_S count shapelet_size memo :
  dtw_rows cost (S count) shapelet_size memo
  = dtw_row cost shapelet_size count (dtw_rows cost count shapelet_size memo).
Proof. unfold dtw_rows. by rewrite seq_S, foldl_snoc. Qed.

(** A row of the loop goes through when its cells exist, and stops with an
    [IndexError] otherwise. *)
Lemma dtw_row_run i count : ∀ memo,
  rect rows cols memo →
  if decide (count = 0 ∨ (i + 1 < rows ∧ count < cols))%nat
  then ∃ memo', dtw_row cost count i (Ok memo) = Ok memo' ∧
                rect rows cols memo'
  else dtw_row cost count i (Ok memo) = Raise IndexError.
Proof.
  induction count as [|count IH]; intros memo Hrect.
  - rewrite decide_True by (by left). by exists memo.
  - rewrite dtw_row_S. specialize (IH memo Hrect).
    destruct (decide (count = 0 ∨ (i + 1 < rows ∧ count < cols))%nat)
      as [Hc|Hc].
    + destruct IH as (memo1 & -> & Hrect1). cbn [mbind result_bind].
      destruct (decide (S count = 0 ∨ (i + 1 < rows ∧ S count < cols))%nat)
        as [Hc'|Hc'].
      * destruct (dtw_step_ok memo1 i count Hrect1)
          as (a & b & d & row & _ & _ & _ & Hrow & _ & ->); [lia..|].
        eexists. split; [done|]. by apply rect_set.
      * apply dtw_step_fail; [done|]. lia.
    + rewrite IH. cbn [mbind result_bind].
      by rewrite decide_False by lia.
Qed.

Lemma dtw_rows_run shapelet_size count : ∀ memo,
  rect rows cols memo →
  if decide (count = 0 ∨ shapelet_size = 0 ∨
             (count < rows ∧ shapelet_size < cols))%nat
  then ∃ memo', dtw_rows cost count shapelet_size (Ok memo) = Ok memo' ∧
                rect rows cols memo'
  else dtw_rows cost count shapelet_size (Ok memo) = Raise IndexError.
Proof.
  induction count as [|count IH]; intros memo Hrect.
  - rewrite decide_True by (by left). by exists memo.
  - rewrite dtw_rows_S. specialize (IH memo Hrect).
    destruct (decide (count = 0 ∨ shapelet_size = 0 ∨
                      (count < rows ∧ shapelet_size < cols))%nat) as [Hc|Hc].
    + destruct IH as (memo1 & -> & Hrect1).
      pose proof (dtw_row_run count shapelet_size memo1 Hrect1) as Hrow.
      destruct (decide (shapelet_size = 0 ∨
                        (count + 1 < rows ∧ shapelet_size < cols))%nat)
        as [Hr|Hr].
      * by rewrite decide_True by lia.
      * by rewrite decide_False by lia.
    + rewrite IH, dtw_row_Raise. by rewrite decide_False by lia.
Qed.

(** The cells filled when the loop is at row [i], before column [j]. *)
Definition filled_to (i j : nat) (memo : list (list (option Q))) : Prop :=
  ∀ a b v, cell memo a b = Some v →
    v = if decide (a ≤ i ∨ (a = i + 1 ∧ b ≤ j))%nat then warp a b else None.

Lemma dtw_step_filled memo memo' i j :
  rect rows cols memo → filled_to i j memo →
  step i j memo = Ok memo' →
  rect rows cols memo' ∧ filled_to i (j + 1) memo'.
Proof.
  intros Hrect Hfilled Hstep.
  destruct (decide (i + 1 < rows ∧ j + 1 < cols)%nat) as [[Hi Hj]|Hout];
    [|by rewrite dtw_step_fail in Hstep].
  destruct (dtw_step_ok memo i j Hrect Hi Hj)
    as (a & b & d & row & Ha & Hb & Hd & Hrow & Hlen & Heq).
  rewrite Heq in Hstep. injection Hstep as <-.
  split; [by apply rect_set|]. intros a' b' v.
  rewrite cell_set by (done || lia).
  destruct (decide (a' = (i + 1)%nat ∧ b' = (j + 1)%nat)) as [[-> ->]|Hne].
  - intros [= <-]. rewrite decide_True by lia.
    apply Hfilled in Ha, Hb, Hd.
    rewrite decide_True in Ha by lia. rewrite decide_True in Hb by lia.
    rewrite decide_True in Hd by lia. subst a b d.
    rewrite !Nat.add_1_r. by rewrite warping_S.
  - intros Hv. rewrite (Hfilled a' b' v Hv).
    destruct (decide (a' ≤ i ∨ (a' = i + 1 ∧ b' ≤ j))%nat);
      destruct (decide (a' ≤ i ∨ (a' = i + 1 ∧ b' ≤ j + 1))%nat);
      done || lia.
Qed.

Lemma dtw_row_filled i count : ∀ memo memo',
  rect rows cols memo → filled_to i 0 memo →
  dtw_row cost count i (Ok memo) = Ok memo' →
  rect rows cols memo' ∧ filled_to i count memo'.
Proof.
  induction count as [|count IH]; intros memo memo' Hrect Hfilled.
  - by intros [= <-].
  - rewrite dtw_row_S.
    destruct (dtw_row cost count i (Ok memo)) as [memo1|e] eqn:Hrow; [|done].
    cbn [mbind result_bind]. intros Hstep.
    destruct (IH memo memo1 Hrect Hfilled Hrow) as [Hrect1 Hfilled1].
    rewrite <- Nat.add_1_r. by eapply dtw_step_filled.
Qed.

Lemma dtw_rows_filled n count : ∀ memo memo',
  cols = (n + 1)%nat →
  rect rows cols memo → filled_to 0 0 memo →
  dtw_rows cost count n (Ok memo) = Ok memo' →
  rect rows cols memo' ∧ filled_to count 0 memo'.
Proof.
  intros memo memo' Hcols Hrect Hfilled. revert memo'.
  induction count as [|count IH]; intros memo'.
  - by intros [= <-].
  - rewrite dtw_rows_S.
    destruct (dtw_rows cost count n (Ok memo)) as [memo1|e] eqn:Hrows;
      [|by rewrite dtw_row_Raise].
    intros Hrow. destruct (IH memo1 eq_refl) as [Hrect1 Hfilled1].
    destruct (dtw_row_filled count n memo1 memo' Hrect1 Hfilled1 Hrow)
      as [Hrect' Hfilled'].
    split; [done|]. intros a b v Hv.
    assert (Hb : (b < cols)%nat).
    { by apply (cell_is_Some rows cols memo' a b Hrect'). }
    rewrite (Hfilled' a b v Hv).
    destruct (decide (a ≤ count ∨ (a = count + 1 ∧ b ≤ n))%nat) as [Hc|Hc].
    + by rewrite decide_True by lia.
    + destruct (decide (a ≤ S count ∨ (a = S count + 1 ∧ b ≤ 0))%nat)
        as [Hc'|Hc']; [|done].
      assert (b = 0%nat) as -> by lia.
      destruct a as [|a]; [lia|]. by rewrite warping_0_r.
Qed.

End DTWProofs.

Lemma memo_last rows cols memo :
  rect (rows + 1) (cols + 1) memo →
  ∃ v, cell memo rows cols = Some v ∧
       (row ← getitem memo (-1); getitem row (-1)) = Ok v.
Proof.
  intros [Hrows Hcols].
  destruct (getitem_last memo) as (row & Hlast & ->).
  { intros ->. simpl in Hrows. lia. }
  rewrite last_lookup, Hrows in Hlast.
  replace (pred (rows + 1)) with rows in Hlast by lia.
  pose proof (Hcols _ _ Hlast) as Hlen. cbn [mbind result_bind].
  destruct (getitem_last row) as (v & Hv & ->).
  { intros ->. simpl in Hlen. lia. }
  rewrite last_lookup, Hlen in Hv.
  replace (pred (cols + 1)) with cols in Hv by lia.
  exists v. split; [|done]. unfold cell. rewrite Hlast. by cbn.
Qed.

Lemma dtw_rows_no_columns cost count memo :
  dtw_rows cost count 0 memo = memo.
Proof.
  unfold dtw_rows. induction (seq 0 count) as [|j js IH] using rev_ind;
    [done|].
  by rewrite foldl_snoc, IH.
Qed.

Section DTWSpec.
Variable cost : nat → nat → Q.

(** The memo after line 123. *)
Lemma dtw_initial path_size shapelet_size :
  ∃ memo,
    memo_set (replicate (shapelet_size + 1) (replicate (path_size + 1) None))
      0 0 (Some 0%Q) = Ok memo ∧
    rect (shapelet_size + 1) (path_size + 1) memo ∧
    filled_to cost 0 0 memo.
Proof.
  set (row := replicate (path_size + 1) (@None Q)).
  set (memo := replicate (shapelet_size + 1) row).
  assert (Hrect : rect (shapelet_size + 1) (path_size + 1) memo).
  { split; [apply length_replicate|]. intros a row' Hrow'.
    apply lookup_replicate in Hrow' as [-> _]. apply length_replicate. }
  assert (Hrow : memo !! 0%nat = Some row)
    by (apply lookup_replicate_2; lia).
  assert (Hcell : ∀ a b v, cell memo a b = Some v → v = None).
  { intros a b v. unfold cell. intros Hv.
    destruct (memo !! a) as [row'|] eqn:Hrow'; [|done]. cbn in Hv.
    apply lookup_replicate in Hrow' as [-> _].
    by apply lookup_replicate in Hv as [-> _]. }
  exists (<[0%nat := <[0%nat := Some 0%Q]> row]> memo).
  split; [|split; [by apply rect_set|]].
  - rewrite memo_set_cell, Hrow. unfold row at 1.
    by rewrite lookup_replicate_2 by lia.
  - intros a b v. rewrite cell_set by (done || unfold row; rewrite length_replicate; lia).
    destruct (decide (a = 0%nat ∧ b = 0%nat)) as [[-> ->]|Hne].
    + intros [= <-]. by rewrite decide_True by lia.
    + intros Hv. rewrite (Hcell a b v Hv).
      destruct (decide (a ≤ 0 ∨ (a = 0 + 1 ∧ b ≤ 0))%nat) as [Hc|Hc]; [|done].
      destruct a as [|a]; [by destruct b; [lia|]|].
      assert (b = 0%nat) as -> by lia. by rewrite warping_0_r.
Qed.

(** What the discrepancy function does: the loop reads and writes cells of
    a memo that has [shapelet_size + 1] rows of [path_size + 1] entries as
    if it had [path_size + 1] rows of [shapelet_size + 1] entries. *)
Lemma dtw_spec path_size shapelet_size :
  dtw cost path_size shapelet_size
  = if decide (path_size = 0 ∨ shapelet_size = 0 ∨ path_size = shapelet_size)%nat
    then Ok (warping cost path_size shapelet_size)
    else Raise IndexError.
Proof.
  unfold dtw. cbn zeta.
  destruct (dtw_initial path_size shapelet_size)
    as (memo & -> & Hrect & Hfilled). cbn [mbind result_bind].
  pose proof (dtw_rows_run cost (shapelet_size + 1) (path_size + 1)
                shapelet_size path_size memo Hrect) as Hrun.
  destruct (decide (path_size = 0 ∨ shapelet_size = 0 ∨
                    path_size = shapelet_size)%nat) as [Hc|Hc].
  - rewrite decide_True in Hrun by lia.
    destruct Hrun as (memo' & Hrows & Hrect').
    rewrite Hrows. cbn [mbind result_bind].
    destruct (memo_last shapelet_size path_size memo' Hrect')
      as (v & Hv & ->). f_equal.
    destruct (decide (path_size = 0)%nat) as [->|HP].
    { injection Hrows as <-. rewrite (Hfilled _ _ _ Hv).
      destruct shapelet_size as [|[|n]]; done. }
    destruct (decide (shapelet_size = 0)%nat) as [->|HS].
    { rewrite dtw_rows_no_columns in Hrows. injection Hrows as <-.
      rewrite (Hfilled _ _ _ Hv). rewrite decide_True by lia.
      by destruct path_size. }
    assert (path_size = shapelet_size) as -> by lia.
    destruct (dtw_rows_filled cost (shapelet_size + 1) (shapelet_size + 1)
                shapelet_size shapelet_size memo memo' eq_refl Hrect Hfilled
                Hrows) as [_ Hfilled'].
    rewrite (Hfilled' _ _ _ Hv). by rewrite decide_True by lia.
  - rewrite decide_False in Hrun by lia. by rewrite Hrun.
Qed.

(** The lengths the dynamic time warping discrepancy works for.  When the
    path and the shapelet both have a point, the function raises an
    [IndexError] exactly when they differ in length; it raises nothing
    else. *)
Theorem dtw_lengths path_size shapelet_size e :
  dtw cost path_size shapelet_size = Raise e ↔
  e = IndexError ∧
  (1 ≤ path_size ∧ 1 ≤ shapelet_size ∧ path_size ≠ shapelet_size)%nat.
Proof.
  rewrite dtw_spec.
  destruct (decide (path_size = 0 ∨ shapelet_size = 0 ∨
                    path_size = shapelet_size)%nat) as [Hc|Hc].
  - split; [done|]. intros [_ ?]. lia.
  - split.
    + intros [= <-]. split; [done|lia].
    + by intros [-> _].
Qed.

(** On a path and a shapelet of the same length the function returns the
    cost of the best warping: that of the empty series is 0, and a series
    is warped onto another by matching their last points and warping what
    is before at least one of them. *)
Theorem dtw_warping n :
  dtw cost n n = Ok (warping cost n n) ∧
  warping cost 0 0 = Some 0%Q ∧
  (∀ i, warping cost (S i) 0 = None ∧ warping cost 0 (S i) = None) ∧
  ∀ i j,
    warping cost (S i) (S j)
    = cost_add (cost i j)
        (cost_min (cost_min (warping cost i (S j)) (warping cost (S i) j))
           (warping cost i j)).
Proof.
  split; [|by repeat split].
  rewrite dtw_spec. by rewrite decide_True by lia.
Qed.

End DTWSpec.

(** *** [_compute_binary_accuracy], [_compute_multiclass_accuracy] and
    [_evaluate_metrics], common.py lines 72-104 and 177-194 *)

(** A float a tensor operation may produce: a number, an infinity, or
    not-a-number. *)
Inductive tfloat :=
| Finite (q : Q)
| PosInf
| NegInf
| NaN.

(** [x * n] for a tensor [x] and a Python integer [n] that is not
    negative. *)
Definition tf_scale (x : tfloat) (n : nat) : tfloat :=
  match x with
  | Finite q => Finite (q * inject_Z (Z.of_nat n))
  | PosInf => if (n =? 0)%nat then NaN else PosInf
  | NegInf => if (n =? 0)%nat then NaN else NegInf
  | NaN => NaN
  end.

Definition tf_add (x y : tfloat) : tfloat :=
  match x, y with
  | Finite p, Finite q => Finite (p + q)
  | NaN, _ | _, NaN => NaN
  | PosInf, NegInf | NegInf, PosInf => NaN
  | PosInf, _ | _, PosInf => PosInf
  | NegInf, _ | _, NegInf => NegInf
  end.

(** [x / n]: a tensor divided by zero is an infinity or not-a-number, no
    exception. *)
Definition tf_div (x : tfloat) (n : nat) : tfloat :=
  match x with
  | Finite q =>
      if (n =? 0)%nat then
        if Qltb 0 q then PosInf else if Qltb q 0 then NegInf else NaN
      else Finite (q / inject_Z (Z.of_nat n))
  | _ => x
  end.

(** What the model predicts for a batch: a tensor of one dimension (one
    logit per sample, when the model has a single output channel) or of
    two (one row of scores per sample). *)
Inductive prediction :=
| Logits (values : list Q)
| Scores (rows : list (list Q)).

(** [a == b] on two tensors of one dimension, summed: the sizes must agree
    unless one of them is 1. *)
Definition count_equal (a b : list Z) : result nat :=
  let count := λ xs ys : list Z,
    length (filter (λ xy, xy.1 = xy.2) (zip xs ys)) in
  if (length a =? length b)%nat then Ok (count a b)
  else match a, b with
       | [x], _ => Ok (count ((λ _, x) <$> b) b)
       | _, [y] => Ok (count a ((λ _, y) <$> a))
       | _, _ => Raise RuntimeError
       end.

(** [torch.argmax] of a row: the first index of the largest score. *)
Fixpoint argmax_from (best : Q) (best_index index : nat) (row : list Q)
  : nat :=
  match row with
  | [] => best_index
  | x :: row' =>
      if Qltb best x then argmax_from x index (S index) row'
      else argmax_from best best_index (S index) row'
  end.

Definition argmax (row : list Q) : result Z :=
  match row with
  | [] => Raise IndexError
  | x :: row' => Ok (Z.of_nat (argmax_from x 0 1 row'))
  end.

Fixpoint argmax_rows (rows : list (list Q)) : result (list Z) :=
  match rows with
  | [] => Ok []
  | row :: rows' =>
      index ← argmax row; indices ← argmax_rows rows'; Ok (index :: indices)
  end.

Section Accuracy.

(** [torch.sigmoid] *)
Variable sigmoid : Q → Q.

(** Lines 72-88; [true_y] holds the labels, as floats. *)
Definition _compute_binary_accuracy (pred_y : prediction) (true_y : list Z)
  : result tfloat :=
  match pred_y with
  | Scores _ => Raise AssertionError
  | Logits values =>
      if negb (length values =? length true_y)%nat then Raise AssertionError
      else
        let binary_prediction :=
          (λ x, if Qltb 0.5 (sigmoid x) then 1 else 0) <$> values in
        prediction_matches ← count_equal binary_prediction true_y;
        Ok (tf_div (Finite (inject_Z (Z.of_nat prediction_matches)))
              (length true_y))
  end.

(** Lines 91-104. *)
Definition _compute_multiclass_accuracy (pred_y : prediction)
    (true_y : list Z) : result tfloat :=
  match pred_y with
  | Logits _ => Raise IndexError
  | Scores rows =>
      prediction ← argmax_rows rows;
      prediction_matches ← count_equal prediction true_y;
      Ok (tf_div (Finite (inject_Z (Z.of_nat prediction_matches)))
            (length true_y))
  end.

(** How [_evaluate_metrics] ends: with the two metrics, with an exception
    of an accuracy function, or with the [ZeroDivisionError] of line
    192. *)
Inductive evaluation :=
| Metrics (loss accuracy : tfloat)
| Failed (e : exn)
| ZeroDivisionError.

(** The batch [X] of a loader; [model(times, X)[0]] in evaluation mode;
    and [loss_fn(pred_y, y)], which may raise. *)
Variable Input : Type.
Variable model : Input → prediction.
Variable loss_fn : prediction → list Z → result tfloat.

(** Lines 183-191: the totals after the batches. *)
Fixpoint evaluate_batches (num_classes : Z)
    (batches : list (Input * list Z)) (totals : tfloat * tfloat * nat)
  : result (tfloat * tfloat * nat) :=
  match batches with
  | [] => Ok totals
  | (X, y) :: batches' =>
      let '(total_loss, total_accuracy, total_dataset_size) := totals in
      let batch_size := length y in
      let pred_y := model X in
      accuracy ←
        (if num_classes =? 2 then _compute_binary_accuracy pred_y y
         else _compute_multiclass_accuracy pred_y y);
      let total_accuracy :=
        tf_add total_accuracy (tf_scale accuracy batch_size) in
      loss ← loss_fn pred_y y;
      let total_loss := tf_add total_loss (tf_scale loss batch_size) in
      evaluate_batches num_classes batches'
        (total_loss, total_accuracy, (total_dataset_size + batch_size)%nat)
  end.

(** Lines 177-194.  The totals start as the Python integer 0; when the
    loader yields no batch they still are integers at line 192, and the
    division of 0 by 0 raises. *)
Definition _evaluate_metrics (dataloader : list (Input * list Z))
    (num_classes : Z) : evaluation :=
  match evaluate_batches num_classes dataloader (Finite 0, Finite 0, 0%nat)
  with
  | Raise e => Failed e
  | Ok (total_loss, total_accuracy, total_dataset_size) =>
      match dataloader with
      | [] => ZeroDivisionError
      | _ :: _ =>
          Metrics (tf_div total_loss total_dataset_size)
                  (tf_div total_accuracy total_dataset_size)
      end
  end.

End Accuracy.

(** A stand-in for the sigmoid, with its values at the infinities and
    at 0. *)
Definition demo_sigmoid (x : Q) : Q :=
  if Qltb 0 x then 1 else if Qltb x 0 then 0 else 1 # 2.

Example accuracy_examples :
  _compute_binary_accuracy demo_sigmoid (Logits [2; -1; 3; -4]%Q) [1; 0; 0; 0]
  = Ok (Finite (3 / 4)) ∧
  _compute_binary_accuracy demo_sigmoid (Logits [2; -1]%Q) [1]
  = Raise AssertionError ∧
  _compute_binary_accuracy demo_sigmoid (Logits []) [] = Ok NaN ∧
  _compute_multiclass_accuracy (Scores [[1; 5; 5]; [7; 0; 2]; [0; 0; 0]]%Q)
    [1; 0; 2]
  = Ok (Finite (2 / 3)) ∧
  _compute_multiclass_accuracy (Scores [[1; 5]; [7; 0]]%Q) [1; 0; 2]
  = Raise RuntimeError ∧
  _compute_multiclass_accuracy (Logits [1; 5]%Q) [1; 0] = Raise IndexError ∧
  _evaluate_metrics demo_sigmoid unit (λ _, Logits []) (λ _ _, Ok (Finite 0))
    [] 2
  = ZeroDivisionError.
Proof. vm_compute. repeat split. Qed.

(** The labels an accuracy function reads off a prediction: 1 for a logit
    above 0 and 0 otherwise; the first index of the largest score of a
    row. *)
Definition predicted (pred_y : prediction) : list Z :=
  match pred_y with
  | Logits values => (λ x, if Qltb 0 x then 1 else 0) <$> values
  | Scores rows =>
      (λ row, match row with
              | [] => 0
              | x :: row' => Z.of_nat (argmax_from x 0 1 row')
              end) <$> rows
  end.

(** The number of samples of a batch that are classified right. *)
Definition correct (pred_y : prediction) (y : list Z) : nat :=
  length (filter (λ py, py.1 = py.2) (zip (predicted pred_y) y)).

(** A batch as the loader and the model give it: labels, and one
    prediction for each label, of the kind the number of classes asks
    for. *)
Definition well_shaped (num_classes : Z) (pred_y : prediction) (y : list Z)
  : Prop :=
  y ≠ [] ∧
  match pred_y with
  | Logits values => num_classes = 2 ∧ length values = length y
  | Scores rows =>
      num_classes ≠ 2 ∧ length rows = length y ∧ Forall (λ row, row ≠ []) rows
  end.

Lemma count_equal_same_length a b :
  length a = length b →
  count_equal a b = Ok (length (filter (λ xy, xy.1 = xy.2) (zip a b))).
Proof.
  intros Hlen. unfold count_equal. by rewrite Hlen, Nat.eqb_refl.
Qed.

Lemma argmax_rows_predicted rows :
  Forall (λ row, row ≠ []) rows →
  argmax_rows rows = Ok (predicted (Scores rows)).
Proof.
  induction 1 as [|row rows Hrow _ IH]; [done|].
  cbn [argmax_rows]. destruct row as [|x row]; [done|].
  cbn [argmax mbind result_bind]. by rewrite IH.
Qed.

Lemma correct_le pred_y y : (correct pred_y y ≤ length y)%nat.
Proof.
  unfold correct. etrans; [apply length_filter|].
  rewrite length_zip. lia.
Qed.

Lemma Qdiv_scale (c : Q) (n : nat) :
  (0 < n)%nat →
  (c / inject_Z (Z.of_nat n) * inject_Z (Z.of_nat n) == c)%Q.
Proof.
  intros Hn. field. intros H. unfold Qeq in H. simpl in H. lia.
Qed.

Section AccuracyProofs.
Variable sigmoid : Q → Q.

(** In exact arithmetic the sigmoid is above one half exactly on the
    positive numbers. *)
Hypothesis sigmoid_half : ∀ x, Qltb 0.5 (sigmoid x) = Qltb 0 x.

Lemma accuracy_well_shaped num_classes pred_y y :
  well_shaped num_classes pred_y y →
  (if num_classes =? 2 then _compute_binary_accuracy sigmoid pred_y y
   else _compute_multiclass_accuracy pred_y y)
  = Ok (Finite (inject_Z (Z.of_nat (correct pred_y y))
                / inject_Z (Z.of_nat (length y)))).
Proof.
  intros [Hne Hshape].
  assert (Hn : (length y =? 0)%nat = false).
  { apply Nat.eqb_neq. by destruct y. }
  destruct pred_y as [values|rows].
  - destruct Hshape as [-> Hlen]. cbn [Z.eqb Pos.eqb].
    unfold _compute_binary_accuracy. rewrite Hlen, Nat.eqb_refl. cbn [negb].
    rewrite count_equal_same_length by (by rewrite length_fmap).
    cbn [mbind result_bind]. unfold tf_div. rewrite Hn. unfold correct.
    assert (Hf : (λ x, if Qltb 0.5 (sigmoid x) then 1 else 0) <$> values
                 = predicted (Logits values)).
    { apply list_fmap_ext. intros i x _. by rewrite sigmoid_half. }
    by rewrite Hf.
  - destruct Hshape as (Hnc & Hlen & Hrows).
    replace (num_classes =? 2) with false by lia.
    unfold _compute_multiclass_accuracy.
    rewrite argmax_rows_predicted by done. cbn [mbind result_bind].
    rewrite count_equal_same_length
      by (cbn [predicted]; by rewrite length_fmap).
    cbn [mbind result_bind]. unfold tf_div. by rewrite Hn.
Qed.

End AccuracyProofs.

(** The samples classified right, the samples, and the sum of the losses
    of the batches, each times the size of its batch. *)
Definition total_correct {Input} (model : Input → prediction)
    (batches : list (Input * list Z)) : nat :=
  sum_list ((λ b, correct (model b.1) b.2) <$> batches).

Definition total_size {Input} (batches : list (Input * list Z)) : nat :=
  sum_list ((λ b : Input * list Z, length b.2) <$> batches).

Definition weighted_loss {Input} (batches : list (Input * list Z))
    (losses : list Q) : Q :=
  foldr Qplus 0%Q
    (zip_with (λ (b : Input * list Z) l,
                 (l * inject_Z (Z.of_nat (length b.2)))%Q) batches losses).

Lemma sum_list_cons (x : nat) (l : list nat) :
  sum_list (x :: l) = (x + sum_list l)%nat.
Proof. reflexivity. Qed.

Section EvaluateMetricsProofs.
Variable sigmoid : Q → Q.
Hypothesis sigmoid_half : ∀ x, Qltb 0.5 (sigmoid x) = Qltb 0 x.
Variable Input : Type.
Variable model : Input → prediction.
Variable loss_fn : prediction → list Z → result tfloat.
Variable num_classes : Z.

#[local] Abbreviation batches_loop :=
  (evaluate_batches sigmoid Input model loss_fn num_classes).

Lemma evaluate_batches_totals batches : ∀ losses tl ta n,
  Forall (λ b, well_shaped num_classes (model b.1) b.2) batches →
  Forall2 (λ b l, loss_fn (model b.1) b.2 = Ok (Finite l)) batches losses →
  ∃ tl' ta',
    batches_loop batches (Finite tl, Finite ta, n)
    = Ok (Finite tl', Finite ta', (n + total_size batches)%nat) ∧
    (tl' == tl + weighted_loss batches losses)%Q ∧
    (ta' == ta + inject_Z (Z.of_nat (total_correct model batches)))%Q.
Proof.
  induction batches as [|[X y] batches IH]; intros losses tl ta n Hshape Hloss.
  - exists tl, ta. split; [by rewrite Nat.add_0_r|].
    apply Forall2_nil_inv_l in Hloss as ->.
    unfold weighted_loss, total_correct. simpl. split; ring.
  - apply Forall2_cons_inv_l in Hloss as (l & losses' & Hl & Hloss & ->).
    apply Forall_cons in Hshape as [Hy Hshape]. cbn [fst snd] in Hy, Hl.
    cbn [evaluate_batches].
    rewrite (accuracy_well_shaped sigmoid sigmoid_half num_classes _ _ Hy).
    cbn [mbind result_bind]. rewrite Hl. cbn [mbind result_bind].
    cbn [tf_scale tf_add].
    match goal with
    | |- context [evaluate_batches _ _ _ _ _ batches
                    (Finite ?a, Finite ?b, ?m)] =>
        destruct (IH losses' a b m Hshape Hloss)
          as (tl' & ta' & -> & Htl & Hta)
    end.
    exists tl', ta'. split; [|split].
    + do 2 f_equal. unfold total_size.
      rewrite fmap_cons, sum_list_cons. cbn [snd]. lia.
    + rewrite Htl. unfold weighted_loss.
      cbn [zip_with foldr fst snd]. ring.
    + rewrite Hta. unfold total_correct.
      rewrite fmap_cons, sum_list_cons. cbn [fst snd].
      rewrite Qdiv_scale by (destruct Hy as [Hne _]; destruct y; [done|simpl; lia]).
      rewrite Nat2Z.inj_add, inject_Z_plus. ring.
Qed.


(** The [ZeroDivisionError] of line 192 is raised for a loader that yields
    no batch, and for no other: batches without samples make the metrics
    not-a-number instead. *)
Theorem evaluate_metrics_no_batch dataloader :
  _evaluate_metrics sigmoid Input model loss_fn dataloader num_classes
  = ZeroDivisionError ↔ dataloader = [].
Proof.
  unfold _evaluate_metrics. split.
  - destruct (batches_loop dataloader _) as [[[tl ta] n]|e]; [|done].
    by destruct dataloader.
  - by intros ->.
Qed.

End EvaluateMetricsProofs.

(** Two batches of sizes 3 and 1 of a two-class problem; the model's
    logit is its input, and the loss of a batch is its size. *)
Definition demo_batches : list (list Q * list Z) :=
  [([2; -1; 3]%Q, [1; 0; 0]); ([-4]%Q, [0])].

Definition demo_loss (pred_y : prediction) (y : list Z) : result tfloat :=
  Ok (Finite (inject_Z (Z.of_nat (length y)))).


Section BinaryAccuracy.
Variable sigmoid : Q → Q.
Hypothesis sigmoid_half : ∀ x, Qltb 0.5 (sigmoid x) = Qltb 0 x.


End BinaryAccuracy.

Lemma demo_sigmoid_half x : Qltb 0.5 (demo_sigmoid x) = Qltb 0 x.
Proof.
  unfold demo_sigmoid. destruct (Qltb 0 x); [reflexivity|].
  by destruct (Qltb x 0).
Qed.


End Common.

(** ** [experiments/uea.py] *)

Module Uea.

Section Pad.
Context {A : Type}.

(** [out[:n] = src] on a one-dimensional tensor: the target is the slice
    [out[0:min n (len out)]]; the source must have the slice's length, or
    length one (it is then broadcast). *)
Definition assign_prefix (out : list A) (n : nat) (src : list A)
  : result (list A) :=
  let k := Nat.min n (length out) in
  if decide (length src = k) then Ok (src ++ drop k out)
  else match src with
       | [x] => Ok (replicate k x ++ drop k out)
       | _ => Raise RuntimeError
       end.

(** [_pad(channel, maxlen)], uea.py lines 15-19. *)
Definition _pad (channel : list A) (maxlen : nat) : result (list A) :=
  fill ← getitem channel (-1);
  let out := replicate maxlen fill in
  assign_prefix out (length channel) channel.


End Pad.


(** *** Missing data in [get_data], uea.py lines 117-153 *)

(** One run of the scans of lines 125-132 and 134-141: the point next to
    the first removed point, in direction [d], and for every further
    removed point either its neighbour in direction [d] or, when the
    previous removed point is that neighbour, the point found before. *)
Definition scan_step (d : Z) (st : Z * Z * list Z) (removed_point : Z)
  : Z * Z * list Z :=
  let '(last_removed_point, unremoved_point, unremoved_points) := st in
  let unremoved_point :=
    if negb (last_removed_point =? removed_point + d)
    then removed_point + d else unremoved_point in
  (removed_point, unremoved_point, unremoved_points ++ [unremoved_point]).

Definition scan (d : Z) (first : Z) (others : list Z) : list Z :=
  (foldl (scan_step d) (first, first + d, [first + d]) others).2.

(** Lines 125-132. *)
Definition prev_unremoved_points (removed_points : list Z)
  : result (list Z) :=
  prev_removed_point ← getitem removed_points 0;
  Ok (scan (-1) prev_removed_point (drop 1 removed_points)).

(** Lines 134-142. *)
Definition next_unremoved_points (removed_points : list Z)
  : result (list Z) :=
  next_removed_point ← getitem removed_points (-1);
  Ok (reverse (scan 1 next_removed_point
                 (reverse (slice_to (-1) removed_points)))).

(** Lines 143-153: the loop writing the interpolated values into the
    stream, a view of [all_X[batch_index, :, channel_index]]. *)
Fixpoint interpolate (points : list (Z * (Z * Z))) (times stream : list Q)
  : result (list Q) :=
  match points with
  | [] => Ok stream
  | (prev_unremoved_point, (removed_point, next_unremoved_point)) :: points' =>
      prev_stream ← getitem stream prev_unremoved_point;
      next_stream ← getitem stream next_unremoved_point;
      prev_time ← getitem times prev_unremoved_point;
      next_time ← getitem times next_unremoved_point;
      time ← getitem times removed_point;
      let ratio := ((time - prev_time) / (next_time - prev_time))%Q in
      stream ← setitem stream removed_point
                 (prev_stream + ratio * (next_stream - prev_stream))%Q;
      interpolate points' times stream
  end.

(** Lines 122-123: [randperm] is what [torch.randperm(length - 2)]
    returned. *)
Definition removed_points_of (randperm : list Z) (length : nat)
    (missing_rate : Q) : list Z :=
  let randperm := (λ i, i + 1) <$> randperm in
  merge_sort Z.le
    (slice_to (int_of_float (inject_Z (Z.of_nat length) * missing_rate))
       randperm).

(** Lines 122-153 for one batch element and one channel. *)
Definition interpolate_stream (randperm : list Z) (missing_rate : Q)
    (times stream : list Q) : result (list Q) :=
  let removed_points :=
    removed_points_of randperm (length stream) missing_rate in
  prevs ← prev_unremoved_points removed_points;
  nexts ← next_unremoved_points removed_points;
  interpolate (zip prevs (zip removed_points nexts)) times stream.

(** [torch.linspace(0, n - 1, n)] *)
Definition linspace_times (n : nat) : list Q :=
  (λ i, inject_Z i) <$> seqZ 0 (Z.of_nat n).

(** [all_X[batch_index, :, channel_index]], read and written back. *)
Definition get_stream (all_X : list (list (list Q)))
    (batch_index channel_index : nat) : list Q :=
  (λ row, default 0%Q (row !! channel_index))
    <$> default [] (all_X !! batch_index).

Definition set_stream (all_X : list (list (list Q)))
    (batch_index channel_index : nat) (stream : list Q)
  : list (list (list Q)) :=
  <[batch_index :=
      zip_with (λ row v, <[channel_index := v]> row)
        (default [] (all_X !! batch_index)) stream]> all_X.

Section Missingness.

(** [randperm call n] is the result of the call number [call] of
    [torch.randperm(n, generator=generator)] on the seeded generator. *)
Variable randperm : nat → Z → list Z.

(** Lines 122-153 at one batch element and one channel of the tensor;
    [length1] and [length2] are [all_X.size(1)] and [all_X.size(2)]. *)
Definition interpolate_channel (missing_rate : Q) (length1 length2 : nat)
    (times : list Q) (batch_index : nat)
    (acc : result (list (list (list Q)))) (channel_index : nat)
  : result (list (list (list Q))) :=
  all_X ← acc;
  if Z.of_nat length1 - 2 <? 0 then Raise RuntimeError else
  stream ←
    interpolate_stream
      (randperm (batch_index * length2 + channel_index)
         (Z.of_nat length1 - 2))
      missing_rate times (get_stream all_X batch_index channel_index);
  Ok (set_stream all_X batch_index channel_index stream).

(** Lines 118-153. *)
Definition handle_missingness (missing_rate : Q)
    (all_X : list (list (list Q))) : result (list (list (list Q))) :=
  if Qltb 0 missing_rate then
    let times := linspace_times (size1 all_X) in
    foldl (λ acc batch_index,
             foldl (interpolate_channel missing_rate (size1 all_X)
                      (size2 all_X) times batch_index)
                   acc (seq 0 (size2 all_X)))
          (Ok all_X) (seq 0 (length all_X))
  else Ok all_X.

End Missingness.

(** Seven time steps, three of them removed. *)
Example interpolate_stream_example :
  removed_points_of [3; 0; 1; 4; 2] 7 0.5 = [1; 2; 4] ∧
  prev_unremoved_points [1; 2; 4] = Ok [0; 0; 3] ∧
  next_unremoved_points [1; 2; 4] = Ok [3; 3; 5] ∧
  interpolate_stream [3; 0; 1; 4; 2] 0.5 (linspace_times 7)
    [10; 0; 0; 40; 0; 20; 70]%Q
  = Ok [10; 10 + (1 - 0) / (3 - 0) * (40 - 10);
        10 + (2 - 0) / (3 - 0) * (40 - 10); 40;
        40 + (4 - 3) / (5 - 3) * (20 - 40); 20; 70]%Q.
Proof. vm_compute. by repeat split. Qed.

(** [p] is the point nearest to [r], in direction [d], that is not among
    the removed points [R]. *)
Definition nearest (d : Z) (R : list Z) (r p : Z) : Prop :=
  (p ∉ R) ∧ (∃ k, 0 < k ∧ p = r + d * k ∧ ∀ j, 0 < j < k → r + d * j ∈ R).

(** The removed points come in the order in which a scan in direction [d]
    meets them: each one further against [d] than those before. *)
Definition against (d : Z) (a b : Z) : Prop := d * b < d * a.

Lemma nearest_snoc d done r p r' :
  d = 1 ∨ d = -1 →
  nearest d done r p → against d r r' → nearest d (done ++ [r']) r p.
Proof.
  intros Hd (Hp & k & Hk & -> & Hbetween) Hr. unfold against in Hr. split.
  - intros Hin. apply elem_of_app in Hin as [Hin|Hin]; [done|].
    apply list_elem_of_singleton in Hin. destruct Hd as [-> | ->]; lia.
  - exists k. split; [done|]. split; [done|].
    intros j Hj. apply elem_of_app. left. by apply Hbetween.
Qed.

Lemma scan_fold d others : ∀ done cur u acc,
  d = 1 ∨ d = -1 →
  last done = Some cur →
  last acc = Some u →
  length acc = length done →
  (∀ i r p, done !! i = Some r → acc !! i = Some p → nearest d done r p) →
  (∀ e, e ∈ done → d * cur ≤ d * e) →
  StronglySorted (against d) (done ++ others) →
  let acc' := (foldl (scan_step d) (cur, u, acc) others).2 in
  length acc' = length (done ++ others) ∧
  ∀ i r p, (done ++ others) !! i = Some r → acc' !! i = Some p →
           nearest d (done ++ others) r p.
Proof.
  induction others as [|r' others IH];
    intros done cur u acc Hd Hcur Hu Hlen Hnear Hext Hsorted.
  - simpl. rewrite app_nil_r. done.
  - cbn [foldl scan_step].
    set (u' := if negb (cur =? r' + d) then r' + d else u).
    assert (Hr' : ∀ e, e ∈ done → against d e r').
    { intros e He.
      apply (StronglySorted_app_1_elem_of _ done (r' :: others));
        [done | done | by left]. }
    assert (Hcur_in : cur ∈ done).
    { rewrite last_lookup in Hcur. by eapply list_elem_of_lookup_2. }
    pose proof (Hr' cur Hcur_in) as Hcr. unfold against in Hcr.
    assert (Hu_near : nearest d done cur u).
    { rewrite last_lookup in Hcur, Hu. rewrite Hlen in Hu.
      by eapply Hnear. }
    assert (Hu' : nearest d (done ++ [r']) r' u').
    { unfold u'. destruct (Z.eqb_spec cur (r' + d)) as [Heq|Hneq]; cbn [negb].
      - destruct Hu_near as (Hnotin & k & Hk & Hku & Hbetween). split.
        + intros Hin. apply elem_of_app in Hin as [Hin|Hin]; [done|].
          apply list_elem_of_singleton in Hin. destruct Hd as [-> | ->]; lia.
        + exists (k + 1). split; [lia|]. split; [lia|].
          intros j Hj. apply elem_of_app. left.
          destruct (decide (j = 1)) as [->|Hj1].
          * by replace (r' + d * 1) with cur by lia.
          * replace (r' + d * j) with (cur + d * (j - 1)) by lia.
            apply Hbetween. lia.
      - split.
        + intros Hin. apply elem_of_app in Hin as [Hin|Hin].
          * specialize (Hext _ Hin). destruct Hd as [-> | ->]; lia.
          * apply list_elem_of_singleton in Hin. destruct Hd as [-> | ->]; lia.
        + exists 1. split; [lia|]. split; [lia|]. intros j Hj. lia. }
    specialize (IH (done ++ [r']) r' u' (acc ++ [u']) Hd).
    rewrite <- !app_assoc in IH. cbn [app] in IH. apply IH.
    + by rewrite last_snoc.
    + by rewrite last_snoc.
    + rewrite !length_app. simpl. lia.
    + intros i r p Hr Hp.
      destruct (decide (i < length done)%nat) as [Hi|Hi].
      * rewrite lookup_app_l in Hr by done.
        rewrite lookup_app_l in Hp by lia.
        apply nearest_snoc; [done | by eapply Hnear |].
        apply Hr'. by eapply list_elem_of_lookup_2.
      * rewrite lookup_app_r in Hr by lia. rewrite lookup_app_r in Hp by lia.
        rewrite Hlen in Hp. destruct (i - length done)%nat; [|done].
        simpl in Hr, Hp. by inversion Hr; inversion Hp; subst.
    + intros e He. apply elem_of_app in He as [He|He].
      * specialize (Hr' e He). unfold against in Hr'. lia.
      * apply list_elem_of_singleton in He as ->. lia.
    + done.
Qed.

Lemma scan_spec d first others :
  d = 1 ∨ d = -1 →
  StronglySorted (against d) (first :: others) →
  length (scan d first others) = S (length others) ∧
  ∀ i r p, (first :: others) !! i = Some r →
           scan d first others !! i = Some p →
           nearest d (first :: others) r p.
Proof.
  intros Hd Hsorted. unfold scan.
  apply (scan_fold d others [first] first (first + d) [first + d]);
    try done.
  - intros i r p Hr Hp. destruct i; [|done]. simpl in Hr, Hp.
    inversion Hr; inversion Hp; subst. split.
    + intros Hin. apply list_elem_of_singleton in Hin.
      destruct Hd as [-> | ->]; lia.
    + exists 1. split; [lia|]. split; [lia|]. intros j Hj. lia.
  - intros e He. apply list_elem_of_singleton in He as ->. lia.
Qed.

Lemma getitem_nonneg {A} (xs : list A) (i : Z) (x : A) :
  0 ≤ i → xs !! Z.to_nat i = Some x → getitem xs i = Ok x.
Proof.
  intros Hi Hx. pose proof (lookup_lt_Some _ _ _ Hx) as Hlt.
  unfold getitem. destruct (Z.ltb_spec i 0); [lia|].
  destruct (Z.leb_spec 0 i); [|lia].
  destruct (Z.ltb_spec i (Z.of_nat (length xs))); [|lia].
  simpl. by rewrite Hx.
Qed.

Lemma setitem_nonneg {A} (xs : list A) (i : Z) (v : A) :
  0 ≤ i < Z.of_nat (length xs) →
  setitem xs i v = Ok (<[Z.to_nat i := v]> xs).
Proof.
  intros Hi. unfold setitem. destruct (Z.ltb_spec i 0); [lia|].
  destruct (Z.leb_spec 0 i); [|lia].
  by destruct (Z.ltb_spec i (Z.of_nat (length xs))); [|lia].
Qed.

Lemma linspace_times_lookup (n : nat) (i : Z) :
  0 ≤ i < Z.of_nat n → linspace_times n !! Z.to_nat i = Some (inject_Z i).
Proof.
  intros Hi. unfold linspace_times. rewrite list_lookup_fmap.
  rewrite lookup_seqZ_lt by lia. simpl. f_equal. f_equal. lia.
Qed.

Lemma StronglySorted_weaken {A} (R1 R2 : relation A) (l : list A) :
  (∀ x y, x ∈ l → y ∈ l → R1 x y → R2 x y) →
  StronglySorted R1 l → StronglySorted R2 l.
Proof.
  intros Himpl Hs. induction Hs as [|a l Hs IH Hall]; [constructor|].
  constructor.
  - apply IH. intros x y Hx Hy. apply Himpl; by right.
  - rewrite Forall_forall in Hall |- *. intros y Hy.
    apply Himpl; [by left | by right | by apply Hall].
Qed.

Lemma StronglySorted_reverse {A} (R : relation A) (l : list A) :
  StronglySorted R l → StronglySorted (flip R) (reverse l).
Proof.
  induction 1 as [|a l Hs IH Hall]; [constructor|].
  rewrite reverse_cons. apply StronglySorted_app_2; [|done|].
  - intros x1 x2 Hx1 Hx2. apply list_elem_of_singleton in Hx2 as ->.
    rewrite elem_of_reverse in Hx1. rewrite Forall_forall in Hall.
    unfold flip. by apply Hall.
  - repeat constructor.
Qed.

Lemma nearest_same_points d R R' r p :
  (∀ x, x ∈ R ↔ x ∈ R') → nearest d R r p → nearest d R' r p.
Proof.
  intros Hsame (Hp & k & Hk & Heq & Hbetween). split; [by rewrite <- Hsame|].
  exists k. split; [done|]. split; [done|].
  intros j Hj. rewrite <- Hsame. by apply Hbetween.
Qed.

(** The scan of lines 125-132 finds, for each removed point, the nearest
    point below it that is not removed. *)
Lemma prev_unremoved_points_spec (R : list Z) :
  StronglySorted Z.lt R → R ≠ [] →
  ∃ prevs,
    prev_unremoved_points R = Ok prevs ∧ length prevs = length R ∧
    ∀ i r p, R !! i = Some r → prevs !! i = Some p → nearest (-1) R r p.
Proof.
  intros Hsorted Hne. destruct R as [|first others]; [done|].
  unfold prev_unremoved_points.
  rewrite (getitem_nonneg (first :: others) 0 first) by done.
  cbn [mbind result_bind drop].
  destruct (scan_spec (-1) first others) as [Hlen Hnear]; [by right | |].
  { eapply StronglySorted_weaken; [|exact Hsorted].
    intros x y _ _ Hxy. unfold against. lia. }
  eexists. split; [reflexivity|]. split; [done|]. exact Hnear.
Qed.

(** The scan of lines 134-142 finds the nearest point above it that is not
    removed. *)
Lemma next_unremoved_points_spec (R : list Z) :
  StronglySorted Z.lt R → R ≠ [] →
  ∃ nexts,
    next_unremoved_points R = Ok nexts ∧ length nexts = length R ∧
    ∀ i r n, R !! i = Some r → nexts !! i = Some n → nearest 1 R r n.
Proof.
  intros Hsorted Hne.
  destruct R as [|x R' _] using rev_ind; [done|].
  unfold next_unremoved_points.
  destruct (getitem_last (R' ++ [x])) as (lst & Hlast & Hget); [done|].
  rewrite last_snoc in Hlast. injection Hlast as <-.
  rewrite Hget. cbn [mbind result_bind].
  assert (Hslice : slice_to (-1) (R' ++ [x]) = R').
  { unfold slice_to. replace (-1 <? 0) with true by done.
    rewrite length_app. simpl.
    replace (Z.to_nat (Z.of_nat (length R' + 1) + -1)) with (length R')
      by lia.
    by rewrite take_app_length. }
  rewrite Hslice.
  destruct (scan_spec 1 x (reverse R')) as [Hlen Hnear]; [by left | |].
  { rewrite <- reverse_snoc. eapply StronglySorted_weaken;
      [|apply StronglySorted_reverse; exact Hsorted].
    intros a b _ _ Hab. unfold flip in Hab. unfold against. lia. }
  rewrite length_reverse in Hlen.
  eexists. split; [reflexivity|].
  split; [rewrite length_reverse, length_app; simpl; lia|].
  intros i r n Hr Hn.
  pose proof (lookup_lt_Some _ _ _ Hr) as Hi. rewrite length_app in Hi.
  simpl in Hi.
  apply reverse_lookup_Some in Hn as [Hn _]. rewrite Hlen in Hn.
  apply (nearest_same_points 1 (x :: reverse R')).
  { intros y. rewrite <- reverse_snoc. apply elem_of_reverse. }
  apply (Hnear (S (length R') - S i)%nat); [|done].
  rewrite <- reverse_snoc. apply reverse_lookup_Some.
  rewrite length_app. simpl. split; [|lia].
  by replace (length R' + 1 - S (length R' - i))%nat with i by lia.
Qed.

Lemma StronglySorted_le_lt (l : list Z) :
  StronglySorted Z.le l → NoDup l → StronglySorted Z.lt l.
Proof.
  induction 1 as [|a l Hs IH Hall]; intros Hnd; [constructor|].
  apply NoDup_cons in Hnd as [Ha Hnd]. constructor; [by apply IH|].
  rewrite Forall_forall in Hall |- *. intros y Hy.
  specialize (Hall y Hy). assert (a ≠ y) by (by intros ->). lia.
Qed.

(** The number of points [get_data] asks to remove. *)
Definition num_removed (length : nat) (missing_rate : Q) : Z :=
  int_of_float (inject_Z (Z.of_nat length) * missing_rate).

(** The removed points are distinct interior points in increasing order,
    as many as asked for but no more than there are interior points. *)
Lemma removed_points_spec (perm : list Z) (L : nat) (rate : Q) :
  perm ≡ₚ seqZ 0 (Z.of_nat L - 2) →
  0 ≤ num_removed L rate →
  let R := removed_points_of perm L rate in
  StronglySorted Z.lt R ∧ NoDup R ∧
  length R = Nat.min (Z.to_nat (num_removed L rate)) (L - 2) ∧
  ∀ r, r ∈ R → 1 ≤ r ≤ Z.of_nat L - 2.
Proof.
  intros Hperm Hk. cbn zeta. unfold removed_points_of.
  fold (num_removed L rate). set (k := num_removed L rate) in *.
  unfold slice_to. destruct (Z.ltb_spec k 0); [lia|].
  set (sel := take (Z.to_nat k) ((λ i, i + 1) <$> perm)).
  assert (Hnd : NoDup sel).
  { apply (sublist_NoDup _ ((λ i, i + 1) <$> perm)); [|apply sublist_take].
    apply NoDup_fmap_2; [intros x y; lia|].
    rewrite Hperm. apply NoDup_seqZ. }
  assert (Hsort : merge_sort Z.le sel ≡ₚ sel) by apply merge_sort_Permutation.
  assert (Hnd' : NoDup (merge_sort Z.le sel)) by (by rewrite Hsort).
  split; [|split; [done|split]].
  - apply StronglySorted_le_lt; [|done].
    apply StronglySorted_merge_sort; apply _.
  - rewrite Hsort. unfold sel. rewrite length_take, length_fmap.
    rewrite Hperm, length_seqZ. lia.
  - intros r Hr. rewrite Hsort in Hr. unfold sel in Hr.
    apply subseteq_take in Hr.
    apply list_elem_of_fmap in Hr as (i & -> & Hi).
    rewrite Hperm in Hi. apply elem_of_seqZ in Hi. lia.
Qed.

(** The loop of lines 143-153 writes at each removed point the value
    interpolated between the original values at its two neighbours, and
    touches nothing else. *)
Lemma interpolate_spec (R : list Z) (orig : list Q) points : ∀ cur,
  length cur = length orig →
  (∀ t : nat, Z.of_nat t ∉ R → cur !! t = orig !! t) →
  NoDup (points.*2.*1) →
  Forall (λ prn, prn.2.1 ∈ R ∧ (prn.1 ∉ R) ∧ (prn.2.2 ∉ R) ∧
                 0 ≤ prn.1 < Z.of_nat (length orig) ∧
                 0 ≤ prn.2.1 < Z.of_nat (length orig) ∧
                 0 ≤ prn.2.2 < Z.of_nat (length orig)) points →
  ∃ out,
    interpolate points (linspace_times (length orig)) cur = Ok out ∧
    length out = length orig ∧
    (∀ t : nat, Z.of_nat t ∉ points.*2.*1 → out !! t = cur !! t) ∧
    (∀ p r n, (p, (r, n)) ∈ points →
       ∃ vp vn,
         orig !! Z.to_nat p = Some vp ∧ orig !! Z.to_nat n = Some vn ∧
         out !! Z.to_nat r
         = Some (vp + (inject_Z r - inject_Z p) / (inject_Z n - inject_Z p)
                      * (vn - vp))%Q).
Proof.
  induction points as [|[p [r n]] points IH]; intros cur Hlen Hsame Hnd Hall.
  - exists cur. split; [done|]. split; [done|]. split; [done|].
    intros p r n Hin. by inversion Hin.
  - apply Forall_cons in Hall as [(Hr & Hp & Hn & Hpb & Hrb & Hnb) Hall].
    cbn [fst snd] in Hr, Hp, Hn, Hpb, Hrb, Hnb.
    rewrite !fmap_cons in Hnd. cbn [fst snd] in Hnd.
    apply NoDup_cons in Hnd as [Hfresh Hnd].
    destruct (lookup_lt_is_Some_2 orig (Z.to_nat p)) as [vp Hvp]; [lia|].
    destruct (lookup_lt_is_Some_2 orig (Z.to_nat n)) as [vn Hvn]; [lia|].
    assert (Hcp : cur !! Z.to_nat p = Some vp).
    { rewrite Hsame; [done|]. by rewrite Z2Nat.id by lia. }
    assert (Hcn : cur !! Z.to_nat n = Some vn).
    { rewrite Hsame; [done|]. by rewrite Z2Nat.id by lia. }
    cbn [interpolate].
    rewrite (getitem_nonneg cur p vp), (getitem_nonneg cur n vn) by
      (done || lia).
    cbn [mbind result_bind].
    rewrite (getitem_nonneg _ p _ (proj1 Hpb) (linspace_times_lookup _ _ Hpb)).
    rewrite (getitem_nonneg _ n _ (proj1 Hnb) (linspace_times_lookup _ _ Hnb)).
    rewrite (getitem_nonneg _ r _ (proj1 Hrb) (linspace_times_lookup _ _ Hrb)).
    cbn [mbind result_bind].
    rewrite setitem_nonneg by lia. cbn [mbind result_bind].
    set (v := (vp + (inject_Z r - inject_Z p) / (inject_Z n - inject_Z p)
                    * (vn - vp))%Q).
    destruct (IH (<[Z.to_nat r := v]> cur)) as (out & Hout & Hlo & Hkeep & Hval).
    + by rewrite length_insert.
    + intros t Ht. rewrite list_lookup_insert_ne; [by apply Hsame|].
      intros <-. apply Ht. by rewrite Z2Nat.id by lia.
    + done.
    + done.
    + exists out. split; [done|]. split; [done|]. split.
      * intros t Ht. rewrite !fmap_cons in Ht. cbn [fst snd] in Ht.
        apply not_elem_of_cons in Ht as [Htr Ht].
        rewrite Hkeep by done. apply list_lookup_insert_ne. lia.
      * intros p' r' n' Hin. apply elem_of_cons in Hin as [Heq|Hin].
        -- injection Heq as -> -> ->. exists vp, vn.
           split; [done|]. split; [done|].
           rewrite Hkeep by (by rewrite Z2Nat.id by lia).
           apply list_lookup_insert_eq. lia.
        -- by apply Hval.
Qed.

Lemma nearest_below R r p lo :
  (∀ x, x ∈ R → lo ≤ x) → r ∈ R → nearest (-1) R r p →
  p < r ∧ lo - 1 ≤ p ∧ (p ∉ R) ∧ ∀ j, p < j < r → j ∈ R.
Proof.
  intros Hlo Hr (Hp & k & Hk & -> & Hbetween).
  split; [lia|]. split; [|split; [done|]].
  - destruct (decide (k = 1)) as [->|Hk1].
    + specialize (Hlo r Hr). lia.
    + specialize (Hlo (r + -1 * (k - 1)) (Hbetween (k - 1) ltac:(lia))). lia.
  - intros j Hj. replace j with (r + -1 * (r - j)) by lia.
    apply Hbetween. lia.
Qed.

Lemma nearest_above R r n hi :
  (∀ x, x ∈ R → x ≤ hi) → r ∈ R → nearest 1 R r n →
  r < n ∧ n ≤ hi + 1 ∧ (n ∉ R) ∧ ∀ j, r < j < n → j ∈ R.
Proof.
  intros Hhi Hr (Hn & k & Hk & -> & Hbetween).
  split; [lia|]. split; [|split; [done|]].
  - destruct (decide (k = 1)) as [->|Hk1].
    + specialize (Hhi r Hr). lia.
    + specialize (Hhi (r + 1 * (k - 1)) (Hbetween (k - 1) ltac:(lia))). lia.
  - intros j Hj. replace j with (r + 1 * (j - r)) by lia.
    apply Hbetween. lia.
Qed.

(** Lines 122-153 for one stream of at least three points, when at least
    one point is asked to be removed. *)
Lemma interpolate_stream_spec (perm : list Z) (rate : Q) (stream : list Q) :
  perm ≡ₚ seqZ 0 (Z.of_nat (length stream) - 2) →
  1 ≤ num_removed (length stream) rate →
  (3 ≤ length stream)%nat →
  ∃ out,
    interpolate_stream perm rate (linspace_times (length stream)) stream
    = Ok out ∧
    length out = length stream ∧
    (∀ t : nat, Z.of_nat t ∉ removed_points_of perm (length stream) rate →
                out !! t = stream !! t) ∧
    (∀ r, r ∈ removed_points_of perm (length stream) rate →
       ∃ p n vp vn,
         p < r < n ∧ 0 ≤ p ∧ n ≤ Z.of_nat (length stream) - 1 ∧
         (p ∉ removed_points_of perm (length stream) rate) ∧
         (n ∉ removed_points_of perm (length stream) rate) ∧
         (∀ j, p < j < n → j ∈ removed_points_of perm (length stream) rate) ∧
         stream !! Z.to_nat p = Some vp ∧ stream !! Z.to_nat n = Some vn ∧
         out !! Z.to_nat r
         = Some (vp + (inject_Z r - inject_Z p) / (inject_Z n - inject_Z p)
                      * (vn - vp))%Q).
Proof.
  intros Hperm Hk HL. unfold interpolate_stream.
  destruct (removed_points_spec perm (length stream) rate Hperm)
    as (Hsorted & Hnd & HlenR & Hrange); [lia|].
  set (R := removed_points_of perm (length stream) rate) in *.
  assert (HR : R ≠ []).
  { intros HR. rewrite HR in HlenR. simpl in HlenR. lia. }
  destruct (prev_unremoved_points_spec R Hsorted HR)
    as (prevs & -> & Hlp & Hprev).
  destruct (next_unremoved_points_spec R Hsorted HR)
    as (nexts & -> & Hln & Hnext).
  cbn [mbind result_bind].
  set (points := zip prevs (zip R nexts)).
  assert (Hpoint : ∀ i p r n, points !! i = Some (p, (r, n)) →
            r ∈ R ∧ (p < r ∧ 0 ≤ p ∧ (p ∉ R) ∧ ∀ j, p < j < r → j ∈ R) ∧
            (r < n ∧ n ≤ Z.of_nat (length stream) - 1 ∧ (n ∉ R) ∧
             ∀ j, r < j < n → j ∈ R)).
  { intros i p r n Hi. apply lookup_zip_Some in Hi as [Hp Hrn].
    apply lookup_zip_Some in Hrn as [Hr Hn].
    assert (Hin : r ∈ R) by (by eapply list_elem_of_lookup_2).
    split; [done|]. split.
    - destruct (nearest_below R r p 1) as (? & ? & ? & ?);
        [intros x Hx; apply Hrange in Hx; lia | done | by eapply Hprev |].
      repeat split; (done || lia).
    - destruct (nearest_above R r n (Z.of_nat (length stream) - 2))
        as (? & ? & ? & ?);
        [intros x Hx; apply Hrange in Hx; lia | done | by eapply Hnext |].
      repeat split; (done || lia). }
  assert (Hmid : points.*2.*1 = R).
  { unfold points. rewrite snd_zip by (rewrite length_zip_with; lia).
    apply fst_zip. lia. }
  destruct (interpolate_spec R stream points stream)
    as (out & Hout & Hlo & Hkeep & Hval); [done | done | by rewrite Hmid | |].
  { apply Forall_lookup. intros i [p [r n]] Hi. cbn [fst snd].
    destruct (Hpoint i p r n Hi) as (Hr & (? & ? & ? & _) & (? & ? & ? & _)).
    specialize (Hrange r Hr). repeat split; (done || lia). }
  exists out. split; [done|]. split; [done|]. rewrite Hmid in Hkeep.
  split; [done|]. intros r Hr.
  apply list_elem_of_lookup_1 in Hr as [i Hi].
  destruct (lookup_lt_is_Some_2 prevs i) as [p Hp];
    [apply lookup_lt_Some in Hi; lia|].
  destruct (lookup_lt_is_Some_2 nexts i) as [n Hn];
    [apply lookup_lt_Some in Hi; lia|].
  assert (Hpt : points !! i = Some (p, (r, n))).
  { apply lookup_zip_Some. split; [done|]. by apply lookup_zip_Some. }
  destruct (Hpoint i p r n Hpt)
    as (_ & (? & ? & ? & Hbelow) & (? & ? & ? & Habove)).
  destruct (Hval p r n) as (vp & vn & Hvp & Hvn & Hvr);
    [by eapply list_elem_of_lookup_2|].
  exists p, n, vp, vn. repeat split; try (done || lia).
  intros j Hj. destruct (Z.lt_trichotomy j r) as [?|[->|?]].
  - apply Hbelow. lia.
  - by eapply list_elem_of_lookup_2.
  - apply Habove. lia.
Qed.

(** A tensor of shape (B, L, C) as nested lists. *)
Definition shaped (B L C : nat) (X : list (list (list Q))) : Prop :=
  length X = B ∧
  ∀ b sample, X !! b = Some sample →
    length sample = L ∧ ∀ t row, sample !! t = Some row → length row = C.

Lemma get_stream_lookup X b c sample t :
  X !! b = Some sample →
  get_stream X b c !! t = (λ row, default 0%Q (row !! c)) <$> sample !! t.
Proof.
  intros Hb. unfold get_stream. rewrite Hb. simpl.
  by rewrite list_lookup_fmap.
Qed.

Lemma get_stream_length B L C X b c :
  shaped B L C X → (b < B)%nat → length (get_stream X b c) = L.
Proof.
  intros [HB Hshape] Hb.
  destruct (lookup_lt_is_Some_2 X b) as [sample Hs]; [lia|].
  unfold get_stream. rewrite Hs. simpl. rewrite length_fmap.
  by destruct (Hshape b sample Hs).
Qed.

Lemma set_stream_shaped B L C X b c stream :
  shaped B L C X → length stream = L → shaped B L C (set_stream X b c stream).
Proof.
  intros [HB Hshape] Hlen. unfold set_stream. split.
  - by rewrite length_insert.
  - intros b' sample' Hb'.
    destruct (decide (b' = b)) as [->|Hne].
    + pose proof (lookup_lt_Some _ _ _ Hb') as Hlt.
      rewrite length_insert in Hlt.
      rewrite list_lookup_insert_eq in Hb' by done.
      injection Hb' as <-.
      destruct (lookup_lt_is_Some_2 X b) as [sample Hs]; [lia|].
      rewrite Hs. simpl. destruct (Hshape b sample Hs) as [HL Hrows].
      split; [rewrite length_zip_with; lia|].
      intros t row Ht. apply lookup_zip_with_Some in Ht
        as (row0 & v & -> & Hrow0 & _).
      rewrite length_insert. by eapply Hrows.
    + rewrite list_lookup_insert_ne in Hb' by done. by apply (Hshape b').
Qed.

Lemma get_set_stream_same B L C X b c stream :
  shaped B L C X → (b < B)%nat → (c < C)%nat → length stream = L →
  get_stream (set_stream X b c stream) b c = stream.
Proof.
  intros [HB Hshape] Hb Hc Hlen.
  destruct (lookup_lt_is_Some_2 X b) as [sample Hs]; [lia|].
  destruct (Hshape b sample Hs) as [HL Hrows].
  unfold get_stream, set_stream. rewrite Hs.
  rewrite list_lookup_insert_eq by lia. simpl.
  apply list_eq. intros t. rewrite list_lookup_fmap, lookup_zip_with.
  destruct (sample !! t) as [row|] eqn:Hrow; simpl.
  - destruct (stream !! t) as [v|] eqn:Hv; simpl.
    + rewrite list_lookup_insert_eq; [done|]. by rewrite (Hrows t row Hrow).
    + apply lookup_lt_Some in Hrow. apply lookup_ge_None in Hv. lia.
  - symmetry. apply lookup_ge_None. apply lookup_ge_None in Hrow. lia.
Qed.

Lemma get_set_stream_other B L C X b c stream b' c' :
  shaped B L C X → (b < B)%nat → length stream = L →
  (b', c') ≠ (b, c) →
  get_stream (set_stream X b c stream) b' c' = get_stream X b' c'.
Proof.
  intros [HB Hshape] Hb Hlen Hne.
  destruct (lookup_lt_is_Some_2 X b) as [sample Hs]; [lia|].
  destruct (Hshape b sample Hs) as [HL Hrows].
  unfold get_stream, set_stream. rewrite Hs. simpl.
  destruct (decide (b' = b)) as [->|Hb'].
  - rewrite list_lookup_insert_eq by lia. rewrite Hs. simpl.
    assert (c' ≠ c) by congruence.
    apply list_eq. intros t. rewrite !list_lookup_fmap, lookup_zip_with.
    destruct (sample !! t) as [row|] eqn:Hrow; simpl; [|done].
    destruct (stream !! t) as [v|] eqn:Hv; simpl.
    + by rewrite list_lookup_insert_ne.
    + apply lookup_lt_Some in Hrow. apply lookup_ge_None in Hv. lia.
  - by rewrite list_lookup_insert_ne.
Qed.

Section MissingnessProofs.
Variable randperm : nat → Z → list Z.
Variable missing_rate : Q.
Variables B L C : nat.
Variable X0 : list (list (list Q)).
Hypothesis X0_shaped : shaped B L C X0.
Hypothesis three_points : (3 ≤ L)%nat.
Hypothesis some_removed : 1 ≤ num_removed L missing_rate.
Hypothesis randperm_permutes :
  ∀ call, randperm call (Z.of_nat L - 2) ≡ₚ seqZ 0 (Z.of_nat L - 2).

(** The stream of [X] at [(b, c)] is the original one, interpolated. *)
Definition stream_done (b c : nat) (X : list (list (list Q))) : Prop :=
  interpolate_stream (randperm (b * C + c)%nat (Z.of_nat L - 2)) missing_rate
    (linspace_times L) (get_stream X0 b c)
  = Ok (get_stream X b c).

(** The tensor when the loops reach batch element [b] and channel [c]. *)
Definition progress (b c : nat) (X : list (list (list Q))) : Prop :=
  shaped B L C X ∧
  ∀ b' c', (b' < B)%nat → (c' < C)%nat →
    if decide (b' < b ∨ (b' = b ∧ c' < c))%nat
    then stream_done b' c' X
    else get_stream X b' c' = get_stream X0 b' c'.

Lemma interpolate_channel_progress b c X :
  (b < B)%nat → (c < C)%nat → progress b c X →
  ∃ X', interpolate_channel randperm missing_rate L C (linspace_times L) b
          (Ok X) c = Ok X' ∧
        progress b (S c) X'.
Proof.
  intros Hb Hc [Hshape Hstreams]. unfold interpolate_channel.
  cbn [mbind result_bind]. destruct (Z.ltb_spec (Z.of_nat L - 2) 0); [lia|].
  pose proof (Hstreams b c Hb Hc) as Hcur.
  rewrite decide_False in Hcur by lia. rewrite Hcur.
  pose proof (get_stream_length B L C X0 b c X0_shaped Hb) as Hlen.
  destruct (interpolate_stream_spec (randperm (b * C + c)%nat (Z.of_nat L - 2))
              missing_rate (get_stream X0 b c))
    as (out & Hout & Hlo & _); [by rewrite Hlen | by rewrite Hlen | lia |].
  rewrite Hlen in Hout, Hlo. rewrite Hout. cbn [mbind result_bind].
  eexists. split; [reflexivity|]. split.
  - by apply set_stream_shaped.
  - intros b' c' Hb' Hc'.
    destruct (decide ((b', c') = (b, c))) as [[= -> ->]|Hne].
    + rewrite decide_True by lia. unfold stream_done.
      by rewrite (get_set_stream_same B L C).
    + specialize (Hstreams b' c' Hb' Hc'). unfold stream_done in *.
      rewrite (get_set_stream_other B L C) by done.
      assert (Hnot : ¬ (b' = b ∧ c' = c)) by (intros [-> ->]; done).
      destruct (decide (b' < b ∨ b' = b ∧ c' < c)%nat);
        [rewrite decide_True by lia | rewrite decide_False by lia]; done.
Qed.

Lemma channels_progress b n X :
  (b < B)%nat → (n ≤ C)%nat → progress b 0 X →
  ∃ X', foldl (interpolate_channel randperm missing_rate L C
                 (linspace_times L) b) (Ok X) (seq 0 n) = Ok X' ∧
        progress b n X'.
Proof.
  intros Hb. induction n as [|n IH]; intros Hn Hp.
  - by exists X.
  - destruct IH as (X1 & Hfold & Hp1); [lia | done |].
    rewrite seq_S, foldl_snoc, Hfold. simpl.
    apply interpolate_channel_progress; [done | lia | done].
Qed.

Lemma batches_progress n :
  (n ≤ B)%nat →
  ∃ X', foldl (λ acc b,
                 foldl (interpolate_channel randperm missing_rate L C
                          (linspace_times L) b) acc (seq 0 C))
              (Ok X0) (seq 0 n) = Ok X' ∧
        progress n 0 X'.
Proof.
  induction n as [|n IH]; intros Hn.
  - exists X0. split; [done|]. split; [done|].
    intros b' c' _ _. by rewrite decide_False by lia.
  - destruct IH as (X1 & Hfold & Hp1); [lia|].
    rewrite seq_S, foldl_snoc, Hfold. simpl.
    destruct (channels_progress n C X1) as (X2 & Hfold2 & [Hshape Hp2]);
      [lia | lia | done |].
    exists X2. split; [done|]. split; [done|].
    intros b' c' Hb' Hc'. specialize (Hp2 b' c' Hb' Hc').
    destruct (decide (b' < n ∨ b' = n ∧ c' < C)%nat);
      [rewrite decide_True by lia | rewrite decide_False by lia]; done.
Qed.


End MissingnessProofs.

(** One batch element with seven time steps and two channels; every call
    of the generator returns the interior offsets in decreasing order. *)
Definition demo_X : list (list (list Q)) :=
  [[[10; 1]; [0; 2]; [0; 3]; [40; 4]; [0; 5]; [20; 6]; [70; 7]]]%Q.

Definition demo_randperm (call : nat) (n : Z) : list Z := reverse (seqZ 0 n).

Lemma demo_X_shaped : shaped 1 7 2 demo_X.
Proof.
  split; [done|]. intros [|b] sample Hb; [|done].
  injection Hb as <-. split; [done|].
  intros t row Ht. repeat (destruct t as [|t]; [by injection Ht as <-|]).
  done.
Qed.



(** *** Labels in [get_data], uea.py lines 155-162 *)

(** [targets[yi]] on the ordered dictionary, an association list in
    insertion order. *)
Fixpoint assoc (targets : list (string * Z)) (yi : string) : option Z :=
  match targets with
  | [] => None
  | (key, value) :: targets' =>
      if decide (key = yi) then Some value else assoc targets' yi
  end.

(** Lines 158-161, for one label. *)
Definition number_label (st : list (string * Z) * Z) (yi : string)
  : list (string * Z) * Z :=
  let '(targets, counter) := st in
  match assoc targets yi with
  | Some _ => (targets, counter)
  | None => (targets ++ [(yi, counter)], counter + 1)
  end.

(** Lines 156-161. *)
Definition number_labels (all_y : list string) : list (string * Z) * Z :=
  foldl number_label ([], 0) all_y.

(** Line 162: [[targets[yi] for yi in all_y]]. *)
Definition relabel (targets : list (string * Z)) (all_y : list string)
  : result (list Z) :=
  foldr (λ yi acc,
           match assoc targets yi with
           | Some value => rest ← acc; Ok (value :: rest)
           | None => Raise (KeyError yi)
           end) (Ok []) all_y.

(** The number of distinct labels. *)
Definition distinct (labels : list string) : Z :=
  Z.of_nat (size (list_to_set labels : gset string)).

Lemma assoc_app targets1 targets2 yi :
  assoc (targets1 ++ targets2) yi =
    match assoc targets1 yi with
    | Some v => Some v
    | None => assoc targets2 yi
    end.
Proof.
  induction targets1 as [|[k v] targets1 IH]; [done|].
  simpl. by destruct (decide (k = yi)).
Qed.

Lemma assoc_Some targets yi v :
  assoc targets yi = Some v → (yi, v) ∈ targets.
Proof.
  induction targets as [|[k w] targets IH]; [done|].
  simpl. destruct (decide (k = yi)) as [->|Hne].
  - intros [= ->]. by left.
  - intros H. right. by apply IH.
Qed.

Lemma assoc_None targets yi :
  assoc targets yi = None ↔ yi ∉ targets.*1.
Proof.
  induction targets as [|[k w] targets IH]; simpl.
  - split; [intros _ H; by inversion H | done].
  - destruct (decide (k = yi)) as [->|Hne].
    + split; [done|]. intros H. exfalso. apply H. by left.
    + rewrite IH. rewrite not_elem_of_cons. split; [by intros H; split|].
      by intros [_ H].
Qed.

(** What the numbering loop has established after the labels [seen]. *)
Definition numbered (seen : list string) (st : list (string * Z) * Z)
  : Prop :=
  st.2 = Z.of_nat (length st.1) ∧
  st.2 = distinct seen ∧
  NoDup st.1.*1 ∧
  (∀ y, y ∈ seen ↔ y ∈ st.1.*1) ∧
  (∀ i y v, st.1 !! i = Some (y, v) → v = Z.of_nat i) ∧
  (∀ pre y post, seen = pre ++ y :: post → y ∉ pre →
                 assoc st.1 y = Some (distinct pre)).

Lemma snoc_split {A} (l pre post : list A) (x y : A) :
  l ++ [x] = pre ++ y :: post →
  (post = [] ∧ pre = l ∧ y = x) ∨
  (∃ post', post = post' ++ [x] ∧ l = pre ++ y :: post').
Proof.
  intros Heq. destruct post as [|z post _] using rev_ind.
  - left. apply app_inj_tail in Heq as [-> ->]. done.
  - right. exists post.
    rewrite app_comm_cons, app_assoc in Heq.
    by apply app_inj_tail in Heq as [-> ->].
Qed.

Lemma distinct_snoc_old seen y : y ∈ seen → distinct (seen ++ [y]) = distinct seen.
Proof.
  intros Hin. unfold distinct. f_equal. f_equal.
  rewrite list_to_set_app_L. apply set_eq. intros x.
  rewrite elem_of_union, !elem_of_list_to_set, list_elem_of_singleton.
  split; [intros [?| ->]; done | by left].
Qed.

Lemma distinct_snoc_new seen y :
  y ∉ seen → distinct (seen ++ [y]) = distinct seen + 1.
Proof.
  intros Hin. unfold distinct. rewrite list_to_set_app_L.
  rewrite size_union.
  - change (list_to_set [y] : gset string) with ({[y]} ∪ ∅ : gset string).
    rewrite (right_id_L ∅ (∪)), size_singleton. lia.
  - intros x Hx1 Hx2. apply elem_of_list_to_set in Hx1, Hx2.
    apply list_elem_of_singleton in Hx2 as ->. done.
Qed.

Lemma number_label_numbered seen st yi :
  numbered seen st → numbered (seen ++ [yi]) (number_label st yi).
Proof.
  destruct st as [targets counter].
  intros (Hlen & Hcount & Hnd & Hkeys & Hvals & Hfirst). cbn [fst snd] in *.
  unfold number_label. destruct (assoc targets yi) as [v|] eqn:Hyi.
  - assert (Hin : yi ∈ seen).
    { apply Hkeys. apply assoc_Some in Hyi.
      apply list_elem_of_fmap. by exists (yi, v). }
    split; [done|]. cbn [fst snd].
    split; [by rewrite distinct_snoc_old|]. split; [done|].
    split; [|split; [done|]].
    + intros y. rewrite elem_of_app, list_elem_of_singleton, <- Hkeys.
      split; [intros [?| ->]; done | by left].
    + intros pre y post Heq Hpre.
      apply snoc_split in Heq as [(-> & -> & ->)|(post' & -> & ->)];
        [done | by eapply Hfirst].
  - assert (Hin : yi ∉ seen).
    { rewrite Hkeys. by apply assoc_None. }
    split; [cbn [fst snd]; rewrite length_app; simpl; lia|]. cbn [fst snd].
    split; [rewrite distinct_snoc_new by done; lia|].
    split; [|split; [|split]].
    + rewrite fmap_app. apply NoDup_app. split; [done|].
      split; [|apply NoDup_singleton].
      intros y Hy Hy'. apply list_elem_of_singleton in Hy' as ->.
      by apply assoc_None in Hyi.
    + intros y. rewrite fmap_app, !elem_of_app, Hkeys. simpl.
      by rewrite !list_elem_of_singleton.
    + intros i y v Hi.
      destruct (decide (i < length targets)%nat) as [Hlt|Hge].
      * rewrite lookup_app_l in Hi by done. by eapply Hvals.
      * rewrite lookup_app_r in Hi by lia.
        destruct (i - length targets)%nat eqn:Hd; [|done].
        simpl in Hi. injection Hi as -> ->. lia.
    + intros pre y post Heq Hpre. rewrite assoc_app.
      apply snoc_split in Heq as [(-> & -> & ->)|(post' & -> & ->)].
      * rewrite Hyi. simpl. rewrite decide_True by done. by rewrite Hcount.
      * by rewrite (Hfirst pre y post').
Qed.

Lemma number_labels_numbered all_y : numbered all_y (number_labels all_y).
Proof.
  unfold number_labels.
  assert (Hgen : ∀ seen st, numbered seen st →
            numbered (seen ++ all_y) (foldl number_label st all_y)).
  { induction all_y as [|yi all_y IH]; intros seen st Hst; simpl.
    - by rewrite app_nil_r.
    - specialize (IH (seen ++ [yi]) _ (number_label_numbered seen st yi Hst)).
      by rewrite <- app_assoc in IH. }
  apply (Hgen [] ([], 0)). split; [done|]. split; [done|].
  split; [constructor|].
  split; [done|]. split; [by intros i y v H; inversion H|].
  intros pre y post Heq. by destruct pre.
Qed.

(** *** [get_data], uea.py lines 92-191 *)

Definition valid_dataset_names : list string :=
  ["ArticularyWordRecognition"; "FaceDetection"; "NATOPS";
   "AtrialFibrillation"; "FingerMovements"; "PEMS-SF"; "BasicMotions";
   "HandMovementDirection"; "PenDigits"; "CharacterTrajectories";
   "Handwriting"; "PhonemeSpectra"; "Cricket"; "Heartbeat"; "RacketSports";
   "DuckDuckGeese"; "InsectWingbeat"; "SelfRegulationSCP1"; "EigenWorms";
   "JapaneseVowels"; "SelfRegulationSCP2"; "Epilepsy"; "Libras";
   "SpokenArabicDigits"; "ERing"; "LSST"; "StandWalkJump";
   "EthanolConcentration"; "MotorImagery"; "UWaveGestureLibrary"].

(** What [get_data] returns; a dataset is the list of its pairs of a
    series and a label. *)
Record data := mkData {
  times : list Q;
  train_dataloader : Common.DataLoader (list (list Q) * Z);
  val_dataloader : Common.DataLoader (list (list Q) * Z);
  test_dataloader : Common.DataLoader (list (list Q) * Z);
  num_classes : Z;
  input_channels : nat
}.

(** [f(x) for x in xs], stopping at the first exception. *)
Fixpoint for_each {A B} (f : A → result B) (xs : list A) : result (list B) :=
  match xs with
  | [] => Ok []
  | x :: xs' => y ← f x; ys ← for_each f xs'; Ok (y :: ys)
  end.

(** [torch.stack] of one-dimensional tensors, then of the matrices: the
    list must not be empty and the shapes must agree. *)
Definition stack_checked {A} (shape : A → nat) (xs : list A)
  : result (list A) :=
  match xs with
  | [] => Raise RuntimeError
  | x :: _ =>
      if forallb (λ y, (shape y =? shape x)%nat) xs then Ok xs
      else Raise RuntimeError
  end.

(** [m.transpose(-1, -2)] of a matrix whose rows have [n] entries. *)
Definition transpose (n : nat) (m : list (list Q)) : list (list Q) :=
  (λ t, (λ row : list Q, default 0%Q (row !! t)) <$> m) <$> seq 0 n.

(** [torch.utils.data.TensorDataset(X, y)] *)
Definition TensorDataset (X : list (list (list Q))) (y : list Z)
  : result (list (list (list Q) * Z)) :=
  if (length X =? length y)%nat then Ok (zip X y) else Raise AssertionError.

Section GetData.

(** The loader of the time-series files, giving the series (each a list of
    channels) and their labels; [torch.randn] for the noise channels;
    [torch.randperm] on the seeded generator; the stratified
    [train_test_split]; and the mean and standard deviation of a tensor. *)
Variable load_from_tsfile : string → list (list (list Q)) * list string.
Variable randn : nat → nat → nat → list (list (list Q)).
Variable randperm : nat → Z → list Z.
Variable train_test_split :
  list (list (list Q)) → list Z →
  result (list (list (list Q)) * list (list (list Q)) * list Z * list Z).
Variable tensor_mean tensor_std : list Q → Q.

(** The labels read for a dataset, training file first; file names are
    relative to [here], the directory of the script. *)
Definition raw_labels (dataset_name : string) : list string :=
  let base_filename :=
    String.append "data/UEA/Multivariate_ts/"
      (String.append dataset_name (String.append "/" dataset_name)) in
  (load_from_tsfile (String.append base_filename "_TRAIN.ts")).2 ++
  (load_from_tsfile (String.append base_filename "_TEST.ts")).2.

(** Lines 93-187: everything before the final assertion. *)
Definition get_data_body (dataset_name : string) (missing_rate : Q)
    (noise_channels : Z) : result data :=
  if negb (bool_decide (dataset_name ∈ valid_dataset_names))
  then Raise AssertionError else
  let base_filename :=
    String.append "data/UEA/Multivariate_ts/"
      (String.append dataset_name (String.append "/" dataset_name)) in
  let '(train_X, train_y) :=
    load_from_tsfile (String.append base_filename "_TRAIN.ts") in
  let '(test_X, test_y) :=
    load_from_tsfile (String.append base_filename "_TEST.ts") in
  let amount_train := length train_X in
  let all_X := train_X ++ test_X in
  let all_y := train_y ++ test_y in
  lengths ← for_each (λ Xi, first ← getitem Xi 0; Ok (length first)) all_X;
  if decide (lengths = []) then Raise RuntimeError else
  let maxlen := foldr Nat.max 0%nat lengths in
  all_X ← for_each (λ batch,
             channels ← for_each (λ channel, _pad channel maxlen) batch;
             stack_checked length channels) all_X;
  all_X ← stack_checked length all_X;
  let all_X := transpose maxlen <$> all_X in
  all_X ←
    (if noise_channels =? 0 then Ok all_X
     else if noise_channels <? 0 then Raise RuntimeError
     else Ok (zip_with (zip_with app) all_X
                (randn (length all_X) (size1 all_X)
                   (Z.to_nat noise_channels))));
  let times := linspace_times (size1 all_X) in
  all_X ← handle_missingness randperm missing_rate all_X;
  let '(targets, counter) := number_labels all_y in
  all_y ← relabel targets all_y;
  let trainval_X := take amount_train all_X in
  let test_X := drop amount_train all_X in
  let trainval_y := take amount_train all_y in
  let test_y := drop amount_train all_y in
  '(train_X, val_X, train_y, val_y) ← train_test_split trainval_X trainval_y;
  val_X ← Common.normalise_data tensor_mean tensor_std val_X train_X;
  test_X ← Common.normalise_data tensor_mean tensor_std test_X train_X;
  train_X ← Common.normalise_data tensor_mean tensor_std train_X train_X;
  train_dataset ← TensorDataset train_X train_y;
  val_dataset ← TensorDataset val_X val_y;
  test_dataset ← TensorDataset test_X test_y;
  train_dataloader ←
    Common.dataloader train_dataset {["batch_size" := VInt 2048]};
  val_dataloader ←
    Common.dataloader val_dataset {["batch_size" := VInt 2048]};
  test_dataloader ←
    Common.dataloader test_dataset {["batch_size" := VInt 2048]};
  Ok {| times := times;
        train_dataloader := train_dataloader;
        val_dataloader := val_dataloader;
        test_dataloader := test_dataloader;
        num_classes := counter;
        input_channels := size2 train_X |}.

(** Lines 93-191. *)
Definition get_data (dataset_name : string) (missing_rate : Q)
    (noise_channels : Z) : result data :=
  d ← get_data_body dataset_name missing_rate noise_channels;
  if negb (2 <=? num_classes d) then Raise AssertionError else Ok d.

(** The labels of the three datasets [get_data] returns. *)
Definition labels_of (d : data) : list Z :=
  (Common.dl_dataset (train_dataloader d)).*2 ++
  (Common.dl_dataset (val_dataloader d)).*2 ++
  (Common.dl_dataset (test_dataloader d)).*2.

End GetData.

Lemma assoc_lookup targets i y v :
  NoDup targets.*1 → targets !! i = Some (y, v) → assoc targets y = Some v.
Proof.
  revert i. induction targets as [|[k w] targets IH]; intros i Hnd Hi.
  - done.
  - simpl in Hnd. apply NoDup_cons in Hnd as [Hk Hnd].
    destruct i as [|i]; simpl in Hi.
    + injection Hi as -> ->. simpl. by rewrite decide_True.
    + simpl. destruct (decide (k = y)) as [->|Hne]; [|by eapply IH].
      exfalso. apply Hk. apply list_elem_of_fmap. exists (y, v).
      split; [done|]. by eapply list_elem_of_lookup_2.
Qed.

Lemma relabel_Ok targets all_y ys :
  relabel targets all_y = Ok ys →
  Forall2 (λ y z, assoc targets y = Some z) all_y ys.
Proof.
  revert ys. induction all_y as [|y all_y IH]; intros ys; simpl.
  - intros [= <-]. constructor.
  - destruct (assoc targets y) as [v|] eqn:Hy; [|done].
    destruct (relabel targets all_y) as [rest|e]; [|done].
    cbn [mbind result_bind]. intros [= <-]. constructor; [done|by apply IH].
Qed.

Lemma relabel_total targets all_y :
  (∀ y, y ∈ all_y → is_Some (assoc targets y)) →
  ∃ ys, relabel targets all_y = Ok ys.
Proof.
  induction all_y as [|y all_y IH]; intros Hall; simpl.
  - by exists [].
  - destruct (Hall y) as [v ->]; [by left|].
    destruct IH as [rest ->]; [intros y' Hy'; apply Hall; by right|].
    by exists (v :: rest).
Qed.

(** Lines 156-162 on any array of labels. *)
Lemma relabel_number_labels all_y targets counter :
  number_labels all_y = (targets, counter) →
  ∃ ys, relabel targets all_y = Ok ys ∧
    counter = distinct all_y ∧
    Forall2 (λ y z, assoc targets y = Some z) all_y ys ∧
    (∀ z, z ∈ ys ↔ 0 ≤ z < counter) ∧
    (∀ y1 y2 z,
       assoc targets y1 = Some z → assoc targets y2 = Some z → y1 = y2) ∧
    (∀ pre y post, all_y = pre ++ y :: post → y ∉ pre →
                   assoc targets y = Some (distinct pre)).
Proof.
  intros Hnum. pose proof (number_labels_numbered all_y) as Hinv.
  rewrite Hnum in Hinv.
  destruct Hinv as (Hlen & Hcount & Hnd & Hkeys & Hvals & Hfirst).
  cbn [fst snd] in *.
  assert (Hindex : ∀ y v, assoc targets y = Some v →
                          targets !! Z.to_nat v = Some (y, v) ∧ 0 ≤ v < counter).
  { intros y v Hy. apply assoc_Some in Hy.
    apply list_elem_of_lookup in Hy as [i Hi].
    pose proof (Hvals i y v Hi) as ->.
    apply lookup_lt_Some in Hi as Hlt. rewrite Nat2Z.id. split; [done|lia]. }
  destruct (relabel_total targets all_y) as [ys Hys].
  { intros y Hy. apply Hkeys in Hy.
    destruct (assoc targets y) as [v|] eqn:Hv; [done|].
    by apply assoc_None in Hv. }
  exists ys. pose proof (relabel_Ok _ _ _ Hys) as Hall.
  split; [done|]. split; [done|]. split; [done|]. split; [|split; [|done]].
  - intros z. split.
    + intros Hz. apply list_elem_of_lookup in Hz as [i Hi].
      destruct (Forall2_lookup_r _ _ _ _ _ Hall Hi) as (y & _ & Hy).
      by apply Hindex in Hy as [_ ?].
    + intros Hz.
      destruct (lookup_lt_is_Some_2 targets (Z.to_nat z)) as [[y v] Hyv];
        [lia|].
      pose proof (Hvals _ _ _ Hyv) as Hv. rewrite Z2Nat.id in Hv by lia.
      subst v.
      assert (Hy : y ∈ all_y).
      { apply Hkeys. apply list_elem_of_fmap. exists (y, z).
        split; [done|]. by eapply list_elem_of_lookup_2. }
      apply list_elem_of_lookup in Hy as [j Hj].
      destruct (Forall2_lookup_l _ _ _ _ _ Hall Hj) as (z' & Hz' & Hy).
      rewrite (assoc_lookup _ _ _ _ Hnd Hyv) in Hy. injection Hy as <-.
      by eapply list_elem_of_lookup_2.
  - intros y1 y2 z H1 H2.
    apply Hindex in H1 as [H1 _]. apply Hindex in H2 as [H2 _].
    rewrite H1 in H2. by injection H2.
Qed.

Lemma TensorDataset_labels X y dataset :
  TensorDataset X y = Ok dataset → dataset.*2 = y.
Proof.
  unfold TensorDataset. destruct (Nat.eqb_spec (length X) (length y)); [|done].
  intros [= <-]. apply snd_zip. lia.
Qed.

Lemma dataloader_dataset {S} (dataset : list S) kwargs loader :
  Common.dataloader dataset kwargs = Ok loader →
  Common.dl_dataset loader = dataset.
Proof.
  unfold Common.dataloader. cbn zeta.
  destruct (_ !! "batch_size") as [requested|]; [|done].
  destruct (min_with_int _ _) as [b|e]; [|done].
  cbn [mbind result_bind]. by intros [= <-].
Qed.

(** One step of a computation that ends without an exception. *)
Ltac ok_step H :=
  lazymatch type of H with
  | mbind _ ?m = Ok _ =>
      let E := fresh "E" in
      destruct m eqn:E; cbn [mbind result_bind] in H; [|discriminate H]
  | (if ?b then _ else _) = Ok _ =>
      let E := fresh "E" in
      destruct b eqn:E; [discriminate H|]
  end.

Section GetDataProofs.

Variable load_from_tsfile : string → list (list (list Q)) * list string.
Variable randn : nat → nat → nat → list (list (list Q)).
Variable randperm : nat → Z → list Z.
Variable train_test_split :
  list (list (list Q)) → list Z →
  result (list (list (list Q)) * list (list (list Q)) * list Z * list Z).
Variable tensor_mean tensor_std : list Q → Q.

(** The split returns the labels it is given, in some order. *)
Hypothesis split_keeps_labels : ∀ X y train_X val_X train_y val_y,
  train_test_split X y = Ok (train_X, val_X, train_y, val_y) →
  train_y ++ val_y ≡ₚ y.

Lemma get_data_body_labels dataset_name missing_rate noise_channels d :
  get_data_body load_from_tsfile randn randperm train_test_split
    tensor_mean tensor_std dataset_name missing_rate noise_channels = Ok d →
  ∃ targets ys,
    number_labels (raw_labels load_from_tsfile dataset_name)
    = (targets, num_classes d) ∧
    relabel targets (raw_labels load_from_tsfile dataset_name) = Ok ys ∧
    labels_of d ≡ₚ ys.
Proof.
  unfold get_data_body, raw_labels. intros H.
  ok_step H. cbn zeta in H.
  destruct (load_from_tsfile (_ +:+ "_TRAIN.ts")) as [train_X train_y].
  destruct (load_from_tsfile (_ +:+ "_TEST.ts")) as [test_X test_y].
  cbn [snd]. set (all_y := train_y ++ test_y) in *.
  do 2 ok_step H. do 4 ok_step H.
  destruct (number_labels all_y) as [targets counter] eqn:Hnum.
  ok_step H. ok_step H.
  destruct a5 as [[[train_X0 val_X] train_y0] val_y].
  do 9 ok_step H. injection H as <-.
  exists targets, a4. split; [done|]. split; [done|].
  unfold labels_of. cbn [train_dataloader val_dataloader test_dataloader].
  repeat match goal with
         | Hd : Common.dataloader _ _ = Ok _ |- _ =>
             apply dataloader_dataset in Hd; rewrite Hd; clear Hd
         | Hd : TensorDataset _ _ = Ok _ |- _ =>
             apply TensorDataset_labels in Hd; rewrite Hd; clear Hd
         end.
  rewrite app_assoc, (split_keeps_labels _ _ _ _ _ _ E7).
  by rewrite take_drop.
Qed.


End GetDataProofs.

(** Two small files: five training series and two test series of one
    channel and of different lengths, with four distinct labels; and a
    stand-in for the split that keeps the first four fifths for training. *)
Definition demo_tsfile (filename : string)
  : list (list (list Q)) * list string :=
  if String.eqb filename "data/UEA/Multivariate_ts/ERing/ERing_TRAIN.ts"
  then ([[[1; 2; 3]]; [[4; 5]]; [[6; 7; 8]]; [[9]]; [[2; 4; 6]]]%Q,
        ["walk"; "run"; "walk"; "sit"; "run"])
  else if String.eqb filename "data/UEA/Multivariate_ts/ERing/ERing_TEST.ts"
  then ([[[3; 1]]; [[5; 5; 5]]]%Q, ["run"; "jump"])
  else ([[[1; 2]]; [[3; 4]]; [[5; 6]]; [[7; 8]]; [[9; 0]]]%Q,
        ["up"; "up"; "up"; "up"; "up"]).

Definition demo_split (X : list (list (list Q))) (y : list Z)
  : result (list (list (list Q)) * list (list (list Q)) * list Z * list Z) :=
  let n_train := (length X * 4 / 5)%nat in
  Ok (take n_train X, drop n_train X, take n_train y, drop n_train y).

Definition demo_mean (entries : list Q) : Q :=
  (foldr Qplus 0 entries / inject_Z (Z.of_nat (length entries)))%Q.

Definition demo_get_data (dataset_name : string) : result data :=
  get_data demo_tsfile (λ _ _ _, []) demo_randperm demo_split
    demo_mean (λ _, 1%Q) dataset_name 0 0.

Example get_data_example :
  (d ← demo_get_data "ERing"; Ok (num_classes d, labels_of d))
  = Ok (4, [0; 1; 0; 2; 1; 1; 3]) ∧
  demo_get_data "Libras" = Raise AssertionError ∧
  demo_get_data "MNIST" = Raise AssertionError.
Proof. vm_compute. repeat split. Qed.


(** *** [_pad]: the channels it rejects *)


Example pad_examples :
  _pad ([] : list Z) 3 = Raise IndexError ∧
  _pad [1; 2; 3] 2 = Raise RuntimeError ∧
  _pad [7] 0 = Ok [] ∧
  _pad [7] 3 = Ok [7; 7; 7].
Proof. by repeat split. Qed.

(** *** Missing data: rates that remove nothing, and what interpolation
    keeps *)

Lemma shaped_sizes B L C X :
  shaped B L C X → (1 ≤ B)%nat → (1 ≤ L)%nat →
  length X = B ∧ size1 X = L ∧ size2 X = C.
Proof.
  intros [HB Hrows] HB1 HL1. split; [done|].
  destruct X as [|sample rest]; [simpl in HB; lia|].
  destruct (Hrows 0%nat sample eq_refl) as [Hs Hrow]. split; [done|].
  destruct sample as [|row sample]; [simpl in Hs; lia|].
  exact (Hrow 0%nat row eq_refl).
Qed.

Section MissingnessErrors.
Variable randperm : nat → Z → list Z.

Lemma interpolate_channel_Raise rate L C times b e c :
  interpolate_channel randperm rate L C times b (Raise e) c = Raise e.
Proof. reflexivity. Qed.

Lemma handle_missingness_first_channel rate B L C X e :
  shaped B L C X → (1 ≤ B)%nat → (1 ≤ L)%nat → (1 ≤ C)%nat →
  (0 < rate)%Q →
  interpolate_channel randperm rate L C (linspace_times L) 0 (Ok X) 0
  = Raise e →
  handle_missingness randperm rate X = Raise e.
Proof.
  intros Hshape HB HL HC Hrate Hfirst.
  destruct (shaped_sizes B L C X Hshape HB HL) as (Hlen & Hs1 & Hs2).
  unfold handle_missingness.
  assert (Hpos : Qltb 0 rate = true).
  { unfold Qltb. destruct (Qle_bool rate 0) eqn:Hle; [|done].
    apply Qle_bool_iff in Hle. by apply Qlt_not_le in Hrate. }
  rewrite Hpos, Hlen, Hs1, Hs2. cbn zeta.
  destruct B as [|B]; [lia|]. destruct C as [|C]; [lia|].
  cbn [seq foldl]. rewrite Hfirst.
  assert (Hinner : ∀ b cs,
    foldl (interpolate_channel randperm rate L (S C) (linspace_times L) b)
      (Raise e) cs = Raise e).
  { intros b cs. induction cs as [|c cs IH]; [done|]. by cbn [foldl]. }
  rewrite Hinner. generalize (seq 1 B). intros bs.
  induction bs as [|b bs IH]; [done|]. cbn [foldl]. by rewrite Hinner.
Qed.


End MissingnessErrors.


(** A value between two values of a range is in the range. *)
Lemma Qbetween (lo hi vp vn ratio : Q) :
  (lo <= vp <= hi)%Q → (lo <= vn <= hi)%Q → (0 <= ratio <= 1)%Q →
  (lo <= vp + ratio * (vn - vp) <= hi)%Q.
Proof.
  intros [Hp1 Hp2] [Hn1 Hn2] [Hr1 Hr2].
  assert (Hsum : ∀ x y w z : Q,
            (0 <= x)%Q → (0 <= y)%Q → (0 <= w)%Q → (0 <= z)%Q →
            (0 <= x * y + w * z)%Q).
  { intros x y w z Hx Hy Hw Hz. change 0%Q with (0 + 0)%Q at 1.
    apply Qplus_le_compat; by apply Qmult_le_0_compat. }
  apply Qle_minus_iff in Hp1, Hp2, Hn1, Hn2, Hr2.
  split; apply Qle_minus_iff.
  - assert (Heq : (vp + ratio * (vn - vp) + - lo
                   == (1 + - ratio) * (vp + - lo) + ratio * (vn + - lo))%Q)
      by ring.
    rewrite Heq. by apply Hsum.
  - assert (Heq : (hi + - (vp + ratio * (vn - vp))
                   == (1 + - ratio) * (hi + - vp) + ratio * (hi + - vn))%Q)
      by ring.
    rewrite Heq. by apply Hsum.
Qed.

(** The ratio of line 152 for a point between its two neighbours. *)
Lemma ratio_between (p r n : Z) :
  p < r < n →
  (0 <= (inject_Z r - inject_Z p) / (inject_Z n - inject_Z p) <= 1)%Q.
Proof.
  intros [Hpr Hrn].
  assert (Hd : (0 < inject_Z n - inject_Z p)%Q).
  { apply -> Qlt_minus_iff. rewrite <- Zlt_Qlt. lia. }
  split.
  - apply Qle_shift_div_l; [done|]. rewrite Qmult_0_l.
    apply -> Qle_minus_iff. rewrite <- Zle_Qle. lia.
  - apply Qle_shift_div_r; [done|]. rewrite Qmult_1_l.
    apply Qplus_le_l. rewrite <- Zle_Qle. lia.
Qed.

Section InterpolationKeeps.
Variable perm : list Z.
Variable rate : Q.
Variable stream : list Q.
Hypothesis perm_permutes : perm ≡ₚ seqZ 0 (Z.of_nat (length stream) - 2).
Hypothesis some_removed : 1 ≤ num_removed (length stream) rate.
Hypothesis three_points : (3 ≤ length stream)%nat.

Lemma interpolate_stream_range (lo hi : Q) out :
  (∀ v, v ∈ stream → (lo <= v <= hi)%Q) →
  interpolate_stream perm rate (linspace_times (length stream)) stream
  = Ok out →
  ∀ v, v ∈ out → (lo <= v <= hi)%Q.
Proof.
  intros Hrange Hout v Hv.
  destruct (interpolate_stream_spec perm rate stream perm_permutes
              some_removed three_points)
    as (out' & Hout' & Hlen & Hkeep & Hval).
  rewrite Hout in Hout'. injection Hout' as <-.
  apply list_elem_of_lookup in Hv as [t Ht].
  destruct (decide (Z.of_nat t ∈ removed_points_of perm (length stream) rate))
    as [Hr|Hr].
  - destruct (Hval _ Hr)
      as (p & n & vp & vn & Hprn & _ & _ & _ & _ & _ & Hp & Hn & Hnew).
    rewrite Nat2Z.id, Ht in Hnew. injection Hnew as ->.
    apply Qbetween.
    + apply Hrange. by eapply list_elem_of_lookup_2.
    + apply Hrange. by eapply list_elem_of_lookup_2.
    + by apply ratio_between.
  - rewrite (Hkeep t Hr) in Ht. apply Hrange.
    by eapply list_elem_of_lookup_2.
Qed.

Lemma interpolate_stream_linear (a s : Q) out :
  (∀ (t : nat) v, stream !! t = Some v →
                  (v == a + s * inject_Z (Z.of_nat t))%Q) →
  interpolate_stream perm rate (linspace_times (length stream)) stream
  = Ok out →
  ∀ (t : nat) v, out !! t = Some v → (v == a + s * inject_Z (Z.of_nat t))%Q.
Proof.
  intros Hlin Hout t v Ht.
  destruct (interpolate_stream_spec perm rate stream perm_permutes
              some_removed three_points)
    as (out' & Hout' & Hlen & Hkeep & Hval).
  rewrite Hout in Hout'. injection Hout' as <-.
  destruct (decide (Z.of_nat t ∈ removed_points_of perm (length stream) rate))
    as [Hr|Hr].
  - destruct (Hval _ Hr)
      as (p & n & vp & vn & Hprn & Hp0 & _ & _ & _ & _ & Hp & Hn & Hnew).
    rewrite Nat2Z.id, Ht in Hnew. injection Hnew as ->.
    rewrite (Hlin _ _ Hp), (Hlin _ _ Hn). rewrite !Z2Nat.id by lia.
    field. intros Hd. unfold Qeq in Hd. simpl in Hd. lia.
  - rewrite (Hkeep t Hr) in Ht. by apply Hlin.
Qed.

End InterpolationKeeps.

Section MissingnessKeeps.
Variable randperm : nat → Z → list Z.
Variable missing_rate : Q.
Variables B L C : nat.
Variable X0 : list (list (list Q)).
Hypothesis X0_shaped : shaped B L C X0.
Hypothesis three_points : (3 ≤ L)%nat.
Hypothesis some_removed : 1 ≤ num_removed L missing_rate.
Hypothesis randperm_permutes :
  ∀ call, randperm call (Z.of_nat L - 2) ≡ₚ seqZ 0 (Z.of_nat L - 2).
Hypothesis rate_positive : (0 < missing_rate)%Q.

(** Lines 118-153 give every stream what lines 122-153 make of it. *)
Lemma handle_missingness_streams :
  ∃ X',
    handle_missingness randperm missing_rate X0 = Ok X' ∧
    shaped B L C X' ∧
    ∀ b c, (b < B)%nat → (c < C)%nat →
      interpolate_stream (randperm (b * C + c)%nat (Z.of_nat L - 2))
        missing_rate (linspace_times L) (get_stream X0 b c)
      = Ok (get_stream X' b c).
Proof.
  unfold handle_missingness.
  assert (Hpos : Qltb 0 missing_rate = true).
  { unfold Qltb. destruct (Qle_bool missing_rate 0) eqn:Hle; [|done].
    apply Qle_bool_iff in Hle. by apply Qlt_not_le in rate_positive. }
  rewrite Hpos. cbn zeta.
  destruct (decide (B = 0)%nat) as [HB0|HB0].
  { destruct X0_shaped as [HB _]. rewrite HB0 in HB.
    apply length_zero_iff_nil in HB. rewrite HB. simpl.
    exists []. split; [done|]. split; [by subst B; rewrite <- HB|].
    intros b c Hb. lia. }
  destruct (shaped_sizes B L C X0 X0_shaped) as (-> & -> & ->); [lia..|].
  destruct (batches_progress randperm missing_rate B L C X0 X0_shaped
              three_points some_removed randperm_permutes B)
    as (X' & Hfold & [Hshape Hstreams]); [lia|].
  exists X'. split; [exact Hfold|]. split; [done|].
  intros b c Hb Hc. specialize (Hstreams b c Hb Hc).
  by rewrite decide_True in Hstreams by lia.
Qed.

(** Interpolation does not leave the range of the data: every value of a
    stream after the missing points were filled in lies between the
    smallest and the largest value the stream had. *)
Theorem missingness_keeps_range :
  ∃ X',
    handle_missingness randperm missing_rate X0 = Ok X' ∧
    ∀ b c lo hi, (b < B)%nat → (c < C)%nat →
      (∀ v, v ∈ get_stream X0 b c → (lo <= v <= hi)%Q) →
      ∀ v, v ∈ get_stream X' b c → (lo <= v <= hi)%Q.
Proof.
  destruct handle_missingness_streams as (X' & Hrun & _ & Hstreams).
  exists X'. split; [done|]. intros b c lo hi Hb Hc Hrange.
  pose proof (get_stream_length B L C X0 b c X0_shaped Hb) as Hlen.
  apply (interpolate_stream_range
           (randperm (b * C + c)%nat (Z.of_nat L - 2)) missing_rate
           (get_stream X0 b c)); rewrite ?Hlen; auto.
Qed.

(** In exact arithmetic interpolation is exact on straight lines: a
    stream whose value at every time step [t] is [a + s * t] is left with
    these values. *)
Theorem missingness_linear_exact :
  ∃ X',
    handle_missingness randperm missing_rate X0 = Ok X' ∧
    ∀ b c a s, (b < B)%nat → (c < C)%nat →
      (∀ (t : nat) v, get_stream X0 b c !! t = Some v →
                      (v == a + s * inject_Z (Z.of_nat t))%Q) →
      ∀ (t : nat) v, get_stream X' b c !! t = Some v →
                     (v == a + s * inject_Z (Z.of_nat t))%Q.
Proof.
  destruct handle_missingness_streams as (X' & Hrun & _ & Hstreams).
  exists X'. split; [done|]. intros b c a s Hb Hc Hlin.
  pose proof (get_stream_length B L C X0 b c X0_shaped Hb) as Hlen.
  apply (interpolate_stream_linear
           (randperm (b * C + c)%nat (Z.of_nat L - 2)) missing_rate
           (get_stream X0 b c)); rewrite ?Hlen; auto.
Qed.

End MissingnessKeeps.

Lemma missingness_keeps_range_witness :
  ∃ X',
    handle_missingness demo_randperm 0.5 demo_X = Ok X' ∧
    ∀ b c lo hi, (b < 1)%nat → (c < 2)%nat →
      (∀ v, v ∈ get_stream demo_X b c → (lo <= v <= hi)%Q) →
      ∀ v, v ∈ get_stream X' b c → (lo <= v <= hi)%Q.
Proof.
  apply (missingness_keeps_range demo_randperm 0.5 1 7 2 demo_X).
  - exact demo_X_shaped.
  - lia.
  - by vm_compute.
  - intros call. apply reverse_Permutation.
  - reflexivity.
Defined.

(** The second channel of the series is the straight line [1 + t]. *)
Lemma missingness_linear_exact_witness :
  ∃ X',
    handle_missingness demo_randperm 0.5 demo_X = Ok X' ∧
    ∀ b c a s, (b < 1)%nat → (c < 2)%nat →
      (∀ (t : nat) v, get_stream demo_X b c !! t = Some v →
                      (v == a + s * inject_Z (Z.of_nat t))%Q) →
      ∀ (t : nat) v, get_stream X' b c !! t = Some v →
                     (v == a + s * inject_Z (Z.of_nat t))%Q.
Proof.
  apply (missingness_linear_exact demo_randperm 0.5 1 7 2 demo_X).
  - exact demo_X_shaped.
  - lia.
  - by vm_compute.
  - intros call. apply reverse_Permutation.
  - reflexivity.
Defined.

(** *** [get_data]: the test set, and the time stamps *)

(** The two files of a dataset. *)
Definition train_file (dataset_name : string) : string :=
  String.append
    (String.append "data/UEA/Multivariate_ts/"
       (String.append dataset_name (String.append "/" dataset_name)))
    "_TRAIN.ts".

Definition test_file (dataset_name : string) : string :=
  String.append
    (String.append "data/UEA/Multivariate_ts/"
       (String.append dataset_name (String.append "/" dataset_name)))
    "_TEST.ts".

Lemma for_each_length {A B} (f : A → result B) xs ys :
  for_each f xs = Ok ys → length ys = length xs.
Proof.
  revert ys. induction xs as [|x xs IH]; intros ys; cbn [for_each].
  - by intros [= <-].
  - destruct (f x) as [y|e]; [|done]. cbn [mbind result_bind].
    destruct (for_each f xs) as [ys'|e]; [|done]. cbn [mbind result_bind].
    intros [= <-]. simpl. f_equal. by apply IH.
Qed.

Lemma for_each_lookup {A B} (f : A → result B) xs ys i x :
  for_each f xs = Ok ys → xs !! i = Some x →
  ∃ y, ys !! i = Some y ∧ f x = Ok y.
Proof.
  revert ys i. induction xs as [|x' xs IH]; intros ys i; cbn [for_each];
    [done|].
  destruct (f x') as [y'|e] eqn:Hx'; [|done]. cbn [mbind result_bind].
  destruct (for_each f xs) as [ys'|e]; [|done]. cbn [mbind result_bind].
  intros [= <-]. destruct i as [|i]; cbn.
  - intros [= <-]. by exists y'.
  - by apply IH.
Qed.

Lemma stack_checked_Ok {A} (shape : A → nat) xs ys :
  stack_checked shape xs = Ok ys → ys = xs ∧ xs ≠ [].
Proof.
  unfold stack_checked. destruct xs as [|x xs]; [done|].
  destruct (forallb _ _); [|done]. by intros [= <-].
Qed.

Lemma relabel_app targets ys1 ys2 zs :
  relabel targets (ys1 ++ ys2) = Ok zs →
  ∃ zs1 zs2, zs = zs1 ++ zs2 ∧ relabel targets ys1 = Ok zs1 ∧
             relabel targets ys2 = Ok zs2.
Proof.
  revert zs. induction ys1 as [|y ys1 IH]; intros zs; cbn [app].
  - intros Hzs. by exists [], zs.
  - unfold relabel at 1. cbn [foldr]. fold (relabel targets (ys1 ++ ys2)).
    destruct (assoc targets y) as [v|] eqn:Hy; [|done].
    destruct (relabel targets (ys1 ++ ys2)) as [rest|e] eqn:Hrest; [|done].
    cbn [mbind result_bind]. intros [= <-].
    destruct (IH rest eq_refl) as (zs1 & zs2 & -> & H1 & H2).
    exists (v :: zs1), zs2. split; [done|]. split; [|done].
    unfold relabel. cbn [foldr]. fold (relabel targets ys1).
    by rewrite Hy, H1.
Qed.

Lemma relabel_length targets ys zs :
  relabel targets ys = Ok zs → length zs = length ys.
Proof. intros H. apply relabel_Ok in H. symmetry. by eapply Forall2_length. Qed.

(** The length of the longest first channel: [lengths.max()] of lines
    104-105. *)
Definition max_first_length (all_X : list (list (list Q))) : nat :=
  foldr Nat.max 0%nat ((λ Xi, length (default [] (head Xi))) <$> all_X).

Lemma first_lengths all_X lengths :
  for_each (λ Xi : list (list Q), first ← getitem Xi 0; Ok (length first))
    all_X = Ok lengths →
  lengths = (λ Xi, length (default [] (head Xi))) <$> all_X.
Proof.
  revert lengths. induction all_X as [|Xi all_X IH]; intros lengths;
    cbn [for_each].
  - by intros [= <-].
  - destruct Xi as [|first Xi]; [done|].
    change (getitem (first :: Xi) 0) with (Ok first).
    cbn [mbind result_bind].
    destruct (for_each _ all_X) as [rest|e]; [|done]. cbn [mbind result_bind].
    intros [= <-]. cbn [fmap list_fmap head default from_option id].
    f_equal. by apply IH.
Qed.

Section GetDataInversion.
Variable load_from_tsfile : string → list (list (list Q)) * list string.
Variable randn : nat → nat → nat → list (list (list Q)).
Variable randperm : nat → Z → list Z.
Variable train_test_split :
  list (list (list Q)) → list Z →
  result (list (list (list Q)) * list (list (list Q)) * list Z * list Z).
Variable tensor_mean tensor_std : list Q → Q.

(** What a run of lines 93-187 that ends without exception went
    through. *)
Lemma get_data_body_inv dataset_name missing_rate noise_channels d :
  get_data_body load_from_tsfile randn randperm train_test_split
    tensor_mean tensor_std dataset_name missing_rate noise_channels = Ok d →
  let train := load_from_tsfile (train_file dataset_name) in
  let test := load_from_tsfile (test_file dataset_name) in
  let all_y := train.2 ++ test.2 in
  let maxlen := max_first_length (train.1 ++ test.1) in
  ∃ padded noisy all_yz,
    dataset_name ∈ valid_dataset_names ∧
    padded ≠ [] ∧ length padded = length (train.1 ++ test.1) ∧
    (if noise_channels =? 0 then Ok (transpose maxlen <$> padded)
     else if noise_channels <? 0 then Raise RuntimeError
     else Ok (zip_with (zip_with app) (transpose maxlen <$> padded)
                (randn (length (transpose maxlen <$> padded))
                   (size1 (transpose maxlen <$> padded))
                   (Z.to_nat noise_channels)))) = Ok noisy ∧
    times d = linspace_times (size1 noisy) ∧
    relabel (number_labels all_y).1 all_y = Ok all_yz ∧
    num_classes d = (number_labels all_y).2 ∧
    (Common.dl_dataset (test_dataloader d)).*2
    = drop (length train.1) all_yz.
Proof.
  unfold get_data_body. cbn zeta. intros H. ok_step H.
  fold (train_file dataset_name) (test_file dataset_name) in H.
  destruct (load_from_tsfile (train_file dataset_name))
    as [train_X train_y].
  destruct (load_from_tsfile (test_file dataset_name)) as [test_X test_y].
  cbn [fst snd]. do 2 ok_step H. do 4 ok_step H.
  destruct (number_labels (train_y ++ test_y)) as [targets counter] eqn:Hnum.
  ok_step H. ok_step H.
  destruct a5 as [[[train_X0 val_X] train_y0] val_y].
  do 9 ok_step H. injection H as <-.
  apply first_lengths in E0. unfold max_first_length. rewrite <- E0.
  apply stack_checked_Ok in E3 as [-> Hne].
  exists a0, a2, a4. cbn [times num_classes test_dataloader fst snd].
  split; [apply negb_false_iff, bool_decide_eq_true in E; exact E|].
  split; [done|]. split; [by eapply for_each_length|].
  split; [done|]. split; [done|]. split; [done|]. split; [done|].
  repeat match goal with
         | Hd : Common.dataloader _ _ = Ok _ |- _ =>
             apply dataloader_dataset in Hd; rewrite ?Hd; clear Hd
         end.
  match goal with
  | Hd : TensorDataset _ (drop _ _) = Ok _ |- _ =>
      by apply TensorDataset_labels in Hd
  end.
Qed.

End GetDataInversion.

Lemma size1_transpose n (padded : list (list (list Q))) :
  padded ≠ [] → size1 (transpose n <$> padded) = n.
Proof.
  destruct padded as [|m padded]; [done|]. intros _.
  cbn [fmap list_fmap size1]. unfold transpose.
  by rewrite length_fmap, length_seq.
Qed.

Section GetDataResults.
Variable load_from_tsfile : string → list (list (list Q)) * list string.
Variable randn : nat → nat → nat → list (list (list Q)).
Variable randperm : nat → Z → list Z.
Variable train_test_split :
  list (list (list Q)) → list Z →
  result (list (list (list Q)) * list (list (list Q)) * list Z * list Z).
Variable tensor_mean tensor_std : list Q → Q.

#[local] Abbreviation get_data_of :=
  (get_data load_from_tsfile randn randperm train_test_split tensor_mean
     tensor_std).

Lemma get_data_Ok dataset_name missing_rate noise_channels d :
  get_data_of dataset_name missing_rate noise_channels = Ok d →
  get_data_body load_from_tsfile randn randperm train_test_split
    tensor_mean tensor_std dataset_name missing_rate noise_channels = Ok d.
Proof.
  unfold get_data. destruct (get_data_body _ _ _ _ _ _ _ _ _) as [d'|e];
    [|done].
  cbn [mbind result_bind]. by destruct (negb _); [|intros [= <-]].
Qed.

(** The original test set is kept.  When the training file holds as many
    labels as series, the labels of the test loader [get_data] returns are
    the labels of the test file, in the order of the file, each replaced
    by its number in the numbering of all the labels. *)
Theorem get_data_test_labels dataset_name missing_rate noise_channels d :
  let train := load_from_tsfile (train_file dataset_name) in
  let test := load_from_tsfile (test_file dataset_name) in
  let targets := (number_labels (train.2 ++ test.2)).1 in
  length train.1 = length train.2 →
  get_data_of dataset_name missing_rate noise_channels = Ok d →
  Forall2 (λ y z, assoc targets y = Some z) test.2
    (Common.dl_dataset (test_dataloader d)).*2.
Proof.
  cbn zeta. intros Hfile Hd. apply get_data_Ok in Hd.
  destruct (get_data_body_inv _ _ _ _ _ _ _ _ _ _ Hd)
    as (padded & noisy & all_yz & _ & _ & _ & _ & _ & Hrelabel & _ & ->).
  apply relabel_app in Hrelabel as (zs1 & zs2 & -> & H1 & H2).
  apply relabel_length in H1 as Hlen. rewrite Hfile, <- Hlen.
  rewrite drop_app_length. by apply relabel_Ok.
Qed.

(** The time stamps are 0, 1, ..., up to the length of the longest first
    channel of a series, less one: every series is padded to that
    length. *)
Theorem get_data_times dataset_name missing_rate noise_channels d :
  let train := load_from_tsfile (train_file dataset_name) in
  let test := load_from_tsfile (test_file dataset_name) in
  (∀ n l c, shaped n l c (randn n l c)) →
  get_data_of dataset_name missing_rate noise_channels = Ok d →
  times d = linspace_times (max_first_length (train.1 ++ test.1)).
Proof.
  cbn zeta. intros Hrandn Hd. apply get_data_Ok in Hd.
  destruct (get_data_body_inv _ _ _ _ _ _ _ _ _ _ Hd)
    as (padded & noisy & all_yz & _ & Hne & _ & Hnoise & -> & _).
  f_equal. set (maxlen := max_first_length _) in *.
  pose proof (size1_transpose maxlen padded Hne) as Hsize.
  destruct (noise_channels =? 0); [by injection Hnoise as <-|].
  destruct (noise_channels <? 0); [done|]. injection Hnoise as <-.
  rewrite Hsize.
  destruct (Hrandn (length (transpose maxlen <$> padded)) maxlen
              (Z.to_nat noise_channels)) as [Hlen Hrows].
  destruct padded as [|m padded]; [done|].
  cbn [fmap list_fmap length] in *.
  destruct (randn _ _ _) as [|noise0 noise]; [done|].
  destruct (Hrows 0%nat noise0 eq_refl) as [Hl _].
  cbn [zip_with size1]. rewrite length_zip_with, Hl.
  unfold transpose. rewrite length_fmap, length_seq. lia.
Qed.

End GetDataResults.

(** Noise of the shape asked for. *)
Definition demo_randn (n l c : nat) : list (list (list Q)) :=
  replicate n (replicate l (replicate c 0%Q)).

Lemma demo_randn_shaped n l c : shaped n l c (demo_randn n l c).
Proof.
  split; [apply length_replicate|]. intros b sample Hb.
  apply lookup_replicate in Hb as [-> _].
  split; [apply length_replicate|]. intros t row Ht.
  apply lookup_replicate in Ht as [-> _]. apply length_replicate.
Qed.

Lemma get_data_test_labels_witness :
  ∃ d, demo_get_data "ERing" = Ok d ∧
       Forall2 (λ y z, assoc (number_labels
                                ((demo_tsfile (train_file "ERing")).2
                                 ++ (demo_tsfile (test_file "ERing")).2)).1 y
                       = Some z)
         (demo_tsfile (test_file "ERing")).2
         (Common.dl_dataset (test_dataloader d)).*2.
Proof.
  destruct (demo_get_data "ERing") as [d|e] eqn:Hd;
    [|vm_compute in Hd; discriminate Hd].
  exists d. split; [reflexivity|].
  apply (get_data_test_labels demo_tsfile (λ _ _ _, []) demo_randperm
           demo_split demo_mean (λ _, 1%Q) "ERing" 0%Q 0 d).
  - reflexivity.
  - exact Hd.
Defined.

Lemma get_data_times_witness :
  ∃ d, get_data demo_tsfile demo_randn demo_randperm demo_split demo_mean
         (λ _, 1%Q) "ERing" 0 2 = Ok d ∧
       times d = linspace_times
                   (max_first_length
                      ((demo_tsfile (train_file "ERing")).1
                       ++ (demo_tsfile (test_file "ERing")).1)).
Proof.
  destruct (get_data demo_tsfile demo_randn demo_randperm demo_split
              demo_mean (λ _, 1%Q) "ERing" 0 2) as [d|e] eqn:Hd;
    [|vm_compute in Hd; discriminate Hd].
  exists d. split; [reflexivity|].
  apply (get_data_times demo_tsfile demo_randn demo_randperm demo_split
           demo_mean (λ _, 1%Q) "ERing" 0%Q 2 d).
  - exact demo_randn_shaped.
  - exact Hd.
Defined.

Example get_data_times_example :
  (d ← get_data demo_tsfile demo_randn demo_randperm demo_split demo_mean
         (λ _, 1%Q) "ERing" 0 2;
   Ok (times d, input_channels d))
  = Ok ([0; 1; 2]%Q, 3%nat).
Proof. vm_compute. reflexivity. Qed.

(** *** [normalise_data]: the shape of the result, and centred channels *)

(** The entry of a tensor at a sample, a time step and a channel. *)
Definition entry (X : list (list (list Q))) (b t c : nat) : option Q :=
  X !! b ≫= λ sample, sample !! t ≫= λ row, row !! c.

Lemma shaped_entry B L C X b t c :
  shaped B L C X → (b < B)%nat → (t < L)%nat → (c < C)%nat →
  is_Some (entry X b t c).
Proof.
  intros [HB Hrows] Hb Ht Hc. unfold entry.
  destruct (lookup_lt_is_Some_2 X b) as [sample Hs]; [lia|].
  destruct (Hrows b sample Hs) as [HL Hrow]. rewrite Hs. cbn.
  destruct (lookup_lt_is_Some_2 sample t) as [row Hr]; [lia|].
  rewrite Hr. cbn. apply lookup_lt_is_Some_2. rewrite (Hrow t row Hr). lia.
Qed.

Section NormaliseShape.
Variable tensor_mean tensor_std : list Q → Q.

(** What is subtracted from, and what divides, the entries of a
    channel. *)
Definition channel_mean (train_X : list (list (list Q))) (c : nat) : Q :=
  tensor_mean (Common.channel_entries train_X c).

Definition channel_scale (train_X : list (list (list Q))) (c : nat) : Q :=
  (0.00001 + tensor_std (Common.channel_entries train_X c))%Q.

(** The tensor that [normalise_data] returns, given the number of
    channels that [zip] pairs. *)
Definition normalised (channels : nat) (X train_X : list (list (list Q)))
  : list (list (list Q)) :=
  (λ sample : list (list Q),
     (λ row : list Q,
        imap (λ c Xi, ((Xi - channel_mean train_X c)
                       / channel_scale train_X c)%Q)
             (take channels row)) <$> sample) <$> X.

Lemma normalise_data_run B L C B' L' C' X train_X :
  shaped B L C X → shaped B' L' C' train_X →
  (1 ≤ B)%nat → (1 ≤ L)%nat → (1 ≤ B')%nat → (1 ≤ L')%nat →
  Common.normalise_data tensor_mean tensor_std X train_X
  = if (Nat.min C C' =? 0)%nat then Raise RuntimeError
    else Ok (normalised (Nat.min C C') X train_X).
Proof.
  intros HX HT HB HL HB' HL'.
  destruct (shaped_sizes B L C X HX HB HL) as (_ & _ & HC).
  destruct (shaped_sizes B' L' C' train_X HT HB' HL') as (_ & _ & HC').
  unfold Common.normalise_data. by rewrite HC, HC'.
Qed.

Lemma normalised_shaped B L C n X train_X :
  shaped B L C X → (n ≤ C)%nat → shaped B L n (normalised n X train_X).
Proof.
  intros [HlenX Hrows] Hn. unfold normalised.
  split; [by rewrite length_fmap|]. intros b sample' Hs'.
  rewrite list_lookup_fmap in Hs'.
  destruct (X !! b) as [sample|] eqn:Hs; [|done].
  injection Hs' as <-. destruct (Hrows b sample Hs) as [Hlen Hrow].
  split; [by rewrite length_fmap|]. intros t row' Hr'.
  rewrite list_lookup_fmap in Hr'.
  destruct (sample !! t) as [row|] eqn:Hr; [|done].
  injection Hr' as <-. rewrite length_imap, length_take.
  rewrite (Hrow t row Hr). lia.
Qed.

(** The shape of normalised data.  The samples and the time steps of [X]
    are kept; of the channels, as many as the tensor with fewer channels
    has, the further channels of [X] being dropped without notice; and with
    no channel at all [torch.stack] raises a [RuntimeError].  Every entry
    that is kept is the entry of [X] less the mean of its channel in
    [train_X], divided by [1e-5] plus the standard deviation of that
    channel. *)
Theorem normalise_data_shape B L C B' L' C' X train_X :
  shaped B L C X → shaped B' L' C' train_X →
  (1 ≤ B)%nat → (1 ≤ L)%nat → (1 ≤ B')%nat → (1 ≤ L')%nat →
  if decide (Nat.min C C' = 0)%nat
  then Common.normalise_data tensor_mean tensor_std X train_X
       = Raise RuntimeError
  else ∃ X',
    Common.normalise_data tensor_mean tensor_std X train_X = Ok X' ∧
    shaped B L (Nat.min C C') X' ∧
    ∀ b t c v, (c < Nat.min C C')%nat → entry X b t c = Some v →
      entry X' b t c
      = Some ((v - channel_mean train_X c) / channel_scale train_X c)%Q.
Proof.
  intros HX HT HB HL HB' HL'.
  rewrite (normalise_data_run B L C B' L' C') by done.
  destruct (decide (Nat.min C C' = 0)%nat) as [Hz|Hnz].
  - by rewrite Hz.
  - replace (Nat.min C C' =? 0)%nat with false
      by (symmetry; by apply Nat.eqb_neq).
    eexists. split; [reflexivity|]. split.
    + apply (normalised_shaped B L C); [done|lia].
    + intros b t c v Hc. unfold entry, normalised. rewrite list_lookup_fmap.
      destruct (X !! b) as [sample|]; [|done]. cbn.
      rewrite list_lookup_fmap.
      destruct (sample !! t) as [row|]; [|done]. cbn. intros Hv.
      rewrite list_lookup_imap, lookup_take_lt, Hv by done. done.
Qed.

End NormaliseShape.

Lemma sum_centred (l : list Q) (m d : Q) :
  ¬ (d == 0)%Q →
  (foldr Qplus 0 ((λ v, (v - m) / d) <$> l)
   == (foldr Qplus 0 l - inject_Z (Z.of_nat (length l)) * m) / d)%Q.
Proof.
  intros Hd. induction l as [|v l IH].
  - simpl. by field.
  - cbn [fmap list_fmap foldr length]. rewrite IH.
    rewrite Nat2Z.inj_succ, <- Z.add_1_r, inject_Z_plus. by field.
Qed.

Lemma channel_entries_normalised (f : nat → Q → Q) B L C X c :
  shaped B L C X → (c < C)%nat →
  Common.channel_entries
    ((λ sample : list (list Q),
        (λ row : list Q, imap f (take C row)) <$> sample) <$> X) c
  = f c <$> Common.channel_entries X c.
Proof.
  intros [_ Hrows] Hc. unfold Common.channel_entries.
  assert (Hall : ∀ b sample, X !! b = Some sample →
            ∀ t row, sample !! t = Some row → length row = C).
  { intros b sample Hs. by destruct (Hrows b sample Hs). }
  clear Hrows. induction X as [|sample X IH]; [done|].
  cbn [fmap list_fmap concat]. rewrite fmap_app. f_equal.
  - assert (Hrow : ∀ t row, sample !! t = Some row → length row = C)
      by (by apply (Hall 0%nat)).
    clear -Hrow Hc. induction sample as [|row sample IH]; [done|].
    cbn [fmap list_fmap]. f_equal.
    + pose proof (Hrow 0%nat row eq_refl) as Hlen.
      rewrite list_lookup_imap, take_ge by lia.
      destruct (lookup_lt_is_Some_2 row c) as [v ->]; [lia|]. done.
    + apply IH. intros t row' Ht. by apply (Hrow (S t)).
  - apply IH. intros b sample' Hs. by apply (Hall (S b)).
Qed.

Lemma channel_entries_not_nil B L C X c :
  shaped B L C X → (1 ≤ B)%nat → (1 ≤ L)%nat →
  Common.channel_entries X c ≠ [].
Proof.
  intros [HB Hrows] HB1 HL1. unfold Common.channel_entries.
  destruct X as [|sample X]; [simpl in HB; lia|].
  destruct (Hrows 0%nat sample eq_refl) as [HL _].
  destruct sample as [|row sample]; [simpl in HL; lia|]. done.
Qed.

Section NormaliseCentred.
Variable tensor_mean tensor_std : list Q → Q.

(** The mean of a tensor that has an entry is the sum of its entries
    divided by their number; a standard deviation is not negative. *)
Hypothesis mean_spec : ∀ l, l ≠ [] →
  (tensor_mean l * inject_Z (Z.of_nat (length l)) == foldr Qplus 0 l)%Q.
Hypothesis std_nonneg : ∀ l, (0 <= tensor_std l)%Q.

(** Centred training data.  In exact arithmetic, the training data
    normalised with their own statistics keep their shape, no channel is
    divided by zero, and every channel of the result has mean 0. *)
Theorem normalise_data_centred B L C X :
  shaped B L C X → (1 ≤ B)%nat → (1 ≤ L)%nat → (1 ≤ C)%nat →
  ∃ X',
    Common.normalise_data tensor_mean tensor_std X X = Ok X' ∧
    shaped B L C X' ∧
    ∀ c, (c < C)%nat →
      (0 < channel_scale tensor_std X c)%Q ∧
      (tensor_mean (Common.channel_entries X' c) == 0)%Q.
Proof.
  intros HX HB HL HC.
  pose proof (normalise_data_run tensor_mean tensor_std B L C B L C X X
                HX HX HB HL HB HL) as Hrun.
  rewrite Nat.min_id in Hrun.
  replace (C =? 0)%nat with false in Hrun
    by (symmetry; apply Nat.eqb_neq; lia).
  exists (normalised tensor_mean tensor_std C X X).
  split; [done|]. split; [by apply (normalised_shaped _ _ B L C)|]. intros c Hc.
  assert (Hscale : (0 < channel_scale tensor_std X c)%Q).
  { unfold channel_scale.
    apply (Qlt_le_trans _ (0.00001 + 0)%Q); [done|].
    apply Qplus_le_r, std_nonneg. }
  split; [done|]. unfold normalised.
  rewrite (channel_entries_normalised _ B L C X c HX Hc).
  set (l := Common.channel_entries X c).
  assert (Hl : l ≠ []) by (by apply (channel_entries_not_nil B L C)).
  set (l' := _ <$> l).
  assert (Hl' : l' ≠ []) by (unfold l'; by destruct l).
  pose proof (mean_spec l' Hl') as Hmean.
  assert (Hsum : (foldr Qplus 0 l' == 0)%Q).
  { unfold l'. rewrite sum_centred.
    - unfold channel_mean. fold l. rewrite <- (mean_spec l Hl).
      field. intros Hz. rewrite Hz in Hscale. by apply Qlt_irrefl in Hscale.
    - intros Hz. rewrite Hz in Hscale. by apply Qlt_irrefl in Hscale. }
  rewrite Hsum in Hmean. apply Qmult_integral in Hmean as [Hm|Hn]; [done|].
  exfalso. unfold Qeq in Hn. simpl in Hn.
  unfold l' in Hn. rewrite length_fmap in Hn. destruct l; [done|].
  simpl in Hn. lia.
Qed.

End NormaliseCentred.

Lemma demo_mean_spec l :
  l ≠ [] →
  (demo_mean l * inject_Z (Z.of_nat (length l)) == foldr Qplus 0 l)%Q.
Proof.
  intros Hl. unfold demo_mean. field. intros Hz.
  unfold Qeq in Hz. simpl in Hz. destruct l; [done|]. simpl in Hz. lia.
Qed.

Lemma normalise_data_shape_witness :
  ∃ X',
    Common.normalise_data demo_mean (λ _, 1%Q) demo_X
      [[[1; 2; 3]; [4; 5; 6]]]%Q = Ok X' ∧
    shaped 1 7 (Nat.min 2 3) X' ∧
    ∀ b t c v, (c < Nat.min 2 3)%nat → entry demo_X b t c = Some v →
      entry X' b t c
      = Some ((v - channel_mean demo_mean [[[1; 2; 3]; [4; 5; 6]]]%Q c)
              / channel_scale (λ _, 1%Q) [[[1; 2; 3]; [4; 5; 6]]]%Q c)%Q.
Proof.
  apply (normalise_data_shape demo_mean (λ _, 1%Q) 1 7 2 1 2 3 demo_X
           [[[1; 2; 3]; [4; 5; 6]]]%Q).
  - exact demo_X_shaped.
  - split; [done|]. intros [|b] sample Hb; [|done].
    injection Hb as <-. split; [done|].
    intros t row Ht. repeat (destruct t as [|t]; [by injection Ht as <-|]).
    done.
  - lia.
  - lia.
  - lia.
  - lia.
Defined.

Lemma normalise_data_centred_witness :
  ∃ X',
    Common.normalise_data demo_mean (λ _, 1%Q) demo_X demo_X = Ok X' ∧
    shaped 1 7 2 X' ∧
    ∀ c, (c < 2)%nat →
      (0 < channel_scale (λ _, 1%Q) demo_X c)%Q ∧
      (demo_mean (Common.channel_entries X' c) == 0)%Q.
Proof.
  apply (normalise_data_centred demo_mean (λ _, 1%Q) demo_mean_spec).
  - intros l. discriminate.
  - exact demo_X_shaped.
  - lia.
  - lia.
  - lia.
Defined.

(** *** [main], uea.py lines 194-244, and its call of [common.main] *)

(** What [main] hands over to [common.main]: the tensor of times, a
    dataloader, a number, or a value given by the caller. *)
Inductive argument :=
| ArgTimes (times : list Q)
| ArgLoader (loader : Common.DataLoader (list (list Q) * Z))
| ArgInt (z : Z)
| ArgFloat (q : Q)
| ArgVal (v : pyval).

(** The parameters of [common.main], common.py lines 325-343; none has a
    default, and there is no [*args]. *)
Definition common_main_parameters : list string :=
  ["times"; "train_dataloader"; "val_dataloader"; "test_dataloader";
   "num_classes"; "input_channels"; "result_folder"; "result_subfolder";
   "epochs"; "num_shapelets_per_class"; "num_shapelet_samples";
   "discrepancy_fn"; "max_shapelet_length_proportion";
   "lengths_per_shapelet"; "num_continuous_samples";
   "ablation_pseudometric"; "ablation_learntlengths"; "ablation_similarreg";
   "old_shapelets"].

(** A call with positional arguments only, of a function whose
    parameters have no default: the arguments are bound in order, and a
    count other than that of the parameters is a [TypeError] before the
    body runs. *)
Definition call_positional {A R} (parameters : list string)
    (body : list (string * A) → result R) (args : list A) : result R :=
  if decide (length args = length parameters)
  then body (zip parameters args)
  else Raise TypeError.

Section UeaMain.
Variable load_from_tsfile : string → list (list (list Q)) * list string.
Variable randn : nat → nat → nat → list (list (list Q)).
Variable randperm : nat → Z → list Z.
Variable train_test_split :
  list (list (list Q)) → list Z →
  result (list (list (list Q)) * list (list (list Q)) * list Z * list Z).
Variable tensor_mean tensor_std : list Q → Q.

(** The body of [common.main], on its bound parameters. *)
Variable R : Type.
Variable common_main : list (string * argument) → result R.

(** Lines 194-244. *)
Definition main (dataset_name : string) (missing_rate : Q)
    (noise_channels : Z) (result_folder : pyval)
    (result_subfolder dataset_detail : string)
    (epochs num_shapelets_per_class num_shapelet_samples discrepancy_fn
     max_shapelet_length_proportion lengths_per_shapelet
     num_continuous_samples metric_type ablation_pseudometric
     ablation_learntlengths ablation_similarreg old_shapelets lr
     plateau_patience plateau_terminate initialisation : argument)
  : result R :=
  d ← get_data load_from_tsfile randn randperm train_test_split
        tensor_mean tensor_std dataset_name missing_rate noise_channels;
  call_positional common_main_parameters common_main
    [ArgTimes (times d);
     ArgLoader (train_dataloader d);
     ArgLoader (val_dataloader d);
     ArgLoader (test_dataloader d);
     ArgInt (num_classes d);
     ArgInt (Z.of_nat (input_channels d));
     ArgVal result_folder;
     ArgVal (VStr (String.append dataset_name
                     (String.append dataset_detail
                        (String.append "-" result_subfolder))));
     epochs;
     num_shapelets_per_class;
     num_shapelet_samples;
     discrepancy_fn;
     max_shapelet_length_proportion;
     lengths_per_shapelet;
     num_continuous_samples;
     metric_type;
     ablation_pseudometric;
     ablation_learntlengths;
     ablation_similarreg;
     old_shapelets;
     lr;
     plateau_patience;
     plateau_terminate;
     initialisation].

(** [main] never gives a result.  It passes [common.main] twenty-four
    positional arguments, [metric_type], [lr], [plateau_patience],
    [plateau_terminate] and [initialisation] among them, and [common.main]
    has nineteen parameters: whatever the arguments of [main] and whatever
    the body of [common.main], a failure of [get_data] is the failure of
    [main], and once [get_data] has returned the call raises a [TypeError]
    without the body of [common.main] being run. *)
Theorem main_never_returns (dataset_name : string) (missing_rate : Q)
    (noise_channels : Z) (result_folder : pyval)
    (result_subfolder dataset_detail : string)
    (epochs num_shapelets_per_class num_shapelet_samples discrepancy_fn
     max_shapelet_length_proportion lengths_per_shapelet
     num_continuous_samples metric_type ablation_pseudometric
     ablation_learntlengths ablation_similarreg old_shapelets lr
     plateau_patience plateau_terminate initialisation : argument) :
  let run :=
    main dataset_name missing_rate noise_channels result_folder
      result_subfolder dataset_detail epochs num_shapelets_per_class
      num_shapelet_samples discrepancy_fn max_shapelet_length_proportion
      lengths_per_shapelet num_continuous_samples metric_type
      ablation_pseudometric ablation_learntlengths ablation_similarreg
      old_shapelets lr plateau_patience plateau_terminate initialisation in
  run = match get_data load_from_tsfile randn randperm train_test_split
                tensor_mean tensor_std dataset_name missing_rate
                noise_channels with
        | Ok _ => Raise TypeError
        | Raise e => Raise e
        end ∧
  ∀ r, run ≠ Ok r.
Proof.
  cbn zeta. unfold main.
  destruct (get_data _ _ _ _ _ _ _ _ _) as [d|e]; cbn; split; done.
Qed.

End UeaMain.

End Uea.
